(** * A shallow embedding of the piece-table editor core (editor.c)

    The C program keeps a doubly linked list of pieces between two
    sentinels, an append-only list of byte buffers, and two stacks of
    actions (lists of changes) for undo and redo.  Every object lives
    in a heap indexed by addresses; a C pointer is an optional
    address, [None] being the null pointer.  Dereferencing a null or a
    freed pointer is undefined behaviour in C and is the outcome
    [Crash] here.  [size_t] values are integers with their
    wrap-around modulo 2^64 written out. *)

From Stdlib Require Import ZArith Lia Ascii String.
From stdpp Require Import base gmap list.

Local Open Scope Z_scope.

(** ** Machine integers *)

Definition SIZE_MOD : Z := 2 ^ 64.
Definition wrap (z : Z) : Z := z mod SIZE_MOD.
Definition addw (a b : Z) : Z := wrap (a + b).
Definition subw (a b : Z) : Z := wrap (a - b).

Definition BUFFER_SIZE : Z := Z.shiftl 1 20.

(** ** Data model *)

Abbreviation addr := nat.
Abbreviation ptr := (option addr).

(** A [char *] into a buffer: the buffer's address and a byte offset. *)
Record cptr := CPtr { blk : addr; ofs : Z }.

Definition cptr_add (c : option cptr) (n : Z) : option cptr :=
  match c with
  | Some c => Some (CPtr (blk c) (ofs c + n))
  | None => None
  end.

#[global] Instance cptr_eq_dec : EqDecision cptr.
Proof. solve_decision. Defined.

Record Buffer := mkBuffer {
  b_size : Z;               (* maximal capacity *)
  b_pos : Z;                (* current insertion position *)
  b_content : list ascii;   (* the bytes stored so far *)
  b_next : ptr
}.

(** The [index] of a piece is its address; the allocation-order list
    ([global_prev], [global_next], [ed->pieces]) only serves teardown and
    is represented by the piece heap itself. *)
Record Piece := mkPiece {
  p_prev : ptr;
  p_next : ptr;
  p_content : option cptr;
  p_len : Z
}.

Record Location := mkLocation { piece : ptr; off : Z }.

Record Span := mkSpan { s_start : ptr; s_end : ptr; s_len : Z }.

Record Change := mkChange { c_old : Span; c_new : Span; c_next : ptr }.

(** The timestamp of an action is never read by the code below. *)
Record Action := mkAction { a_change : ptr; a_next : ptr }.

(** The editor struct together with the heaps its pointers point into.
    [oracle] lists the outcomes of the coming calls of malloc and
    calloc (an empty list: every call succeeds); [brk] is the next
    fresh address of the allocator, which never hands out an address
    twice. *)
Record state := mkState {
  hp_piece : gmap addr Piece;
  hp_change : gmap addr Change;
  hp_action : gmap addr Action;
  hp_buffer : gmap addr Buffer;
  brk : addr;
  oracle : list bool;
  buffers : ptr;
  cache : ptr;
  piece_count : nat;
  redo : ptr;
  undo : ptr;
  current_action : ptr;
  saved_action : ptr;
  size : Z
}.

(** Addresses of the two sentinels (their [index] in the source) and of
    the buffer holding the mapped file. *)
Definition begin_ : addr := 1%nat.
Definition end_ : addr := 2%nat.
Definition file_buf : addr := 0%nat.

Definition set_hp_piece (v : gmap addr Piece) (s : state) : state :=
  mkState v (hp_change s) (hp_action s) (hp_buffer s) (brk s) (oracle s)
    (buffers s) (cache s) (piece_count s) (redo s) (undo s)
    (current_action s) (saved_action s) (size s).
Definition set_hp_change (v : gmap addr Change) (s : state) : state :=
  mkState (hp_piece s) v (hp_action s) (hp_buffer s) (brk s) (oracle s)
    (buffers s) (cache s) (piece_count s) (redo s) (undo s)
    (current_action s) (saved_action s) (size s).
Definition set_hp_action (v : gmap addr Action) (s : state) : state :=
  mkState (hp_piece s) (hp_change s) v (hp_buffer s) (brk s) (oracle s)
    (buffers s) (cache s) (piece_count s) (redo s) (undo s)
    (current_action s) (saved_action s) (size s).
Definition set_hp_buffer (v : gmap addr Buffer) (s : state) : state :=
  mkState (hp_piece s) (hp_change s) (hp_action s) v (brk s) (oracle s)
    (buffers s) (cache s) (piece_count s) (redo s) (undo s)
    (current_action s) (saved_action s) (size s).
Definition set_brk (v : addr) (s : state) : state :=
  mkState (hp_piece s) (hp_change s) (hp_action s) (hp_buffer s) v (oracle s)
    (buffers s) (cache s) (piece_count s) (redo s) (undo s)
    (current_action s) (saved_action s) (size s).
Definition set_oracle (v : list bool) (s : state) : state :=
  mkState (hp_piece s) (hp_change s) (hp_action s) (hp_buffer s) (brk s) v
    (buffers s) (cache s) (piece_count s) (redo s) (undo s)
    (current_action s) (saved_action s) (size s).
Definition set_buffers (v : ptr) (s : state) : state :=
  mkState (hp_piece s) (hp_change s) (hp_action s) (hp_buffer s) (brk s)
    (oracle s) v (cache s) (piece_count s) (redo s) (undo s)
    (current_action s) (saved_action s) (size s).
Definition set_cache (v : ptr) (s : state) : state :=
  mkState (hp_piece s) (hp_change s) (hp_action s) (hp_buffer s) (brk s)
    (oracle s) (buffers s) v (piece_count s) (redo s) (undo s)
    (current_action s) (saved_action s) (size s).
Definition set_piece_count (v : nat) (s : state) : state :=
  mkState (hp_piece s) (hp_change s) (hp_action s) (hp_buffer s) (brk s)
    (oracle s) (buffers s) (cache s) v (redo s) (undo s)
    (current_action s) (saved_action s) (size s).
Definition set_redo (v : ptr) (s : state) : state :=
  mkState (hp_piece s) (hp_change s) (hp_action s) (hp_buffer s) (brk s)
    (oracle s) (buffers s) (cache s) (piece_count s) v (undo s)
    (current_action s) (saved_action s) (size s).
Definition set_undo (v : ptr) (s : state) : state :=
  mkState (hp_piece s) (hp_change s) (hp_action s) (hp_buffer s) (brk s)
    (oracle s) (buffers s) (cache s) (piece_count s) (redo s) v
    (current_action s) (saved_action s) (size s).
Definition set_current_action (v : ptr) (s : state) : state :=
  mkState (hp_piece s) (hp_change s) (hp_action s) (hp_buffer s) (brk s)
    (oracle s) (buffers s) (cache s) (piece_count s) (redo s) (undo s)
    v (saved_action s) (size s).
Definition set_size (v : Z) (s : state) : state :=
  mkState (hp_piece s) (hp_change s) (hp_action s) (hp_buffer s) (brk s)
    (oracle s) (buffers s) (cache s) (piece_count s) (redo s) (undo s)
    (current_action s) (saved_action s) v.

(** ** The monad of editor operations *)

Inductive outcome (A : Type) : Type :=
| Ok (a : A) (s : state)   (* the call returns [a] *)
| Crash                    (* undefined behaviour: null or dangling dereference *)
| Diverge.                 (* a list walk exceeded the heap size: the list is cyclic *)
Arguments Ok {A} a s.
Arguments Crash {A}.
Arguments Diverge {A}.

Definition M (A : Type) : Type := state → outcome A.

Definition ret {A} (a : A) : M A := λ s, Ok a s.
Definition bind {A B} (m : M A) (k : A → M B) : M B :=
  λ s, match m s with
       | Ok a s' => k a s'
       | Crash => Crash
       | Diverge => Diverge
       end.
Definition crash {A} : M A := λ _, Crash.
Definition diverge {A} : M A := λ _, Diverge.
Definition get : M state := λ s, Ok s s.
Definition gets {A} (f : state → A) : M A := λ s, Ok (f s) s.
Definition modify (f : state → state) : M unit := λ s, Ok tt (f s).

Notation "'let!' x ':=' m 'in' k" := (bind m (λ x, k))
  (at level 10, x name, m at level 100, k at level 200,
   format "'[v' 'let!'  x  :=  m  'in'  '/' k ']'").

(** One call of malloc or calloc: did it succeed? *)
Definition alloc_ok : M bool :=
  λ s, match oracle s with
       | [] => Ok true s
       | b :: o => Ok b (set_oracle o s)
       end.

(** A fresh address for a Buffer, a Change or an Action. *)
Definition fresh : M addr :=
  λ s, Ok (brk s) (set_brk (S (brk s)) s).

Definition load_piece (p : ptr) : M Piece :=
  λ s, match p with
       | Some a => match hp_piece s !! a with
                   | Some P => Ok P s
                   | None => Crash
                   end
       | None => Crash
       end.

Definition store_piece (p : ptr) (f : Piece → Piece) : M unit :=
  let! P := load_piece p in
  match p with
  | Some a => modify (λ s, set_hp_piece (<[a := f P]> (hp_piece s)) s)
  | None => crash
  end.

Definition load_change (c : ptr) : M Change :=
  λ s, match c with
       | Some a => match hp_change s !! a with
                   | Some C => Ok C s
                   | None => Crash
                   end
       | None => Crash
       end.

Definition store_change (c : ptr) (f : Change → Change) : M unit :=
  let! C := load_change c in
  match c with
  | Some a => modify (λ s, set_hp_change (<[a := f C]> (hp_change s)) s)
  | None => crash
  end.

Definition load_action (a : ptr) : M Action :=
  λ s, match a with
       | Some i => match hp_action s !! i with
                   | Some A => Ok A s
                   | None => Crash
                   end
       | None => Crash
       end.

Definition store_action (a : ptr) (f : Action → Action) : M unit :=
  let! A := load_action a in
  match a with
  | Some i => modify (λ s, set_hp_action (<[i := f A]> (hp_action s)) s)
  | None => crash
  end.

Definition load_buffer (b : ptr) : M Buffer :=
  λ s, match b with
       | Some i => match hp_buffer s !! i with
                   | Some B => Ok B s
                   | None => Crash
                   end
       | None => Crash
       end.

Definition store_buffer (b : ptr) (f : Buffer → Buffer) : M unit :=
  let! B := load_buffer b in
  match b with
  | Some i => modify (λ s, set_hp_buffer (<[i := f B]> (hp_buffer s)) s)
  | None => crash
  end.

Definition set_p_prev (v : ptr) (P : Piece) : Piece :=
  mkPiece v (p_next P) (p_content P) (p_len P).
Definition set_p_next (v : ptr) (P : Piece) : Piece :=
  mkPiece (p_prev P) v (p_content P) (p_len P).
Definition set_p_len (v : Z) (P : Piece) : Piece :=
  mkPiece (p_prev P) (p_next P) (p_content P) v.
Definition set_s_len (v : Z) (sp : Span) : Span :=
  mkSpan (s_start sp) (s_end sp) v.
Definition set_c_old (v : Span) (C : Change) : Change :=
  mkChange v (c_new C) (c_next C).
Definition set_c_new (v : Span) (C : Change) : Change :=
  mkChange (c_old C) v (c_next C).
Definition set_a_change (v : ptr) (A : Action) : Action :=
  mkAction v (a_next A).
Definition set_a_next (v : ptr) (A : Action) : Action :=
  mkAction (a_change A) v.

(** strlen: the bytes before the first NUL (or the end of the list). *)
Fixpoint strlen (text : list ascii) : nat :=
  match text with
  | [] => 0%nat
  | c :: text' => if decide (c = zero) then 0%nat else S (strlen text')
  end.

(** ** Buffer management *)

(** allocate a new buffer of MAX(size, BUFFER_SIZE) bytes *)
Definition buffer_alloc (sz : Z) : M ptr :=
  let! ok := alloc_ok in
  if negb ok then ret None else
  let sz := if BUFFER_SIZE >? sz then BUFFER_SIZE else sz in
  let! ok := alloc_ok in
  if negb ok then ret None else
  let! b := fresh in
  let! _ := modify (λ s,
    set_buffers (Some b)
      (set_hp_buffer (<[b := mkBuffer sz 0 [] (buffers s)]> (hp_buffer s)) s)) in
  ret (Some b).

(** check whether buffer has enough free space to store len bytes *)
Definition buffer_capacity (B : Buffer) (len : Z) : bool :=
  subw (b_size B) (b_pos B) >=? len.

(** append data to buffer, assumes there is enough space available *)
Definition buffer_append (buf : ptr) (content : list ascii) (len : Z)
  : M (option cptr) :=
  let! B := load_buffer buf in
  let! _ := store_buffer buf (λ B,
    mkBuffer (b_size B) (addw (b_pos B) len)
      (take (Z.to_nat (b_pos B)) (b_content B) ++ take (Z.to_nat len) content)
      (b_next B)) in
  ret (match buf with
       | Some b => Some (CPtr b (b_pos B))
       | None => None
       end).

(** stores the given data in a buffer, allocates a new one if necessary *)
Definition buffer_store (content : list ascii) (len : Z) : M (option cptr) :=
  let! buf := gets buffers in
  let! full := match buf with
               | None => ret true
               | Some _ => let! B := load_buffer buf in
                           ret (negb (buffer_capacity B len))
               end in
  if full then
    let! buf := buffer_alloc len in
    match buf with
    | None => ret None
    | Some _ => buffer_append buf content len
    end
  else buffer_append buf content len.

(** insert data into buffer at an arbitrary position *)
Definition buffer_insert (buf : ptr) (pos : Z) (content : list ascii) (len : Z)
  : M bool :=
  let! B := load_buffer buf in
  if (pos >? b_pos B) || negb (buffer_capacity B len) then ret false else
  if b_pos B =? pos then
    let! dest := buffer_append buf content len in
    ret (bool_decide (dest ≠ None))
  else
    let! _ := store_buffer buf (λ B,
      mkBuffer (b_size B) (addw (b_pos B) len)
        (take (Z.to_nat pos) (b_content B) ++ take (Z.to_nat len) content
           ++ drop (Z.to_nat pos) (b_content B))
        (b_next B)) in
    ret true.

(** delete data from a buffer at an arbitrary position.  The sum
    [pos + len] of the guard, the source [delete + len] and the count
    [buf->pos - pos - len] of memmove are computed in size_t.  When the
    sum wraps around, the source lies in front of [delete] and the bytes
    from there on move up, the buffer growing; a move that starts behind
    the bytes written so far, or runs past the capacity, has no outcome
    here. *)
Definition buffer_delete (buf : ptr) (pos len : Z) : M bool :=
  let! B := load_buffer buf in
  if addw pos len >? b_pos B then ret false else
  if b_pos B =? pos then
    let! _ := store_buffer buf (λ B,
      mkBuffer (b_size B) (subw (b_pos B) len)
        (take (Z.to_nat (subw (b_pos B) len)) (b_content B)) (b_next B)) in
    ret true
  else if pos + len <? SIZE_MOD then
    let! _ := store_buffer buf (λ B,
      mkBuffer (b_size B) (subw (b_pos B) len)
        (take (Z.to_nat pos) (b_content B)
           ++ drop (Z.to_nat (pos + len)) (b_content B))
        (b_next B)) in
    ret true
  else
    let from := addw pos len in
    let n := subw (subw (b_pos B) pos) len in
    if (b_pos B <? pos) || (b_size B <? pos + n) then crash else
    let! _ := store_buffer buf (λ B,
      mkBuffer (b_size B) (subw (b_pos B) len)
        (take (Z.to_nat pos) (b_content B)
           ++ take (Z.to_nat n) (drop (Z.to_nat from) (b_content B)))
        (b_next B)) in
    ret true.

(** Does the content of [P] end exactly at the current end of the head
    buffer?  Pointers into different buffers are never equal. *)
Definition ends_at_tail (P : Piece) (b : addr) (B : Buffer) : bool :=
  match p_content P with
  | Some c => bool_decide (blk c = b) && (ofs c + p_len P =? b_pos B)
  | None => false
  end.

(** ** Cache layer *)

(** cache the given piece if it is the most recently changed one.  A
    piece whose content does not point into the head buffer is not
    cached. *)
Definition cache_piece (p : ptr) : M unit :=
  let! buf := gets buffers in
  match buf with
  | None => ret tt
  | Some b =>
    let! B := load_buffer buf in
    let! P := load_piece p in
    match p_content P with
    | Some c =>
      if negb (bool_decide (blk c = b)) || (ofs c <? 0)
         || negb (ends_at_tail P b B)
      then ret tt
      else modify (set_cache p)
    | None => ret tt
    end
  end.

(** The loop of cache_contains: walk from [cur] until [p] is found or
    [end] is passed. *)
Fixpoint cache_contains_loop (n : nat) (cur p end' : ptr) : M bool :=
  match n with
  | O => diverge
  | S n =>
    let found := bool_decide (cur = p) in
    if bool_decide (cur = end') then ret found else
    let! C := load_piece cur in
    if found then ret true else cache_contains_loop n (p_next C) p end'
  end.

(** check whether the given piece was the most recently modified one *)
Definition cache_contains (p : ptr) : M bool :=
  let! buf := gets buffers in
  let! cch := gets cache in
  let! a := gets current_action in
  match buf, cch, a with
  | Some b, Some _, Some _ =>
    if negb (bool_decide (cch = p)) then ret false else
    let! A := load_action a in
    match a_change A with
    | None => ret false
    | Some _ =>
      let! C := load_change (a_change A) in
      let start := s_start (c_new C) in
      let end' := s_start (c_new C) in
      let! fuel := gets (λ s, S (base.size (hp_piece s))) in
      let! found := cache_contains_loop fuel start p end' in
      if negb found then ret false else
      let! P := load_piece p in
      let! B := load_buffer buf in
      ret (ends_at_tail P b B)
    end
  | _, _, _ => ret false
  end.

(** The offset in the head buffer of byte [off] of piece [P]. *)
Definition bufpos_of (P : Piece) (off : Z) : Z :=
  match p_content P with
  | Some c => wrap (ofs c + off)
  | None => wrap off
  end.

Definition grow_new_len (d : Z) : M unit :=
  let! a := gets current_action in
  let! A := load_action a in
  store_change (a_change A) (λ C,
    set_c_new (set_s_len (wrap (s_len (c_new C) + d)) (c_new C)) C).

(** try to insert a junk of data at a given piece offset *)
Definition cache_insert (p : ptr) (off : Z) (text : list ascii) (len : Z)
  : M bool :=
  let! hit := cache_contains p in
  if negb hit then ret false else
  let! buf := gets buffers in
  let! P := load_piece p in
  let bufpos := bufpos_of P off in
  let! ok := buffer_insert buf bufpos text len in
  if negb ok then ret false else
  let! _ := store_piece p (λ P, set_p_len (addw (p_len P) len) P) in
  let! _ := grow_new_len len in
  let! _ := modify (λ s, set_size (addw (size s) len) s) in
  ret true.

(** try to delete a junk of data at a given piece offset *)
Definition cache_delete (p : ptr) (off len : Z) : M bool :=
  let! hit := cache_contains p in
  if negb hit then ret false else
  let! buf := gets buffers in
  let! P := load_piece p in
  let bufpos := bufpos_of P off in
  if addw off len >? p_len P then ret false else
  let! ok := buffer_delete buf bufpos len in
  if negb ok then ret false else
  let! _ := store_piece p (λ P, set_p_len (subw (p_len P) len) P) in
  let! _ := grow_new_len (- len) in
  let! _ := modify (λ s, set_size (subw (size s) len) s) in
  ret true.

(** ** Spans *)

Fixpoint span_init_loop (n : nat) (p end' : ptr) (len : Z) : M Z :=
  match n with
  | O => diverge
  | S n =>
    match p with
    | None => ret len
    | Some _ =>
      let! P := load_piece p in
      let len := addw len (p_len P) in
      if bool_decide (p = end') then ret len
      else span_init_loop n (p_next P) end' len
    end
  end.

(** initialize a span and calculate its length *)
Definition span_init (start end' : ptr) : M Span :=
  let! fuel := gets (λ s, S (base.size (hp_piece s))) in
  let! len := span_init_loop fuel start end' 0 in
  ret (mkSpan start end' len).

(** swap out an old span and replace it with a new one *)
Definition span_swap (old new : Span) : M unit :=
  if (s_len old =? 0) && (s_len new =? 0) then ret tt else
  let! _ :=
    if s_len old =? 0 then
      (* insert new span *)
      let! S := load_piece (s_start new) in
      let! _ := store_piece (p_prev S) (set_p_next (s_start new)) in
      let! E := load_piece (s_end new) in
      store_piece (p_next E) (set_p_prev (s_end new))
    else if s_len new =? 0 then
      (* delete old span *)
      let! S := load_piece (s_start old) in
      let! E := load_piece (s_end old) in
      let! _ := store_piece (p_prev S) (set_p_next (p_next E)) in
      let! E := load_piece (s_end old) in
      let! S := load_piece (s_start old) in
      store_piece (p_next E) (set_p_prev (p_prev S))
    else
      (* replace old with new *)
      let! S := load_piece (s_start old) in
      let! _ := store_piece (p_prev S) (set_p_next (s_start new)) in
      let! E := load_piece (s_end old) in
      store_piece (p_next E) (set_p_prev (s_end new)) in
  let! _ := modify (λ s, set_size (subw (size s) (s_len old)) s) in
  modify (λ s, set_size (addw (size s) (s_len new)) s).

(** ** Pieces *)

Definition piece_alloc : M ptr :=
  let! ok := alloc_ok in
  if negb ok then ret None else
  let! _ := modify (λ s, set_piece_count (S (piece_count s)) s) in
  let! i := gets piece_count in
  let! _ := modify (λ s,
    set_hp_piece (<[i := mkPiece None None None 0]> (hp_piece s)) s) in
  ret (Some i).

Definition piece_free (p : ptr) : M unit :=
  match p with
  | None => ret tt
  | Some i =>
    let! _ := load_piece p in
    let! _ := modify (λ s,
      if bool_decide (cache s = p) then set_cache None s else s) in
    modify (λ s, set_hp_piece (delete i (hp_piece s)) s)
  end.

Definition piece_init (p prev next : ptr) (content : option cptr) (len : Z)
  : M unit :=
  store_piece p (λ _, mkPiece prev next content len).

Fixpoint piece_get_loop (n : nat) (p : ptr) (cur pos : Z) : M Location :=
  match n with
  | O => diverge
  | S n =>
    let! P := load_piece p in
    match p_next P with
    | None => ret (mkLocation None 0)
    | Some _ =>
      if (cur <=? pos) && (pos <=? addw cur (p_len P))
      then ret (mkLocation p (subw pos cur))
      else piece_get_loop n (p_next P) (addw cur (p_len P)) pos
    end
  end.

(** returns the piece holding the text at byte offset pos.
    if pos is zero, then the begin sentinel piece is returned. *)
Definition piece_get (pos : Z) : M Location :=
  let! fuel := gets (λ s, S (base.size (hp_piece s))) in
  piece_get_loop fuel (Some begin_) 0 pos.

(** ** Actions and changes *)

Inductive stack := UndoStack | RedoStack.

Definition stack_top (st : stack) (s : state) : ptr :=
  match st with UndoStack => undo s | RedoStack => redo s end.
Definition set_stack_top (st : stack) (v : ptr) : state → state :=
  match st with UndoStack => set_undo v | RedoStack => set_redo v end.

Definition action_push (st : stack) (action : ptr) : M unit :=
  let! top := gets (stack_top st) in
  let! _ := store_action action (set_a_next top) in
  modify (set_stack_top st action).

Definition action_pop (st : stack) : M ptr :=
  let! action := gets (stack_top st) in
  match action with
  | None => ret None
  | Some _ =>
    let! A := load_action action in
    let! _ := modify (set_stack_top st (a_next A)) in
    ret action
  end.

Definition change_free (c : ptr) : M unit :=
  (* only free the new part of the span, the old one is still in use *)
  let! C := load_change c in
  let! _ := piece_free (s_start (c_new C)) in
  let! C := load_change c in
  let! _ := if bool_decide (s_start (c_new C) ≠ s_end (c_new C))
            then piece_free (s_end (c_new C)) else ret tt in
  match c with
  | Some i => modify (λ s, set_hp_change (delete i (hp_change s)) s)
  | None => crash
  end.

Fixpoint action_free_loop (n : nat) (c : ptr) : M unit :=
  match n with
  | O => diverge
  | S n =>
    match c with
    | None => ret tt
    | Some _ =>
      let! C := load_change c in
      let next := c_next C in
      let! _ := change_free c in
      action_free_loop n next
    end
  end.

Definition action_free (a : ptr) : M unit :=
  match a with
  | None => ret tt
  | Some i =>
    let! A := load_action a in
    let! fuel := gets (λ s, S (base.size (hp_change s))) in
    let! _ := action_free_loop fuel (a_change A) in
    let! _ := load_action a in
    modify (λ s, set_hp_action (delete i (hp_action s)) s)
  end.

Fixpoint drain_redo (n : nat) : M unit :=
  match n with
  | O => diverge
  | S n =>
    let! old := action_pop RedoStack in
    match old with
    | None => ret tt
    | Some _ => let! _ := action_free old in drain_redo n
    end
  end.

(** allocate a new action, empty the redo stack and push the new action onto
    the undo stack. all further changes will be associated with this action. *)
Definition action_alloc : M ptr :=
  let! ok := alloc_ok in
  if negb ok then ret None else
  let! new := fresh in
  let! _ := modify (λ s,
    set_hp_action (<[new := mkAction None None]> (hp_action s)) s) in
  (* throw a away all old redo operations *)
  let! fuel := gets (λ s, S (base.size (hp_action s))) in
  let! _ := drain_redo fuel in
  let! _ := modify (set_current_action (Some new)) in
  let! _ := action_push UndoStack (Some new) in
  ret (Some new).

Definition empty_span : Span := mkSpan None None 0.

(** allocate a new change, associate it with current action or a newly
    allocated one if none exists. *)
Definition change_alloc : M ptr :=
  let! a := gets current_action in
  let! a := match a with
            | None => action_alloc
            | Some _ => ret a
            end in
  match a with
  | None => ret None
  | Some _ =>
    let! ok := alloc_ok in
    if negb ok then ret None else
    let! c := fresh in
    let! A := load_action a in
    let! _ := modify (λ s,
      set_hp_change
        (<[c := mkChange empty_span empty_span (a_change A)]> (hp_change s)) s) in
    let! _ := store_action a (set_a_change (Some c)) in
    ret (Some c)
  end.

(** ** Editing *)

Definition editor_insert (pos : Z) (text : list ascii) : M bool :=
  let len := Z.of_nat (strlen text) in
  let! loc := piece_get pos in
  let p := piece loc in
  let off := off loc in
  let! hit := cache_insert p off text len in
  if hit then ret true else
  let! c := change_alloc in
  match c with
  | None => ret false
  | Some _ =>
    let! text' := buffer_store text len in
    match text' with
    | None => ret false
    | Some _ =>
      let! P := load_piece p in
      let! new :=
        if off =? p_len P then
          (* insert between two existing pieces, hence there is nothing to
             remove, just add a new piece holding the extra text *)
          let! new := piece_alloc in
          match new with
          | None => ret None
          | Some _ =>
            let! P := load_piece p in
            let! _ := piece_init new p (p_next P) text' len in
            let! sn := span_init new new in
            let! _ := store_change c (set_c_new sn) in
            let! so := span_init None None in
            let! _ := store_change c (set_c_old so) in
            ret new
          end
        else
          (* insert into middle of an existing piece, therfore split the old
             piece *)
          let! before := piece_alloc in
          let! new := piece_alloc in
          let! after := piece_alloc in
          match before, new, after with
          | Some _, Some _, Some _ =>
            let! P := load_piece p in
            let! _ := piece_init before (p_prev P) new (p_content P) off in
            let! _ := piece_init new before after text' len in
            let! P := load_piece p in
            let! _ := piece_init after new (p_next P)
                        (cptr_add (p_content P) off) (subw (p_len P) off) in
            let! sn := span_init before after in
            let! _ := store_change c (set_c_new sn) in
            let! so := span_init p p in
            let! _ := store_change c (set_c_old so) in
            ret new
          | _, _, _ => ret None
          end in
      match new with
      | None => ret false
      | Some _ =>
        let! _ := cache_piece new in
        let! C := load_change c in
        let! _ := span_swap (c_old C) (c_new C) in
        ret true
      end
    end
  end.

Fixpoint undo_loop (n : nat) (c : ptr) : M unit :=
  match n with
  | O => diverge
  | S n =>
    match c with
    | None => ret tt
    | Some _ =>
      let! C := load_change c in
      let! _ := span_swap (c_new C) (c_old C) in
      let! C := load_change c in
      undo_loop n (c_next C)
    end
  end.

(** undo all changes of the last action, return whether changes existed *)
Definition editor_undo : M bool :=
  let! a := action_pop UndoStack in
  match a with
  | None => ret false
  | Some _ =>
    let! A := load_action a in
    let! fuel := gets (λ s, S (base.size (hp_change s))) in
    let! _ := undo_loop fuel (a_change A) in
    let! _ := action_push RedoStack a in
    ret true
  end.

Fixpoint redo_loop (n : nat) (c : ptr) : M unit :=
  match n with
  | O => diverge
  | S n =>
    match c with
    | None => ret tt
    | Some _ =>
      let! C := load_change c in
      let! _ := span_swap (c_old C) (c_new C) in
      let! C := load_change c in
      redo_loop n (c_next C)
    end
  end.

(** redo all changes of the last action, return whether changes existed *)
Definition editor_redo : M bool :=
  let! a := action_pop RedoStack in
  match a with
  | None => ret false
  | Some _ =>
    let! A := load_action a in
    let! fuel := gets (λ s, S (base.size (hp_change s))) in
    let! _ := redo_loop fuel (a_change A) in
    let! _ := action_push UndoStack a in
    ret true
  end.

(** The loop of editor_delete that skips all pieces which fall into the
    deletion range. *)
Fixpoint delete_skip_loop (n : nat) (p : ptr) (cur len : Z) : M (ptr * Z) :=
  match n with
  | O => diverge
  | S n =>
    if cur <? len then
      let! P := load_piece p in
      let! P' := load_piece (p_next P) in
      delete_skip_loop n (p_next P) (addw cur (p_len P')) len
    else ret (p, cur)
  end.

Definition editor_delete (pos len : Z) : M bool :=
  if len =? 0 then ret true else
  let! sz := gets size in
  if addw pos len >? sz then ret false else
  let! loc := piece_get pos in
  let p := piece loc in
  let off := off loc in
  let! hit := cache_delete p off len in
  if hit then ret true else
  let! c := change_alloc in
  match c with
  | None => ret false
  | Some _ =>
    let! P := load_piece p in
    let! r1 :=
      if off =? p_len P then
        (* deletion starts at a piece boundry *)
        ret (false, 0, p, p_next P)
      else
        (* deletion starts midway through a piece *)
        let! before := piece_alloc in
        ret (true, subw (p_len P) off, before, p) in
    let '(midway_start, cur, before, start) := r1 in
    (* skip all pieces which fall into deletion range *)
    let! fuel := gets (λ s, S (base.size (hp_piece s))) in
    let! r2 := delete_skip_loop fuel p cur len in
    let '(p, cur) := r2 in
    let! P := load_piece p in
    let! r3 :=
      if cur =? len then
        (* deletion stops at a piece boundry *)
        ret (false, p, p_next P)
      else
        (* deletion stops midway through a piece *)
        let! after := piece_alloc in
        let! P := load_piece p in
        let! _ := piece_init after before (p_next P)
                    (cptr_add (p_content P) (p_len P - (cur - len)))
                    (subw cur len) in
        ret (true, p, after) in
    let '(midway_end, end', after) := r3 in
    let! _ :=
      if midway_start : bool then
        (* we finally know which piece follows our newly allocated before
           piece *)
        let! S := load_piece start in
        piece_init before (p_prev S) after (p_content S) off
      else ret tt in
    let new_start :=
      if midway_start then before
      else if midway_end then after else None in
    let new_end :=
      if midway_end then after
      else if midway_start then before else None in
    let! sn := span_init new_start new_end in
    let! _ := store_change c (set_c_new sn) in
    let! so := span_init start end' in
    let! _ := store_change c (set_c_old so) in
    let! C := load_change c in
    let! _ := span_swap (c_old C) (c_new C) in
    ret true
  end.

Definition editor_replace (pos : Z) (c : list ascii) : M bool :=
  (* TODO argument validation: pos etc. *)
  let len := Z.of_nat (strlen c) in
  let! _ := editor_delete pos len in
  let! _ := editor_insert pos c in
  ret true.

(** preserve the current text content such that it can be restored by
    means of undo/redo operations *)
Definition editor_snapshot : M unit :=
  let! _ := modify (set_current_action None) in
  modify (set_cache None).

Definition editor_modified : M bool :=
  gets (λ s, bool_decide (saved_action s ≠ undo s)).

(** ** Iteration *)

(** The [len] bytes at [content]; reading no byte never faults. *)
Definition read_bytes (content : option cptr) (len : Z) : M (list ascii) :=
  if len =? 0 then ret [] else
  match content with
  | None => crash
  | Some c =>
    let! B := load_buffer (Some (blk c)) in
    ret (take (Z.to_nat len) (drop (Z.to_nat (ofs c)) (b_content B)))
  end.

Definition iterator_callback (D : Type) : Type :=
  D → Z → list ascii → bool * D.

Fixpoint iterate_loop {D} (n : nat) (callback : iterator_callback D)
    (data : D) (p : ptr) (pos : Z) (content : option cptr) (len : Z) : M D :=
  match n with
  | O => diverge
  | S n =>
    match p with
    | None => ret data
    | Some _ =>
      let! bytes := read_bytes content len in
      let '(continue, data) := callback data pos bytes in
      if negb continue then ret data else
      let pos := addw pos len in
      let! P := load_piece p in
      match p_next P with
      | None => ret data
      | Some _ =>
        let! P' := load_piece (p_next P) in
        iterate_loop n callback data (p_next P) pos (p_content P') (p_len P')
      end
    end
  end.

Definition editor_iterate {D} (data : D) (pos : Z)
    (callback : iterator_callback D) : M D :=
  let! loc := piece_get pos in
  match piece loc with
  | None => ret data
  | Some _ =>
    let! P := load_piece (piece loc) in
    let len := subw (p_len P) (off loc) in
    let content := cptr_add (p_content P) (off loc) in
    let! fuel := gets (λ s, S (base.size (hp_piece s))) in
    iterate_loop fuel callback data (piece loc) pos content len
  end.

Definition copy_content : iterator_callback (list ascii) :=
  λ data _ content, (true, data ++ content).

(** The document: what editor_save writes, the bytes visited by iterating
    from position 0. *)
Definition editor_content : M (list ascii) :=
  editor_iterate [] 0 copy_content.

(** ** Loading *)

Definition empty_state (o : list bool) : state :=
  mkState ∅ ∅ ∅ ∅ 1%nat o None None 0%nat None None None None 0.

(** load the given file as starting point for further editing operations.
    [file] is the content of the regular file the name denotes; opening,
    stat and mapping it are taken to succeed, except that mapping zero
    bytes fails as POSIX prescribes.  The result is the null pointer
    ([None]) when loading fails. *)
Definition editor_load (o : list bool) (file : option (list ascii))
  : option state :=
  match alloc_ok (empty_state o) with
  | Ok true s =>
    let s := set_piece_count 2%nat
      (set_hp_piece
         (<[end_ := mkPiece (Some begin_) None None 0]>
            (<[begin_ := mkPiece None (Some end_) None 0]> ∅)) s) in
    match file with
    | None => Some s
    | Some bytes =>
      if bool_decide (bytes = []) then None else
      let n := Z.of_nat (length bytes) in
      let s := set_hp_buffer (<[file_buf := mkBuffer n 0 bytes None]> ∅) s in
      let load : M bool :=
        let! p := piece_alloc in
        match p with
        | None => ret false
        | Some _ =>
          let! _ := piece_init (Some begin_) None p None 0 in
          let! _ := piece_init p (Some begin_) (Some end_)
                      (Some (CPtr file_buf 0)) n in
          let! _ := piece_init (Some end_) p None None 0 in
          let! _ := modify (set_size n) in
          ret true
        end in
      match load s with
      | Ok true s' => Some s'
      | _ => None
      end
    end
  | _ => None
  end.

(** ** Saving *)

Definition set_saved_action (v : ptr) (s : state) : state :=
  mkState (hp_piece s) (hp_change s) (hp_action s) (hp_buffer s) (brk s)
    (oracle s) (buffers s) (cache s) (piece_count s) (redo s) (undo s)
    (current_action s) v (size s).

(** The outcomes of the system calls of editor_save, in the order it
    makes them ([true]: the call succeeds). *)
Record save_io := mkSaveIo {
  open_ok : bool;
  ftruncate_ok : bool;
  mmap_ok : bool;
  munmap_ok : bool;
  close_ok : bool;
  rename_ok : bool
}.

(** save current content to given filename.  The temporary file is
    truncated to [size] bytes and mapped; copy_content then writes the
    document into the mapping, and writing past its end is undefined.
    The result is the value the function returns. *)
Definition editor_save (io : save_io) : M Z :=
  if negb (open_ok io) then ret (-1) else
  if negb (ftruncate_ok io) then ret (-1) else
  let! sz := gets size in
  let! mapped :=
    if sz >? 0 then
      if negb (mmap_ok io) then ret false else
      let! bytes := editor_iterate [] 0 copy_content in
      if Z.of_nat (length bytes) >? sz then crash else
      ret (munmap_ok io)
    else ret true in
  if negb mapped then ret (-1) else
  if negb (close_ok io) then ret (-1) else
  if negb (rename_ok io) then ret (-1) else
  let! _ := modify (λ s, set_saved_action (undo s) s) in
  let! _ := editor_snapshot in
  (* falls through to the error exit *)
  ret (-1).

(** ** Iterators *)

Record Iterator := mkIterator {
  it_piece : ptr;
  it_text : option cptr;
  it_len : Z
}.

Definition editor_iterator_get (pos : Z) : M Iterator :=
  let! loc := piece_get pos in
  let! p :=
    if bool_decide (piece loc = Some begin_) then
      let! P := load_piece (piece loc) in ret (p_next P)
    else ret (piece loc) in
  match p with
  | None => ret (mkIterator None None 0)
  | Some _ =>
    let! P := load_piece p in
    ret (mkIterator p (cptr_add (p_content P) (off loc))
           (subw (p_len P) (off loc)))
  end.

Definition editor_iterator_next (it : Iterator) : M Iterator :=
  let! p := match it_piece it with
            | None => ret None
            | Some _ => let! P := load_piece (it_piece it) in ret (p_next P)
            end in
  match p with
  | None => ret (mkIterator None None 0)
  | Some _ =>
    let! P := load_piece p in
    ret (mkIterator p (p_content P) (p_len P))
  end.

Definition editor_iterator_prev (it : Iterator) : M Iterator :=
  let! p := match it_piece it with
            | None => ret None
            | Some _ => let! P := load_piece (it_piece it) in ret (p_prev P)
            end in
  match p with
  | None => ret (mkIterator None None 0)
  | Some _ =>
    let! P := load_piece p in
    ret (mkIterator p (p_content P) (p_len P))
  end.

(** filter out sentinel nodes: the [editor] field of a piece is null for
    the two sentinels, which lie inside the zeroed Editor struct, and
    is set by piece_alloc for every other piece. *)
Definition editor_iterator_valid (it : Iterator) : M bool :=
  match it_piece it with
  | None => ret false
  | Some a =>
    let! _ := load_piece (it_piece it) in
    ret (bool_decide (a ≠ begin_ ∧ a ≠ end_))
  end.

(** ** Sequences of operations *)

Inductive op :=
| Insert (pos : Z) (text : string)
| Delete (pos len : Z)
| Replace (pos : Z) (text : string)
| Undo
| Redo
| Snapshot.

Definition run_op (o : op) : M bool :=
  match o with
  | Insert pos text => editor_insert pos (list_ascii_of_string text)
  | Delete pos len => editor_delete pos len
  | Replace pos text => editor_replace pos (list_ascii_of_string text)
  | Undo => editor_undo
  | Redo => editor_redo
  | Snapshot => let! _ := editor_snapshot in ret true
  end.

(** Run the operations in order; the result lists what each returned. *)
Fixpoint run (ops : list op) : M (list bool) :=
  match ops with
  | [] => ret []
  | o :: ops =>
    let! b := run_op o in
    let! bs := run ops in
    ret (b :: bs)
  end.

(** A file loaded, or the empty document, with every allocation
    succeeding, followed by the given operations. *)
Definition session (file : option string) (ops : list op) : outcome (list bool) :=
  match editor_load [] (list_ascii_of_string <$> file) with
  | Some s => run ops s
  | None => Crash
  end.

(** The document of the state an outcome ends in. *)
Definition document {A} (r : outcome A) : option string :=
  match r with
  | Ok _ s =>
    match editor_content s with
    | Ok bytes _ => Some (string_of_list_ascii bytes)
    | _ => None
    end
  | _ => None
  end.

Definition final {A} (r : outcome A) : option state :=
  match r with Ok _ s => Some s | _ => None end.

Definition returned {A} (r : outcome A) : option A :=
  match r with Ok a _ => Some a | _ => None end.

(** The sum of piece.length over the pieces of the next chain from begin
    up to the end sentinel. *)
Fixpoint chain_length_loop (n : nat) (p : ptr) (acc : Z) : M Z :=
  match n with
  | O => diverge
  | S n =>
    match p with
    | None => ret acc
    | Some _ =>
      let! P := load_piece p in
      chain_length_loop n (p_next P) (acc + p_len P)
    end
  end.

Definition chain_length : M Z :=
  let! fuel := gets (λ s, S (base.size (hp_piece s))) in
  chain_length_loop fuel (Some begin_) 0.

(** ** Frames *)

(** Every returning run of [m] relates the state before to the state
    after. *)
Definition preserves (R : relation state) {A} (m : M A) : Prop :=
  ∀ s a s', m s = Ok a s' → R s s'.

(** Reading operations leave the state as it is. *)
Definition read_only {A} (m : M A) : Prop := preserves eq m.

(** What undo and redo may change: the links of pieces, the size, the
    two stacks (their tops and the [next] link of actions). *)
Definition undo_redo_frame (s s' : state) : Prop :=
  current_action s' = current_action s
  ∧ cache s' = cache s
  ∧ saved_action s' = saved_action s
  ∧ buffers s' = buffers s
  ∧ hp_buffer s' = hp_buffer s
  ∧ hp_change s' = hp_change s
  ∧ piece_count s' = piece_count s
  ∧ brk s' = brk s
  ∧ oracle s' = oracle s
  ∧ (∀ i, (λ P, (p_content P, p_len P)) <$> hp_piece s' !! i
          = (λ P, (p_content P, p_len P)) <$> hp_piece s !! i)
  ∧ (∀ i, a_change <$> hp_action s' !! i = a_change <$> hp_action s !! i).

(** What the parts of an edit other than change_alloc leave alone: the
    two stacks, the actions, the list structure of the changes, and the
    addresses of freed pieces (piece_alloc numbers its pieces upwards
    from piece_count). *)
Definition edit_frame (s s' : state) : Prop :=
  undo s' = undo s
  ∧ redo s' = redo s
  ∧ current_action s' = current_action s
  ∧ saved_action s' = saved_action s
  ∧ hp_action s' = hp_action s
  ∧ (∀ i, c_next <$> hp_change s' !! i = c_next <$> hp_change s !! i)
  ∧ (piece_count s ≤ piece_count s')%nat
  ∧ (∀ i, (i ≤ piece_count s)%nat →
          hp_piece s !! i = None → hp_piece s' !! i = None).

(** The edit allocated no Change: the actions are as they were and so is
    the list structure of the changes. *)
Definition no_change_allocated (s s' : state) : Prop :=
  hp_action s' = hp_action s
  ∧ ∀ i, c_next <$> hp_change s' !! i = c_next <$> hp_change s !! i.

(** The edit allocated a Change (at the allocator's next address) and
    put it in front of the changes of action [a]; no other action is
    touched and the changes that were there keep their links. *)
Definition receives_change (a : addr) (s s' : state) : Prop :=
  ∃ A C,
    hp_action s !! a = Some A
    ∧ hp_action s' = <[a := set_a_change (Some (brk s)) A]> (hp_action s)
    ∧ hp_change s' !! brk s = Some C
    ∧ c_next C = a_change A
    ∧ ∀ i, i ≠ brk s →
        c_next <$> hp_change s' !! i = c_next <$> hp_change s !! i.

(** Does the cache take the insert, so that editor_insert returns
    before change_alloc? *)
Definition insert_absorbed (pos : Z) (text : list ascii) (s : state) : bool :=
  match piece_get pos s with
  | Ok loc _ =>
    match cache_insert (piece loc) (off loc) text (Z.of_nat (strlen text)) s with
    | Ok true _ => true
    | _ => false
    end
  | _ => false
  end.

(** Does the cache take the delete? *)
Definition delete_absorbed (pos len : Z) (s : state) : bool :=
  match piece_get pos s with
  | Ok loc _ =>
    match cache_delete (piece loc) (off loc) len s with
    | Ok true _ => true
    | _ => false
    end
  | _ => false
  end.

(** One insert or delete that returned true. *)
Definition edited (s s' : state) : Prop :=
  (∃ pos text, editor_insert pos text s = Ok true s')
  ∨ (∃ pos len, editor_delete pos len s = Ok true s').

(** ** The chain of pieces *)

(** [chain h p l e]: following [next] from [p] visits the pieces [l], in
    this order, and then [e], the first piece whose [next] is null. *)
Fixpoint chain (h : gmap addr Piece) (p : ptr) (l : list addr) (e : addr)
  : Prop :=
  match l with
  | [] => p = Some e ∧ ∃ P, h !! e = Some P ∧ p_next P = None
  | a :: l =>
    p = Some a
    ∧ ∃ P, h !! a = Some P ∧ is_Some (p_next P) ∧ chain h (p_next P) l e
  end.

Definition len_of (h : gmap addr Piece) (a : addr) : Z :=
  match h !! a with
  | Some P => p_len P
  | None => 0
  end.

Definition total_len (h : gmap addr Piece) (l : list addr) : Z :=
  foldr (λ a n, len_of h a + n) 0 l.

(** The pieces from the begin sentinel on are [l] (the sentinel itself
    at least, its [next] not being null), the size field is the sum of
    their lengths (the C2 invariant) and fits size_t. *)
Definition consistent (s : state) (l : list addr) (e : addr) : Prop :=
  chain (hp_piece s) (Some begin_) l e
  ∧ l ≠ []
  ∧ Forall (λ a, 0 ≤ len_of (hp_piece s) a) l
  ∧ size s = total_len (hp_piece s) l
  ∧ size s < SIZE_MOD.

(** ** Stacks of actions and freed objects *)

(** [astack h top l]: the stack with top [top] holds the actions [l],
    linked through [next]. *)
Fixpoint astack (h : gmap addr Action) (top : ptr) (l : list addr) : Prop :=
  match l with
  | [] => top = None
  | a :: l => top = Some a ∧ ∃ A, h !! a = Some A ∧ astack h (a_next A) l
  end.

(** [clist h c l]: the changes [l] of an action, newest first. *)
Fixpoint clist (h : gmap addr Change) (c : ptr) (l : list addr) : Prop :=
  match l with
  | [] => c = None
  | i :: l => c = Some i ∧ ∃ C, h !! i = Some C ∧ clist h (c_next C) l
  end.

(** Change [c] of state [s0] is freed in [s'], and so are the pieces
    new.start and new.end it points to. *)
Definition change_freed (s0 s' : state) (c : addr) : Prop :=
  hp_change s' !! c = None
  ∧ ∃ C, hp_change s0 !! c = Some C
      ∧ ∀ p, s_start (c_new C) = Some p ∨ s_end (c_new C) = Some p →
             is_Some (hp_piece s0 !! p) ∧ hp_piece s' !! p = None.

(** Action [a] of state [s0] is freed in [s'] with all its changes. *)
Definition action_freed (s0 s' : state) (a : addr) : Prop :=
  hp_action s' !! a = None
  ∧ ∃ A cs, hp_action s0 !! a = Some A
      ∧ clist (hp_change s0) (a_change A) cs
      ∧ Forall (change_freed s0 s') cs.

(** The allocator has handed out every address in use: pieces are
    numbered up to piece_count, the other objects lie below [brk]. *)
Definition heap_fresh (s : state) : Prop :=
  (∀ i, is_Some (hp_piece s !! i) → (i ≤ piece_count s)%nat)
  ∧ (∀ i, is_Some (hp_change s !! i) → (i < brk s)%nat)
  ∧ (∀ i, is_Some (hp_action s !! i) → (i < brk s)%nat).

(** What freeing may do: objects disappear, none appears or changes. *)
Definition shrink (s s' : state) : Prop :=
  hp_action s' ⊆ hp_action s
  ∧ hp_change s' ⊆ hp_change s
  ∧ hp_piece s' ⊆ hp_piece s
  ∧ piece_count s' = piece_count s
  ∧ brk s' = brk s
  ∧ undo s' = undo s
  ∧ current_action s' = current_action s.

(** The head buffer, if there is one, is allocated and the model holds
    exactly the bytes stored in it so far. *)
Definition head_buffer_ok (s : state) : Prop :=
  ∀ b, buffers s = Some b →
       ∃ B, hp_buffer s !! b = Some B
            ∧ Z.of_nat (length (b_content B)) = b_pos B.

(** ** Fields an operation leaves alone *)

(** [keeps f]: the component [f] of the state is after the call what it
    was before. *)
Definition keeps {A} (f : state → A) : relation state :=
  λ s s', f s' = f s.

(** The two stacks of actions: their tops and the actions they link. *)
Definition stacks (s : state) : gmap addr Action * ptr * ptr :=
  (hp_action s, undo s, redo s).

(** ** Pre- and postconditions *)

(** Every returning run of [m] from a state in [P] ends with a result
    and a state in [Q]. *)
Definition hoare {A} (P : state → Prop) (m : M A) (Q : A → state → Prop)
  : Prop :=
  ∀ s a s', P s → m s = Ok a s' → Q a s'.

(** No allocation failure is pending: every coming call of malloc and
    calloc succeeds. *)
Definition allocations_succeed (s : state) : Prop := oracle s = [].

(** ** The bytes of the document *)

(** Piece [a] stands for the bytes [bs]: as many as its length says,
    read from its content pointer, which lies inside an allocated
    buffer unless there is no byte to read. *)
Definition piece_bytes (s : state) (a : addr) (bs : list ascii) : Prop :=
  ∃ P, hp_piece s !! a = Some P
    ∧ Z.of_nat (length bs) = p_len P
    ∧ (bs = []
       ∨ ∃ c B, p_content P = Some c ∧ 0 ≤ ofs c
           ∧ hp_buffer s !! blk c = Some B
           ∧ bs = take (Z.to_nat (p_len P))
                    (drop (Z.to_nat (ofs c)) (b_content B))).

(** [segment h p l e]: following [next] from [p] visits the pieces [l],
    whose last one is [e], met there for the first time. *)
Fixpoint segment (h : gmap addr Piece) (p : ptr) (l : list addr) (e : addr)
  : Prop :=
  match l with
  | [] => False
  | a :: l =>
    p = Some a
    ∧ ∃ P, h !! a = Some P
        ∧ if decide (a = e) then l = [] else segment h (p_next P) l e
  end.

(** The iterator over the whole of piece [a]. *)
Definition whole_piece (s : state) (a : addr) : Iterator :=
  match hp_piece s !! a with
  | Some P => mkIterator (Some a) (p_content P) (p_len P)
  | None => mkIterator None None 0
  end.

(** Buffers other than the mapped file lie below [brk]. *)
Definition buffers_fresh (s : state) : Prop :=
  ∀ i, is_Some (hp_buffer s !! i) → (i < brk s)%nat.

(** The editor editor_load returns for a file with the bytes [bytes]:
    the two sentinels around one piece that spans the mapped bytes;
    [o] lists the allocation outcomes still to come. *)
Definition loaded (o : list bool) (bytes : list ascii) : state :=
  mkState
    (<[3%nat := mkPiece (Some begin_) (Some end_) (Some (CPtr file_buf 0))
                  (Z.of_nat (length bytes))]>
       (<[end_ := mkPiece (Some 3%nat) None None 0]>
          (<[begin_ := mkPiece None (Some 3%nat) None 0]> ∅)))
    ∅ ∅
    (<[file_buf := mkBuffer (Z.of_nat (length bytes)) 0 bytes None]> ∅)
    1%nat o None None 3%nat None None None None (Z.of_nat (length bytes)).

(** Do the system calls editor_save makes for a document of [sz] bytes
    all succeed?  An empty document is not mapped. *)
Definition calls_succeed (io : save_io) (sz : Z) : bool :=
  open_ok io && ftruncate_ok io
  && (negb (sz >? 0) || (mmap_ok io && munmap_ok io))
  && close_ok io && rename_ok io.

(** ** Well-formed editors *)

(** The [len] bytes at [content] are [bs]. *)
Definition bytes_at (s : state) (content : option cptr) (len : Z)
    (bs : list ascii) : Prop :=
  Z.of_nat (length bs) = len
  ∧ (bs = []
     ∨ ∃ c B, content = Some c ∧ 0 ≤ ofs c
         ∧ hp_buffer s !! blk c = Some B
         ∧ bs = take (Z.to_nat len) (drop (Z.to_nat (ofs c)) (b_content B))).

(** [lseg h p l p']: following [next] from [p] visits the pieces [l] and
    arrives at [p']. *)
Fixpoint lseg (h : gmap addr Piece) (p : ptr) (l : list addr) (p' : ptr)
  : Prop :=
  match l with
  | [] => p = p'
  | a :: l => p = Some a ∧ ∃ P, h !! a = Some P ∧ lseg h (p_next P) l p'
  end.

(** [linked_back h p l]: the [prev] of the first piece of [l] is [p] and
    the [prev] of every other piece of [l] is the piece before it. *)
Fixpoint linked_back (h : gmap addr Piece) (p : ptr) (l : list addr) : Prop :=
  match l with
  | [] => True
  | a :: l =>
    (∃ A, h !! a = Some A ∧ p_prev A = p) ∧ linked_back h (Some a) l
  end.

(** The last of [l], or [p] when [l] is empty. *)
Definition last_or (p : ptr) (l : list addr) : ptr :=
  match last l with Some a => Some a | None => p end.

(** The head buffer holds exactly the bytes stored in it, within its
    capacity. *)
Definition head_buffer_sound (s : state) : Prop :=
  ∀ b, buffers s = Some b →
       ∃ B, hp_buffer s !! b = Some B
            ∧ Z.of_nat (length (b_content B)) = b_pos B
            ∧ b_pos B ≤ b_size B < SIZE_MOD.

(** An editor in good shape: the chain [l] from the begin sentinel (of
    length 0) to [e] carries the bytes [bss], the size is their number,
    the pieces are linked in both directions, and the allocator knows
    every object in use. *)
Definition well_formed (s : state) (l : list addr) (e : addr)
    (bss : list (list ascii)) : Prop :=
  consistent s l e
  ∧ Forall2 (piece_bytes s) (l ++ [e]) bss
  ∧ len_of (hp_piece s) begin_ = 0
  ∧ linked_back (hp_piece s) None (l ++ [e])
  ∧ (∀ i, is_Some (hp_piece s !! i) → (i ≤ piece_count s)%nat)
  ∧ head_buffer_sound s
  ∧ buffers_fresh s.


(** * Reasoning about operations *)

(** ** Inversion of the monad *)

Lemma bind_inv {A B} (m : M A) (k : A → M B) s b s' :
  bind m k s = Ok b s' → ∃ a s1, m s = Ok a s1 ∧ k a s1 = Ok b s'.
Proof. unfold bind. destruct (m s) as [a s1| |]; [eauto|done|done]. Qed.

Lemma bind_Ok {A B} (m : M A) (k : A → M B) s a s1 :
  m s = Ok a s1 → bind m k s = k a s1.
Proof. unfold bind. by intros ->. Qed.

Lemma ret_inv {A} (a b : A) s s' : ret a s = Ok b s' → b = a ∧ s' = s.
Proof. unfold ret. by intros [= -> ->]. Qed.

Lemma gets_inv {A} (f : state → A) s a s' :
  gets f s = Ok a s' → a = f s ∧ s' = s.
Proof. unfold gets. by intros [= <- <-]. Qed.

Lemma modify_inv f s u s' : modify f s = Ok u s' → s' = f s.
Proof. unfold modify. by intros [= <-]. Qed.

Lemma load_piece_inv p s P s' :
  load_piece p s = Ok P s' → s' = s ∧ ∃ i, p = Some i ∧ hp_piece s !! i = Some P.
Proof.
  unfold load_piece. destruct p as [i|]; [|done].
  destruct (hp_piece s !! i) eqn:E; [|done]. intros [= <- <-]. eauto.
Qed.

Lemma load_change_inv c s C s' :
  load_change c s = Ok C s' → s' = s ∧ ∃ i, c = Some i ∧ hp_change s !! i = Some C.
Proof.
  unfold load_change. destruct c as [i|]; [|done].
  destruct (hp_change s !! i) eqn:E; [|done]. intros [= <- <-]. eauto.
Qed.

Lemma load_action_inv a s A s' :
  load_action a s = Ok A s' → s' = s ∧ ∃ i, a = Some i ∧ hp_action s !! i = Some A.
Proof.
  unfold load_action. destruct a as [i|]; [|done].
  destruct (hp_action s !! i) eqn:E; [|done]. intros [= <- <-]. eauto.
Qed.

Lemma load_buffer_inv b s B s' :
  load_buffer b s = Ok B s' → s' = s ∧ ∃ i, b = Some i ∧ hp_buffer s !! i = Some B.
Proof.
  unfold load_buffer. destruct b as [i|]; [|done].
  destruct (hp_buffer s !! i) eqn:E; [|done]. intros [= <- <-]. eauto.
Qed.

Lemma store_piece_inv p f s u s' :
  store_piece p f s = Ok u s' →
  ∃ i P, p = Some i ∧ hp_piece s !! i = Some P
         ∧ s' = set_hp_piece (<[i := f P]> (hp_piece s)) s.
Proof.
  unfold store_piece. intros (P & s1 & H1 & H)%bind_inv.
  apply load_piece_inv in H1 as (-> & i & -> & Hi).
  apply modify_inv in H. eauto.
Qed.

Lemma store_change_inv c f s u s' :
  store_change c f s = Ok u s' →
  ∃ i C, c = Some i ∧ hp_change s !! i = Some C
         ∧ s' = set_hp_change (<[i := f C]> (hp_change s)) s.
Proof.
  unfold store_change. intros (C & s1 & H1 & H)%bind_inv.
  apply load_change_inv in H1 as (-> & i & -> & Hi).
  apply modify_inv in H. eauto.
Qed.

Lemma store_action_inv a f s u s' :
  store_action a f s = Ok u s' →
  ∃ i A, a = Some i ∧ hp_action s !! i = Some A
         ∧ s' = set_hp_action (<[i := f A]> (hp_action s)) s.
Proof.
  unfold store_action. intros (A & s1 & H1 & H)%bind_inv.
  apply load_action_inv in H1 as (-> & i & -> & Hi).
  apply modify_inv in H. eauto.
Qed.

Lemma store_buffer_inv b f s u s' :
  store_buffer b f s = Ok u s' →
  ∃ i B, b = Some i ∧ hp_buffer s !! i = Some B
         ∧ s' = set_hp_buffer (<[i := f B]> (hp_buffer s)) s.
Proof.
  unfold store_buffer. intros (B & s1 & H1 & H)%bind_inv.
  apply load_buffer_inv in H1 as (-> & i & -> & Hi).
  apply modify_inv in H. eauto.
Qed.

(** ** Relations preserved by an operation *)

Section preserves.
Context (R : relation state) `{!PreOrder R}.

Lemma preserves_bind {A B} (m : M A) (k : A → M B) :
    preserves R m → (∀ a, preserves R (k a)) → preserves R (bind m k).
Proof.
    intros Hm Hk s b s' (a & s1 & H1 & H2)%bind_inv.
    trans s1; [by eapply Hm | by eapply Hk].
Qed.

Lemma preserves_ret {A} (a : A) : preserves R (ret a).
Proof. by intros s b s' [_ ->]%ret_inv. Qed.

Lemma preserves_crash {A} : preserves R (@crash A).
Proof. by intros s b s'. Qed.

Lemma preserves_diverge {A} : preserves R (@diverge A).
Proof. by intros s b s'. Qed.

Lemma preserves_gets {A} (f : state → A) : preserves R (gets f).
Proof. by intros s b s' [_ ->]%gets_inv. Qed.

Lemma preserves_load_piece p : preserves R (load_piece p).
Proof. by intros s b s' [-> _]%load_piece_inv. Qed.

Lemma preserves_load_change p : preserves R (load_change p).
Proof. by intros s b s' [-> _]%load_change_inv. Qed.

Lemma preserves_load_action p : preserves R (load_action p).
Proof. by intros s b s' [-> _]%load_action_inv. Qed.

Lemma preserves_load_buffer p : preserves R (load_buffer p).
Proof. by intros s b s' [-> _]%load_buffer_inv. Qed.

Lemma preserves_modify f : (∀ s, R s (f s)) → preserves R (modify f).
Proof. by intros Hf s b s' ->%modify_inv. Qed.
End preserves.

(** Walk the structure of an operation, leaving its state updates. *)
Ltac pres_step :=
  lazymatch goal with
  | |- preserves _ (bind _ _) => apply preserves_bind; [tc_solve| |intros ?]
  | |- preserves _ (ret _) => apply preserves_ret; tc_solve
  | |- preserves _ crash => apply preserves_crash
  | |- preserves _ diverge => apply preserves_diverge
  | |- preserves _ (gets _) => apply preserves_gets; tc_solve
  | |- preserves _ (load_piece _) => apply preserves_load_piece; tc_solve
  | |- preserves _ (load_change _) => apply preserves_load_change; tc_solve
  | |- preserves _ (load_action _) => apply preserves_load_action; tc_solve
  | |- preserves _ (load_buffer _) => apply preserves_load_buffer; tc_solve
  | |- preserves _ (if ?b then _ else _) => destruct b
  | |- preserves _ (match ?x with _ => _ end) => destruct x
  end.

(** ** The frame of undo and redo *)

#[local] Instance undo_redo_frame_preorder : PreOrder undo_redo_frame.
Proof.
  split.
  - intros s. by repeat split.
  - intros s1 s2 s3 H1 H2. unfold undo_redo_frame in *.
    destruct H1 as (?&?&?&?&?&?&?&?&?&Hp1&Ha1).
    destruct H2 as (?&?&?&?&?&?&?&?&?&Hp2&Ha2).
    repeat split; congruence.
Qed.

Lemma undo_redo_frame_link p f :
  (∀ P, p_content (f P) = p_content P ∧ p_len (f P) = p_len P) →
  preserves undo_redo_frame (store_piece p f).
Proof.
  intros Hf s u s' (i & P & -> & Hi & ->)%store_piece_inv.
  repeat split; try done. intros j. cbn.
  destruct (decide (i = j)) as [<-|Hne].
  - rewrite lookup_insert_eq, Hi. cbn. by destruct (Hf P) as [-> ->].
  - by rewrite lookup_insert_ne.
Qed.

Lemma undo_redo_frame_set_size f :
  preserves undo_redo_frame (modify (λ s, set_size (f s) s)).
Proof. apply preserves_modify. intros s. by repeat split. Qed.

Lemma undo_redo_frame_span_swap old new :
  preserves undo_redo_frame (span_swap old new).
Proof.
  unfold span_swap.
  repeat first
    [ pres_step
    | by apply undo_redo_frame_link
    | by apply undo_redo_frame_set_size ].
Qed.

Lemma undo_redo_frame_action_pop st :
  preserves undo_redo_frame (action_pop st).
Proof.
  unfold action_pop. repeat pres_step.
  apply preserves_modify. intros s. by destruct st; repeat split.
Qed.

Lemma undo_redo_frame_action_push st a :
  preserves undo_redo_frame (action_push st a).
Proof.
  unfold action_push. repeat pres_step.
  - intros s u s' (i & A & -> & Hi & ->)%store_action_inv.
    repeat split; try done. intros j. cbn.
    destruct (decide (i = j)) as [<-|Hne].
    + by rewrite lookup_insert_eq, Hi.
    + by rewrite lookup_insert_ne.
  - apply preserves_modify. intros s. by destruct st; repeat split.
Qed.

Lemma undo_redo_frame_undo_loop n c :
  preserves undo_redo_frame (undo_loop n c).
Proof.
  revert c. induction n as [|n IH]; intros c; cbn; repeat pres_step; auto.
  apply undo_redo_frame_span_swap.
Qed.

Lemma undo_redo_frame_redo_loop n c :
  preserves undo_redo_frame (redo_loop n c).
Proof.
  revert c. induction n as [|n IH]; intros c; cbn; repeat pres_step; auto.
  apply undo_redo_frame_span_swap.
Qed.

Lemma undo_redo_frame_undo : preserves undo_redo_frame editor_undo.
Proof.
  unfold editor_undo.
  repeat first
    [ pres_step
    | apply undo_redo_frame_action_pop
    | apply undo_redo_frame_action_push
    | apply undo_redo_frame_undo_loop ].
Qed.

Lemma undo_redo_frame_redo : preserves undo_redo_frame editor_redo.
Proof.
  unfold editor_redo.
  repeat first
    [ pres_step
    | apply undo_redo_frame_action_pop
    | apply undo_redo_frame_action_push
    | apply undo_redo_frame_redo_loop ].
Qed.

(** ** The frame of the parts of an edit *)

#[local] Instance edit_frame_preorder : PreOrder edit_frame.
Proof.
  split.
  - intros s. by repeat split.
  - intros s1 s2 s3 (?&?&?&?&?&Hc1&?&Hp1) (?&?&?&?&?&Hc2&?&Hp2).
    split_and!; try congruence; [lia|].
    intros i Hi Hn. apply Hp2; [lia|]. by apply Hp1.
Qed.

Lemma alloc_ok_inv s b s' :
  alloc_ok s = Ok b s' → ∃ o, s' = set_oracle o s.
Proof.
  unfold alloc_ok. destruct (oracle s) as [|b' o] eqn:E.
  - intros [= <- <-]. exists []. destruct s; cbn in *; by subst.
  - intros [= <- <-]. eauto.
Qed.

Ltac edit_frame_modify :=
  apply preserves_modify; intros ?; unfold edit_frame; cbn;
  repeat split; auto with lia.

Lemma edit_frame_alloc_ok : preserves edit_frame alloc_ok.
Proof. intros s b s' [o ->]%alloc_ok_inv. by repeat split. Qed.

Lemma edit_frame_fresh : preserves edit_frame fresh.
Proof. intros s b s' [= <- <-]. by repeat split. Qed.

Lemma edit_frame_store_piece p f : preserves edit_frame (store_piece p f).
Proof.
  intros s u s' (i & P & -> & Hi & ->)%store_piece_inv.
  repeat split; try done. cbn. intros j _ Hj.
  rewrite lookup_insert_ne; [done|]. intros ->. congruence.
Qed.

Lemma edit_frame_store_change c f :
  (∀ C, c_next (f C) = c_next C) →
  preserves edit_frame (store_change c f).
Proof.
  intros Hf s u s' (i & C & -> & Hi & ->)%store_change_inv.
  repeat split; try done. cbn. intros j.
  destruct (decide (i = j)) as [<-|Hne].
  - rewrite lookup_insert_eq, Hi. cbn. by rewrite Hf.
  - by rewrite lookup_insert_ne.
Qed.

Lemma edit_frame_store_buffer b f : preserves edit_frame (store_buffer b f).
Proof.
  intros s u s' (i & B & -> & Hi & ->)%store_buffer_inv. by repeat split.
Qed.

Lemma edit_frame_buffer_alloc sz : preserves edit_frame (buffer_alloc sz).
Proof.
  unfold buffer_alloc.
  repeat first
    [ pres_step | apply edit_frame_alloc_ok | apply edit_frame_fresh
    | edit_frame_modify ].
Qed.

Lemma edit_frame_buffer_append buf content len :
  preserves edit_frame (buffer_append buf content len).
Proof.
  unfold buffer_append. repeat first [pres_step | apply edit_frame_store_buffer].
Qed.

Lemma edit_frame_buffer_store content len :
  preserves edit_frame (buffer_store content len).
Proof.
  unfold buffer_store.
  repeat first
    [ pres_step | apply edit_frame_buffer_alloc
    | apply edit_frame_buffer_append ].
Qed.

Lemma edit_frame_buffer_insert buf pos content len :
  preserves edit_frame (buffer_insert buf pos content len).
Proof.
  unfold buffer_insert.
  repeat first
    [ pres_step | apply edit_frame_buffer_append
    | apply edit_frame_store_buffer ].
Qed.

Lemma edit_frame_buffer_delete buf pos len :
  preserves edit_frame (buffer_delete buf pos len).
Proof.
  unfold buffer_delete. repeat first [pres_step | apply edit_frame_store_buffer].
Qed.

Lemma edit_frame_cache_piece p : preserves edit_frame (cache_piece p).
Proof. unfold cache_piece. repeat first [pres_step | edit_frame_modify]. Qed.

Lemma edit_frame_cache_contains_loop n cur p e :
  preserves edit_frame (cache_contains_loop n cur p e).
Proof.
  revert cur. induction n as [|n IH]; intros cur; cbn; repeat pres_step; auto.
Qed.

Lemma edit_frame_cache_contains p : preserves edit_frame (cache_contains p).
Proof.
  unfold cache_contains.
  repeat first [pres_step | apply edit_frame_cache_contains_loop].
Qed.

Lemma edit_frame_grow_new_len d : preserves edit_frame (grow_new_len d).
Proof.
  unfold grow_new_len.
  repeat first [pres_step | by apply edit_frame_store_change].
Qed.

Lemma edit_frame_cache_insert p off text len :
  preserves edit_frame (cache_insert p off text len).
Proof.
  unfold cache_insert.
  repeat first
    [ pres_step | apply edit_frame_cache_contains
    | apply edit_frame_buffer_insert | apply edit_frame_store_piece
    | apply edit_frame_grow_new_len | edit_frame_modify ].
Qed.

Lemma edit_frame_cache_delete p off len :
  preserves edit_frame (cache_delete p off len).
Proof.
  unfold cache_delete.
  repeat first
    [ pres_step | apply edit_frame_cache_contains
    | apply edit_frame_buffer_delete | apply edit_frame_store_piece
    | apply edit_frame_grow_new_len | edit_frame_modify ].
Qed.

Lemma edit_frame_span_init_loop n p e len :
  preserves edit_frame (span_init_loop n p e len).
Proof.
  revert p len. induction n as [|n IH]; intros p len; cbn;
    repeat pres_step; auto.
Qed.

Lemma edit_frame_span_init start e : preserves edit_frame (span_init start e).
Proof.
  unfold span_init. repeat first [pres_step | apply edit_frame_span_init_loop].
Qed.

Lemma edit_frame_span_swap old new : preserves edit_frame (span_swap old new).
Proof.
  unfold span_swap.
  repeat first [pres_step | apply edit_frame_store_piece | edit_frame_modify].
Qed.

Lemma edit_frame_piece_alloc : preserves edit_frame piece_alloc.
Proof.
  unfold piece_alloc.
  apply preserves_bind; [tc_solve|apply edit_frame_alloc_ok|intros ok].
  destruct ok; cbn; [|pres_step].
  intros s p s' (u & s1 & ->%modify_inv & H)%bind_inv.
  apply bind_inv in H as (i & s2 & [-> ->]%gets_inv & H).
  apply bind_inv in H as (u' & s3 & ->%modify_inv & [-> ->]%ret_inv).
  unfold edit_frame; cbn. repeat split; auto with lia.
  intros j Hj Hn. rewrite lookup_insert_ne; [done|lia].
Qed.

Lemma edit_frame_piece_init p prev next content len :
  preserves edit_frame (piece_init p prev next content len).
Proof. apply edit_frame_store_piece. Qed.

Lemma edit_frame_piece_get_loop n p cur pos :
  preserves edit_frame (piece_get_loop n p cur pos).
Proof.
  revert p cur. induction n as [|n IH]; intros p cur; cbn;
    repeat pres_step; auto.
Qed.

Lemma edit_frame_piece_get pos : preserves edit_frame (piece_get pos).
Proof.
  unfold piece_get. repeat first [pres_step | apply edit_frame_piece_get_loop].
Qed.

Lemma edit_frame_delete_skip_loop n p cur len :
  preserves edit_frame (delete_skip_loop n p cur len).
Proof.
  revert p cur. induction n as [|n IH]; intros p cur; cbn;
    repeat pres_step; auto.
Qed.

(** One step of the walk over an edit, for the goals left by inversion. *)
Ltac edit_frame_step :=
  first
    [ pres_step
    | apply edit_frame_piece_get
    | apply edit_frame_cache_insert
    | apply edit_frame_cache_delete
    | apply edit_frame_buffer_store
    | apply edit_frame_piece_alloc
    | apply edit_frame_piece_init
    | apply edit_frame_span_init
    | apply edit_frame_span_swap
    | apply edit_frame_cache_piece
    | apply edit_frame_delete_skip_loop
    | by apply edit_frame_store_change ].

(** ** The steps of an edit *)

Lemma read_only_cache_contains_loop n cur p e :
  read_only (cache_contains_loop n cur p e).
Proof.
  unfold read_only. revert cur.
  induction n as [|n IH]; intros cur; cbn; repeat pres_step; auto.
Qed.

Lemma read_only_cache_contains p : read_only (cache_contains p).
Proof.
  unfold read_only, cache_contains.
  repeat first [pres_step | apply read_only_cache_contains_loop].
Qed.

Lemma read_only_piece_get_loop n p cur pos :
  read_only (piece_get_loop n p cur pos).
Proof.
  unfold read_only. revert p cur.
  induction n as [|n IH]; intros p cur; cbn; repeat pres_step; auto.
Qed.

Lemma read_only_piece_get pos : read_only (piece_get pos).
Proof.
  unfold read_only, piece_get.
  repeat first [pres_step | apply read_only_piece_get_loop].
Qed.

Lemma cache_contains_no_action p s :
  current_action s = None → cache_contains p s = Ok false s.
Proof.
  intros Ha. unfold cache_contains, bind, gets. rewrite Ha.
  by destruct (buffers s), (cache s).
Qed.

Lemma buffer_append_inv buf content len s d s' :
  buffer_append buf content len s = Ok d s' → d ≠ None.
Proof.
  unfold buffer_append. intros (B & s1 & H1 & H)%bind_inv.
  apply load_buffer_inv in H1 as (-> & i & -> & Hi).
  apply bind_inv in H as (u & s2 & _ & [-> _]%ret_inv). done.
Qed.

Lemma buffer_insert_false buf pos content len s s' :
  buffer_insert buf pos content len s = Ok false s' → s' = s.
Proof.
  unfold buffer_insert. intros (B & s1 & H1 & H)%bind_inv.
  apply load_buffer_inv in H1 as (-> & i & -> & Hi).
  destruct (_ || _); [by apply ret_inv in H as [_ ->]|].
  destruct (_ =? _).
  - apply bind_inv in H as (d & s2 & Hd%buffer_append_inv & [Hb _]%ret_inv).
    symmetry in Hb. by apply bool_decide_eq_false in Hb.
  - by apply bind_inv in H as (u & s2 & _ & [? _]%ret_inv).
Qed.

Lemma buffer_delete_false buf pos len s s' :
  buffer_delete buf pos len s = Ok false s' → s' = s.
Proof.
  unfold buffer_delete. intros (B & s1 & H1 & H)%bind_inv.
  apply load_buffer_inv in H1 as (-> & i & -> & Hi).
  destruct (_ >? _); [by apply ret_inv in H as [_ ->]|].
  destruct (_ =? _);
    [by apply bind_inv in H as (u & s2 & _ & [? _]%ret_inv)|].
  destruct (_ <? _);
    [by apply bind_inv in H as (u & s2 & _ & [? _]%ret_inv)|].
  destruct (_ || _); [done|].
  by apply bind_inv in H as (u & s2 & _ & [? _]%ret_inv).
Qed.

Lemma cache_insert_miss p off text len s s' :
  cache_insert p off text len s = Ok false s' → s' = s.
Proof.
  unfold cache_insert. intros (hit & s1 & H1 & H)%bind_inv.
  apply read_only_cache_contains in H1 as ->.
  destruct hit; unfold negb in H; cbv beta iota in H;
    [|by apply ret_inv in H as [_ ->]].
  apply bind_inv in H as (buf & s2 & [-> ->]%gets_inv & H).
  apply bind_inv in H as (P & s2 & [-> _]%load_piece_inv & H).
  apply bind_inv in H as (ok & s2 & H2 & H).
  destruct ok; unfold negb in H; cbv beta iota in H.
  - apply bind_inv in H as (? & ? & _ & H).
    apply bind_inv in H as (? & ? & _ & H).
    by apply bind_inv in H as (? & ? & _ & [? _]%ret_inv).
  - apply buffer_insert_false in H2 as ->. by apply ret_inv in H as [_ ->].
Qed.

Lemma cache_delete_miss p off len s s' :
  cache_delete p off len s = Ok false s' → s' = s.
Proof.
  unfold cache_delete. intros (hit & s1 & H1 & H)%bind_inv.
  apply read_only_cache_contains in H1 as ->.
  destruct hit; unfold negb in H; cbv beta iota in H;
    [|by apply ret_inv in H as [_ ->]].
  apply bind_inv in H as (buf & s2 & [-> ->]%gets_inv & H).
  apply bind_inv in H as (P & s2 & [-> _]%load_piece_inv & H).
  destruct (_ >? _); [by apply ret_inv in H as [_ ->]|].
  apply bind_inv in H as (ok & s2 & H2 & H).
  destruct ok; unfold negb in H; cbv beta iota in H.
  - apply bind_inv in H as (? & ? & _ & H).
    apply bind_inv in H as (? & ? & _ & H).
    by apply bind_inv in H as (? & ? & _ & [? _]%ret_inv).
  - apply buffer_delete_false in H2 as ->. by apply ret_inv in H as [_ ->].
Qed.

(** An insert is a lookup, then either a hit of the cache or a change
    allocated and filled in by steps inside the edit frame. *)
Lemma editor_insert_steps pos text s b s' :
  editor_insert pos text s = Ok b s' →
  ∃ loc, piece_get pos s = Ok loc s
    ∧ let hit := cache_insert (piece loc) (off loc) text
                   (Z.of_nat (strlen text)) s in
      (b = true ∧ hit = Ok true s')
      ∨ (hit = Ok false s
         ∧ ∃ c s1, change_alloc s = Ok c s1
             ∧ match c with
               | None => b = false ∧ s' = s1
               | Some _ => edit_frame s1 s'
               end).
Proof.
  unfold editor_insert. intros (loc & s1 & H1 & H)%bind_inv.
  pose proof (read_only_piece_get _ _ _ _ H1) as <-.
  exists loc. split; [done|]. cbn.
  apply bind_inv in H as (hit & s1 & H2 & H).
  destruct hit; [apply ret_inv in H as [-> ->]; by left|].
  pose proof (cache_insert_miss _ _ _ _ _ _ H2) as ->.
  right. split; [done|].
  apply bind_inv in H as (c & s1 & H3 & H).
  exists c, s1. split; [done|].
  destruct c as [c|]; [|by apply ret_inv in H].
  revert H.
  match goal with |- ?m s1 = _ → _ =>
    assert (preserves edit_frame m) as Hp; [|by apply Hp] end.
  repeat edit_frame_step.
Qed.

(** A delete is two guards, then a lookup and either a hit of the cache
    or a change allocated and filled in inside the edit frame. *)
Lemma editor_delete_steps pos len s b s' :
  editor_delete pos len s = Ok b s' →
  (len = 0 ∧ b = true ∧ s' = s)
  ∨ (len ≠ 0 ∧ addw pos len > size s ∧ b = false ∧ s' = s)
  ∨ (len ≠ 0 ∧ addw pos len ≤ size s
     ∧ ∃ loc, piece_get pos s = Ok loc s
       ∧ let hit := cache_delete (piece loc) (off loc) len s in
         (b = true ∧ hit = Ok true s')
         ∨ (hit = Ok false s
            ∧ ∃ c s1, change_alloc s = Ok c s1
                ∧ match c with
                  | None => b = false ∧ s' = s1
                  | Some _ => edit_frame s1 s'
                  end)).
Proof.
  unfold editor_delete. intros H. destruct (Z.eqb_spec len 0) as [->|Hlen].
  { apply ret_inv in H as [-> ->]. by left. }
  right. apply bind_inv in H as (sz & s1 & [-> ->]%gets_inv & H).
  destruct (Z.gtb_spec (addw pos len) (size s)) as [Hgt|Hle].
  { apply ret_inv in H as [-> ->]. left. split_and!; [done|lia|done|done]. }
  right. split; [done|]. split; [done|].
  apply bind_inv in H as (loc & s1 & H1 & H).
  pose proof (read_only_piece_get _ _ _ _ H1) as <-.
  exists loc. split; [done|]. cbn.
  apply bind_inv in H as (hit & s1 & H2 & H).
  destruct hit; [apply ret_inv in H as [-> ->]; by left|].
  pose proof (cache_delete_miss _ _ _ _ _ H2) as ->.
  right. split; [done|].
  apply bind_inv in H as (c & s1 & H3 & H).
  exists c, s1. split; [done|].
  destruct c as [c|]; [|by apply ret_inv in H].
  revert H.
  match goal with |- ?m s1 = _ → _ =>
    assert (preserves edit_frame m) as Hp; [|by apply Hp] end.
  repeat edit_frame_step.
Qed.

(** ** Edits into an open action *)

Lemma change_alloc_open s a c s' :
  current_action s = Some a →
  change_alloc s = Ok c s' →
  match c with
  | None => edit_frame s s'
  | Some ci =>
    ∃ A, hp_action s !! a = Some A ∧ ci = brk s
      ∧ hp_action s' = <[a := set_a_change (Some ci) A]> (hp_action s)
      ∧ hp_change s'
        = <[ci := mkChange empty_span empty_span (a_change A)]> (hp_change s)
      ∧ undo s' = undo s ∧ redo s' = redo s
      ∧ current_action s' = Some a
      ∧ saved_action s' = saved_action s
      ∧ hp_piece s' = hp_piece s
      ∧ piece_count s' = piece_count s
  end.
Proof.
  intros Ha. unfold change_alloc.
  intros (a0 & s1 & [-> ->]%gets_inv & H)%bind_inv. rewrite Ha in H.
  apply bind_inv in H as (a1 & s1 & [-> ->]%ret_inv & H).
  apply bind_inv in H as (ok & s1 & [o ->]%alloc_ok_inv & H).
  destruct ok; unfold negb in H; cbv beta iota in H.
  - apply bind_inv in H as (ci & s1 & [= <- <-] & H).
    apply bind_inv in H as (A & s1 & [-> (i & [= <-] & Hi)]%load_action_inv & H).
    apply bind_inv in H as (u & s1 & ->%modify_inv & H).
    apply bind_inv in H as (u' & s1 & (i & A' & [= <-] & Hi' & ->)%store_action_inv
                            & [-> ->]%ret_inv).
    cbn in *. exists A. rewrite Hi in Hi'. injection Hi' as <-.
    by split_and!.
  - apply ret_inv in H as [-> ->]. by repeat split.
Qed.

Lemma edit_receives_change a s s1 s' :
  current_action s = Some a →
  (∃ ci, change_alloc s = Ok (Some ci) s1) →
  edit_frame s1 s' →
  current_action s' = Some a ∧ undo s' = undo s ∧ redo s' = redo s
  ∧ receives_change a s s'.
Proof.
  intros Ha [ci Hc] (Hu & Hr & Hcur & _ & Hact & Hch & _).
  pose proof (change_alloc_open _ _ _ _ Ha Hc) as
    (A & HA & -> & Hact1 & Hch1 & Hu1 & Hr1 & Hcur1 & _).
  split_and!; try congruence.
  pose proof (Hch (brk s)) as Hb. rewrite Hch1, lookup_insert_eq in Hb.
  destruct (hp_change s' !! brk s) as [C|] eqn:EC; [|done].
  exists A, C. split_and!; [done|congruence|done|by injection Hb|].
  intros i Hi. by rewrite Hch, Hch1, lookup_insert_ne.
Qed.

(** ** Draining the redo stack *)

#[local] Instance shrink_preorder : PreOrder shrink.
Proof.
  split.
  - intros s. by repeat split.
  - intros s1 s2 s3 (?&?&?&?&?&?&?) (?&?&?&?&?&?&?).
    split_and!; try congruence; by etrans.
Qed.

Lemma piece_free_spec p s u s' :
  piece_free p s = Ok u s' →
  shrink s s' ∧ hp_change s' = hp_change s ∧ hp_action s' = hp_action s
  ∧ redo s' = redo s
  ∧ ∀ i, p = Some i → is_Some (hp_piece s !! i) ∧ hp_piece s' !! i = None.
Proof.
  unfold piece_free. destruct p as [i|].
  - intros (P & s1 & [-> (j & [= <-] & Hj)]%load_piece_inv & H)%bind_inv.
    apply bind_inv in H as (u1 & s1 & ->%modify_inv & ->%modify_inv).
    assert (∀ s0 : state,
      hp_piece (if bool_decide (cache s0 = Some i) then set_cache None s0 else s0)
      = hp_piece s0) as Hp by (intros s0; by case_bool_decide).
    case_bool_decide; cbn;
      (split_and!; [split_and!; try done; apply delete_subseteq|done..|
         intros ? [= <-]; split; [by eexists|apply lookup_delete_eq]]).
  - intros [-> ->]%ret_inv. split_and!; [reflexivity|done..|by intros].
Qed.

Lemma change_free_spec c s u s' :
  change_free c s = Ok u s' →
  ∃ i C, c = Some i ∧ hp_change s !! i = Some C
    ∧ shrink s s' ∧ hp_action s' = hp_action s ∧ redo s' = redo s
    ∧ hp_change s' !! i = None
    ∧ ∀ p, s_start (c_new C) = Some p ∨ s_end (c_new C) = Some p →
           is_Some (hp_piece s !! p) ∧ hp_piece s' !! p = None.
Proof.
  unfold change_free.
  intros (C & s1 & [-> (i & -> & Hi)]%load_change_inv & H)%bind_inv.
  apply bind_inv in H as (u1 & s1 & H1 & H).
  apply piece_free_spec in H1 as (Hs1 & Hc1 & Ha1 & Hr1 & Hp1).
  apply bind_inv in H as (C' & s2 & [-> (j & [= <-] & Hj)]%load_change_inv & H).
  rewrite Hc1, Hi in Hj. injection Hj as <-.
  apply bind_inv in H as (u2 & s2 & H2 & ->%modify_inv).
  exists i, C. split; [done|]. split; [done|].
  assert (shrink s1 s2 ∧ hp_change s2 = hp_change s1
          ∧ hp_action s2 = hp_action s1 ∧ redo s2 = redo s1
          ∧ ∀ p, s_end (c_new C) = Some p →
                 s_start (c_new C) ≠ s_end (c_new C) →
                 is_Some (hp_piece s1 !! p) ∧ hp_piece s2 !! p = None)
    as (Hs2 & Hc2 & Ha2 & Hr2 & Hp2).
  { case_bool_decide as Hne.
    - apply piece_free_spec in H2 as (?&?&?&?&Hp).
      split_and!; try done; intros p Hp' _; by apply Hp.
    - apply ret_inv in H2 as [_ ->].
      split_and!; try done; intros p _ Hne'; by destruct Hne. }
  destruct Hs1 as (Hsa1 & Hsc1 & Hsp1 & ?&?&?&?).
  destruct Hs2 as (Hsa2 & Hsc2 & Hsp2 & ?&?&?&?).
  cbn. refine (conj _ (conj _ (conj _ (conj _ _)))).
  - unfold shrink; cbn. split_and!; try congruence.
    + by etrans.
    + etrans; [apply delete_subseteq|]. by etrans.
    + by etrans.
  - congruence.
  - congruence.
  - apply lookup_delete_eq.
  - intros p [Hp|Hp].
    + destruct (Hp1 p Hp) as [? Hn]. split; [done|].
      eapply lookup_weaken_None; [exact Hn|done].
    + destruct (decide (s_start (c_new C) = s_end (c_new C))) as [E|E].
      * rewrite <-E in Hp. destruct (Hp1 p Hp) as [? Hn]. split; [done|].
        eapply lookup_weaken_None; [exact Hn|done].
      * destruct (Hp2 p Hp E) as [[P HP] Hn]. split; [|done].
        exists P. eapply lookup_weaken; [exact HP|done].
Qed.

Lemma change_freed_shrink s0 s s' c :
  shrink s s' → change_freed s0 s c → change_freed s0 s' c.
Proof.
  intros (_ & Hc & Hp & _) (Hn & C & HC & Hnew). split.
  - eapply lookup_weaken_None; [exact Hn|done].
  - exists C. split; [done|]. intros p Hp'.
    destruct (Hnew p Hp') as [? Hn']. split; [done|].
    eapply lookup_weaken_None; [exact Hn'|done].
Qed.

Lemma action_freed_shrink s0 s s' a :
  shrink s s' → action_freed s0 s a → action_freed s0 s' a.
Proof.
  intros Hs (Hn & A & cs & HA & Hcs & Hall). split.
  - destruct Hs as (Ha & _). eapply lookup_weaken_None; [exact Hn|done].
  - exists A, cs. split; [done|]. split; [done|].
    eapply Forall_impl; [exact Hall|]. intros c. by apply change_freed_shrink.
Qed.

Lemma action_free_loop_spec s0 n :
  ∀ c s u s',
    action_free_loop n c s = Ok u s' →
    hp_change s ⊆ hp_change s0 →
    hp_piece s ⊆ hp_piece s0 →
    ∃ cs, clist (hp_change s0) c cs
      ∧ shrink s s' ∧ hp_action s' = hp_action s ∧ redo s' = redo s
      ∧ Forall (change_freed s0 s') cs.
Proof.
  induction n as [|n IH]; intros c s u s' H Hc0 Hp0; [done|].
  cbn [action_free_loop] in H. destruct c as [i|].
  - apply bind_inv in H as (C & s1 & [-> (j & [= <-] & Hj)]%load_change_inv & H).
    apply bind_inv in H as (u1 & s1 & H1 & H).
    apply change_free_spec in H1
      as (j & C' & [= <-] & Hj' & Hs1 & Ha1 & Hr1 & Hn1 & Hnew).
    rewrite Hj in Hj'. injection Hj' as <-.
    pose proof Hs1 as (_ & Hsc & Hsp & _).
    destruct (IH _ _ _ _ H) as (cs & Hcs & Hs2 & Ha2 & Hr2 & Hall);
      [by etrans|by etrans|].
    exists (i :: cs). split_and!.
    + cbn. split; [done|]. exists C. split; [|done].
      eapply lookup_weaken; [exact Hj|done].
    + by etrans.
    + congruence.
    + congruence.
    + constructor; [|done].
      apply (change_freed_shrink s0 s1 s'); [done|]. split; [done|].
      exists C. split; [eapply lookup_weaken; [exact Hj|done]|].
      intros p Hp. destruct (Hnew p Hp) as [[P HP] Hn]. split; [|done].
      exists P. eapply lookup_weaken; [exact HP|done].
  - apply ret_inv in H as [_ ->]. exists []. by split_and!.
Qed.

Lemma action_free_spec s0 a s u s' :
  action_free (Some a) s = Ok u s' →
  hp_action s ⊆ hp_action s0 →
  hp_change s ⊆ hp_change s0 →
  hp_piece s ⊆ hp_piece s0 →
  shrink s s' ∧ redo s' = redo s ∧ action_freed s0 s' a.
Proof.
  unfold action_free.
  intros (A & s1 & [-> (j & [= <-] & Hj)]%load_action_inv & H)%bind_inv Ha0 Hc0 Hp0.
  apply bind_inv in H as (n & s1 & [-> ->]%gets_inv & H).
  apply bind_inv in H as (u1 & s1 & H1 & H).
  destruct (action_free_loop_spec s0 _ _ _ _ _ H1 Hc0 Hp0)
    as (cs & Hcs & Hs1 & Ha1 & Hr1 & Hall).
  apply bind_inv in H as (A' & s2 & [-> _]%load_action_inv & ->%modify_inv).
  destruct Hs1 as (Hsa & Hsc & Hsp & ?&?&?&?).
  assert (shrink s (set_hp_action (delete a (hp_action s1)) s1)) as Hs.
  { unfold shrink; cbn. split_and!; try done.
    etrans; [apply delete_subseteq|done]. }
  split; [done|]. split; [done|]. split; [apply lookup_delete_eq|].
  exists A, cs. split; [eapply lookup_weaken; [exact Hj|done]|].
  split; [done|].
  eapply Forall_impl; [exact Hall|]. intros c (Hn & C & HC & Hnew).
  split; [done|]. exists C. split; [done|]. done.
Qed.

Lemma drain_redo_spec s0 n :
  ∀ s u s',
    drain_redo n s = Ok u s' →
    hp_action s ⊆ hp_action s0 →
    hp_change s ⊆ hp_change s0 →
    hp_piece s ⊆ hp_piece s0 →
    ∃ l, astack (hp_action s0) (redo s) l
      ∧ shrink s s' ∧ redo s' = None
      ∧ Forall (action_freed s0 s') l.
Proof.
  induction n as [|n IH]; intros s u s' H Ha0 Hc0 Hp0; [done|].
  cbn [drain_redo] in H.
  apply bind_inv in H as (old & s1 & H1 & H).
  unfold action_pop in H1.
  apply bind_inv in H1 as (top & s2 & [-> ->]%gets_inv & H1). cbn in H1.
  destruct (redo s) as [a|] eqn:Er.
  - apply bind_inv in H1 as (A & s2 & [-> (j & [= <-] & Hj)]%load_action_inv & H1).
    apply bind_inv in H1 as (u1 & s2 & ->%modify_inv & [-> ->]%ret_inv).
    cbn in H.
    apply bind_inv in H as (u2 & s2 & H2 & H).
    destruct (action_free_spec s0 _ _ _ _ H2) as (Hs2 & Hr2 & Hf2); [done..|].
    cbn in Hr2.
    pose proof Hs2 as (Hsa & Hsc & Hsp & Hpc & Hbrk & Hu & Hcur). cbn in *.
    destruct (IH _ _ _ H) as (l & Hl & Hs3 & Hr3 & Hall);
      [by etrans|by etrans|by etrans|].
    exists (a :: l). split_and!.
    + cbn. split; [done|]. exists A. split; [eapply lookup_weaken; [exact Hj|done]|].
      by rewrite <-Hr2.
    + etrans; [|exact Hs3]. unfold shrink. by split_and!.
    + done.
    + constructor; [|done]. by apply (action_freed_shrink s0 s2 s').
  - apply ret_inv in H1 as [-> ->]. apply ret_inv in H as [_ ->].
    exists []. by split_and!.
Qed.

Lemma fresh_inv s a s' :
  fresh s = Ok a s' → a = brk s ∧ s' = set_brk (S (brk s)) s.
Proof. by intros [= <- <-]. Qed.

Lemma astack_insert_ne h new X top l :
  new ∉ l → astack (<[new := X]> h) top l → astack h top l.
Proof.
  revert top. induction l as [|a l IH]; intros top Hnew; cbn; [done|].
  apply not_elem_of_cons in Hnew as [Hne Hnew].
  intros (-> & A & HA & Hl). split; [done|]. exists A.
  rewrite lookup_insert_ne in HA by done. eauto.
Qed.

(** change_alloc without a current action: the redo stack is drained and
    every action that was on it is freed. *)
Lemma change_alloc_closed s c s2 :
  current_action s = None →
  heap_fresh s →
  change_alloc s = Ok (Some c) s2 →
  redo s2 = None
  ∧ piece_count s2 = piece_count s
  ∧ ∃ l, astack (hp_action s) (redo s) l ∧ Forall (action_freed s s2) l.
Proof.
  intros Hcur (Hfp & Hfc & Hfa). unfold change_alloc.
  intros (a0 & s1 & [-> ->]%gets_inv & H)%bind_inv. rewrite Hcur in H.
  apply bind_inv in H as (a & s1 & Halloc & H).
  destruct a as [a|]; [|by apply ret_inv in H as [? _]].
  (* action_alloc *)
  unfold action_alloc in Halloc.
  apply bind_inv in Halloc as (ok & sa & [o ->]%alloc_ok_inv & Halloc).
  destruct ok; unfold negb in Halloc; cbv beta iota in Halloc;
    [|by apply ret_inv in Halloc as [? _]].
  apply bind_inv in Halloc as (new & sa & [-> ->]%fresh_inv & Halloc).
  apply bind_inv in Halloc as (u0 & sa & ->%modify_inv & Halloc).
  apply bind_inv in Halloc as (fuel & sa & [-> ->]%gets_inv & Halloc).
  apply bind_inv in Halloc as (u1 & sd & Hdrain & Halloc).
  apply bind_inv in Halloc as (u2 & sa & ->%modify_inv & Halloc).
  apply bind_inv in Halloc as (u3 & sa & Hpush & [[= ->] ->]%ret_inv).
  unfold action_push in Hpush.
  apply bind_inv in Hpush as (top & sb & [-> ->]%gets_inv & Hpush).
  apply bind_inv in Hpush
    as (u4 & sb & (j & A' & [= <-] & HA' & ->)%store_action_inv & ->%modify_inv).
  cbn in HA'.
  match type of Hdrain with drain_redo _ ?s0 = _ =>
    destruct (drain_redo_spec s0 _ _ _ _ Hdrain) as (l & Hl & Hsh & Hrd & Hall);
      [done..|] end.
  cbn in Hl. destruct Hsh as (Hsa & Hsc & Hsp & Hpc & Hbrk & Hu & Hc).
  cbn in Hsa, Hsc, Hsp, Hpc, Hbrk.
  assert (brk s ∉ l) as Hnew.
  { intros Hin. apply (proj1 (Forall_forall _ _) Hall) in Hin as [Hn _].
    by rewrite Hn in HA'. }
  assert (∀ x, x ∈ l → is_Some (hp_action s !! x) ∧ x ≠ brk s) as Hold.
  { intros x Hx. assert (x ≠ brk s) as Hne by (by intros ->). split; [|done].
    apply (proj1 (Forall_forall _ _) Hall) in Hx as (_ & A & _ & HA & _).
    cbn in HA. rewrite lookup_insert_ne in HA by done. by eexists. }
  (* the Change *)
  apply bind_inv in H as (ok & sa & [o' ->]%alloc_ok_inv & H).
  destruct ok; unfold negb in H; cbv beta iota in H;
    [|by apply ret_inv in H as [? _]].
  apply bind_inv in H as (c' & sa & [-> ->]%fresh_inv & H).
  apply bind_inv in H as (A & sa & [-> _]%load_action_inv & H).
  apply bind_inv in H as (u5 & sa & ->%modify_inv & H).
  apply bind_inv in H
    as (u6 & sa & (j & A2 & [= <-] & HA2 & ->)%store_action_inv & [_ ->]%ret_inv).
  cbn. split; [done|]. split; [done|]. exists l.
  split; [by eapply astack_insert_ne|].
  apply Forall_forall. intros x Hx.
  destruct (Hold x Hx) as [_ Hne].
  destruct (proj1 (Forall_forall _ _) Hall x Hx) as (Hn & Ax & cs & HAx & Hcs & Hch).
  cbn in HAx, Hcs. rewrite lookup_insert_ne in HAx by done.
  split; [cbn; by rewrite !lookup_insert_ne|].
  exists Ax, cs. split; [done|]. split; [done|].
  eapply Forall_impl; [exact Hch|].
  intros ci (Hnc & C & HC & Hnew'). cbn in HC.
  split.
  - cbn. rewrite lookup_insert_ne; [done|].
    intros <-. rewrite Hbrk in HC. assert (S (brk s) < brk s)%nat; [|lia].
    apply Hfc. by eexists.
  - exists C. split; [done|]. done.
Qed.

Lemma cache_insert_no_action p off text len s :
  current_action s = None → cache_insert p off text len s = Ok false s.
Proof.
  intros Ha. unfold cache_insert.
  by rewrite (bind_Ok _ _ _ _ _ (cache_contains_no_action p s Ha)).
Qed.

Lemma cache_delete_no_action p off len s :
  current_action s = None → cache_delete p off len s = Ok false s.
Proof.
  intros Ha. unfold cache_delete.
  by rewrite (bind_Ok _ _ _ _ _ (cache_contains_no_action p s Ha)).
Qed.

Lemma editor_undo_pushes_redo s s' :
  editor_undo s = Ok true s' → ∃ a, redo s' = Some a.
Proof.
  unfold editor_undo. intros (a & s1 & H1 & H)%bind_inv.
  destruct a as [a|]; [|by apply ret_inv in H as [? _]].
  apply bind_inv in H as (A & s2 & _ & H).
  apply bind_inv in H as (n & s3 & _ & H).
  apply bind_inv in H as (u & s4 & _ & H).
  apply bind_inv in H as (u' & s5 & Hpush & [_ ->]%ret_inv).
  unfold action_push in Hpush.
  apply bind_inv in Hpush as (top & s6 & _ & Hpush).
  apply bind_inv in Hpush as (u'' & s7 & _ & ->%modify_inv). by exists a.
Qed.

(** ** Walking the chain *)

Lemma chain_app h p l1 l2 e :
  chain h p (l1 ++ l2) e → ∃ p', chain h p' l2 e.
Proof.
  revert p. induction l1 as [|a l1 IH]; intros p; cbn; [eauto|].
  intros (_ & P & _ & _ & H). eauto.
Qed.

Lemma chain_functional h p l l' e e' :
  chain h p l e → chain h p l' e' → l = l' ∧ e = e'.
Proof.
  revert p l'. induction l as [|a l IH]; intros p [|a' l']; cbn.
  - intros [-> _] [[= ->] _]. done.
  - intros (-> & P & HP & Hn) ([= <-] & P' & HP' & [x Hx] & _).
    rewrite HP in HP'. injection HP' as <-. congruence.
  - intros (-> & P & HP & [x Hx] & _) ([= <-] & P' & HP' & Hn).
    rewrite HP in HP'. injection HP' as <-. congruence.
  - intros (-> & P & HP & _ & H) ([= <-] & P' & HP' & _ & H').
    rewrite HP in HP'. injection HP' as <-.
    destruct (IH _ _ H H') as [-> ->]. done.
Qed.

Lemma chain_NoDup h p l e : chain h p l e → NoDup l.
Proof.
  revert p. induction l as [|a l IH]; intros p; [constructor|].
  intros H. pose proof H as (-> & P & HP & _ & Hl). constructor; [|eauto].
  intros (l1 & l2 & ->)%list_elem_of_split.
  destruct (chain_app h (p_next P) l1 (a :: l2) e Hl) as [p' H'].
  pose proof H' as (-> & _).
  destruct (chain_functional _ _ _ _ _ _ H H') as [Heq _].
  apply (f_equal length) in Heq. cbn in Heq. rewrite length_app in Heq.
  cbn in Heq. lia.
Qed.

Lemma chain_dom h p l e a : chain h p l e → a ∈ l → a ∈ dom h.
Proof.
  revert p. induction l as [|b l IH]; intros p; cbn; [by intros _ ?%elem_of_nil|].
  intros (_ & P & HP & _ & H) [->|Ha]%elem_of_cons; [|eauto].
  apply elem_of_dom. eauto.
Qed.

Lemma chain_bounded h p l e : chain h p l e → (length l ≤ base.size h)%nat.
Proof.
  intros H. trans (length (elements (dom h))).
  - apply submseteq_length, NoDup_submseteq; [by eapply chain_NoDup|].
    intros a Ha. apply elem_of_elements. by eapply chain_dom.
  - by rewrite <-size_dom.
Qed.

Lemma total_len_cons h a l :
  total_len h (a :: l) = len_of h a + total_len h l.
Proof. done. Qed.

Lemma total_len_app h l1 l2 :
  total_len h (l1 ++ l2) = total_len h l1 + total_len h l2.
Proof.
  induction l1 as [|a l1 IH]; [done|].
  rewrite <-app_comm_cons, !total_len_cons, IH. lia.
Qed.

Lemma total_len_nonneg h l :
  Forall (λ a, 0 ≤ len_of h a) l → 0 ≤ total_len h l.
Proof. induction 1; [done|]. rewrite total_len_cons. lia. Qed.

(** The loop of piece_get stops at the first piece of the chain whose
    closed range holds [pos]. *)
Lemma piece_get_loop_first_fit s pos l :
  ∀ n p cur e,
    chain (hp_piece s) p l e →
    (length l ≤ n)%nat →
    Forall (λ a, 0 ≤ len_of (hp_piece s) a) l →
    l ≠ [] →
    0 ≤ cur →
    cur + total_len (hp_piece s) l < SIZE_MOD →
    cur ≤ pos ≤ cur + total_len (hp_piece s) l →
    ∃ l1 q l2,
      l = l1 ++ q :: l2
      ∧ piece_get_loop n p cur pos s
        = Ok (mkLocation (Some q) (pos - (cur + total_len (hp_piece s) l1))) s
      ∧ cur + total_len (hp_piece s) l1 ≤ pos
        ≤ cur + total_len (hp_piece s) l1 + len_of (hp_piece s) q
      ∧ ∀ l1a r l1b,
          l1 = l1a ++ r :: l1b →
          ¬ (cur + total_len (hp_piece s) l1a ≤ pos
             ≤ cur + total_len (hp_piece s) l1a + len_of (hp_piece s) r).
Proof.
  induction l as [|a l IH]; intros n p cur e Hch Hn Hlen Hne Hcur Hmax Hpos;
    [done|].
  destruct Hch as (-> & P & HP & [x Hx] & Hch). rewrite Hx in Hch.
  destruct n as [|n]; [cbn in Hn; lia|].
  apply Forall_cons in Hlen as [Ha Hlen].
  pose proof (total_len_nonneg _ _ Hlen) as Hl.
  rewrite total_len_cons in Hmax, Hpos.
  assert (len_of (hp_piece s) a = p_len P) as Ea by (unfold len_of; by rewrite HP).
  assert (addw cur (p_len P) = cur + p_len P) as Eadd.
  { unfold addw, wrap. apply Z.mod_small. lia. }
  cbn [piece_get_loop]. unfold bind at 1, load_piece. rewrite HP, Hx, Eadd.
  destruct (decide (pos ≤ cur + p_len P)) as [Hin|Hout].
  - exists [], a, l. split; [done|].
    change (total_len (hp_piece s) []) with 0. rewrite Ea.
    assert ((cur <=? pos) && (pos <=? cur + p_len P) = true) as ->.
    { apply andb_true_iff. split; apply Z.leb_le; lia. }
    unfold ret, subw, wrap. rewrite Z.mod_small, Z.add_0_r by lia.
    split; [done|]. split; [lia|]. by intros [|??] ??.
  - assert ((cur <=? pos) && (pos <=? cur + p_len P) = false) as ->.
    { apply andb_false_iff. right. apply Z.leb_gt. lia. }
    destruct (IH n (Some x) (cur + p_len P) e) as (l1 & q & l2 & -> & Hget & Hq & Hfirst);
      [done|cbn in Hn; lia|done| |lia|lia|lia|].
    { intros ->. cbn in Hpos. lia. }
    exists (a :: l1), q, l2. split; [done|].
    rewrite total_len_cons, Ea, Hget.
    split; [f_equal; f_equal; lia|]. split; [lia|].
    intros [|b l1a] r l1b; cbn [app]; intros [= -> ->].
    + change (total_len (hp_piece s) []) with 0. rewrite Ea. lia.
    + rewrite total_len_cons, Ea.
      intros Hr. eapply Hfirst; [done|]. lia.
Qed.

(** ** Running operations forward *)

Lemma bind_assoc {A B C} (m : M A) (k1 : A → M B) (k2 : B → M C) s :
  bind (bind m k1) k2 s = bind m (λ a, bind (k1 a) k2) s.
Proof. unfold bind. by destruct (m s). Qed.

Lemma bind_ret {A B} (a : A) (k : A → M B) s : bind (ret a) k s = k a s.
Proof. done. Qed.

Lemma bind_gets {A B} (f : state → A) (k : A → M B) s :
  bind (gets f) k s = k (f s) s.
Proof. done. Qed.

Lemma bind_modify {B} (f : state → state) (k : unit → M B) s :
  bind (modify f) k s = k () (f s).
Proof. done. Qed.

Lemma alloc_ok_Ok s : oracle s = [] → alloc_ok s = Ok true s.
Proof. unfold alloc_ok. by intros ->. Qed.

Lemma load_piece_Ok s i P :
  hp_piece s !! i = Some P → load_piece (Some i) s = Ok P s.
Proof. unfold load_piece. by intros ->. Qed.

Lemma store_piece_Ok s i P f :
  hp_piece s !! i = Some P →
  store_piece (Some i) f s = Ok () (set_hp_piece (<[i := f P]> (hp_piece s)) s).
Proof.
  intros H. unfold store_piece. by rewrite (bind_Ok _ _ _ _ _ (load_piece_Ok _ _ _ H)).
Qed.

Lemma load_change_Ok s i C :
  hp_change s !! i = Some C → load_change (Some i) s = Ok C s.
Proof. unfold load_change. by intros ->. Qed.

Lemma store_change_Ok s i C f :
  hp_change s !! i = Some C →
  store_change (Some i) f s
  = Ok () (set_hp_change (<[i := f C]> (hp_change s)) s).
Proof.
  intros H. unfold store_change.
  by rewrite (bind_Ok _ _ _ _ _ (load_change_Ok _ _ _ H)).
Qed.

Lemma load_buffer_Ok s i B :
  hp_buffer s !! i = Some B → load_buffer (Some i) s = Ok B s.
Proof. unfold load_buffer. by intros ->. Qed.

Lemma store_buffer_Ok s i B f :
  hp_buffer s !! i = Some B →
  store_buffer (Some i) f s
  = Ok () (set_hp_buffer (<[i := f B]> (hp_buffer s)) s).
Proof.
  intros H. unfold store_buffer.
  by rewrite (bind_Ok _ _ _ _ _ (load_buffer_Ok _ _ _ H)).
Qed.

Lemma piece_alloc_Ok s :
  oracle s = [] →
  piece_alloc s
  = Ok (Some (S (piece_count s)))
       (set_hp_piece (<[S (piece_count s) := mkPiece None None None 0]> (hp_piece s))
          (set_piece_count (S (piece_count s)) s)).
Proof.
  intros Ho. unfold piece_alloc. by rewrite (bind_Ok _ _ _ _ _ (alloc_ok_Ok _ Ho)).
Qed.

Lemma buffer_append_Ok s b B content len :
  hp_buffer s !! b = Some B →
  buffer_append (Some b) content len s
  = Ok (Some (CPtr b (b_pos B)))
       (set_hp_buffer
          (<[b := mkBuffer (b_size B) (addw (b_pos B) len)
                    (take (Z.to_nat (b_pos B)) (b_content B)
                       ++ take (Z.to_nat len) content) (b_next B)]>
             (hp_buffer s)) s).
Proof.
  intros H. unfold buffer_append.
  rewrite (bind_Ok _ _ _ _ _ (load_buffer_Ok _ _ _ H)).
  by rewrite (bind_Ok _ _ _ _ _ (store_buffer_Ok _ _ _ _ H)).
Qed.


Lemma map_size_two {A} (m : gmap nat A) i j x y :
  i ≠ j → m !! i = Some x → m !! j = Some y → (2 ≤ base.size m)%nat.
Proof.
  intros Hne Hi Hj.
  pose proof (map_size_delete_Some i m (mk_is_Some _ _ Hi)) as Hd.
  assert (base.size (delete i m) ≠ 0%nat) as Hnz.
  { apply (map_size_ne_0_lookup_2 _ j). rewrite lookup_delete_ne by done. eauto. }
  lia.
Qed.

Lemma span_init_one s p P :
  hp_piece s !! p = Some P →
  span_init (Some p) (Some p) s = Ok (mkSpan (Some p) (Some p) (addw 0 (p_len P))) s.
Proof.
  intros H. unfold span_init. rewrite bind_gets. cbn [span_init_loop].
  rewrite bind_assoc, (bind_Ok _ _ _ _ _ (load_piece_Ok _ _ _ H)).
  by rewrite bool_decide_eq_true_2.
Qed.

Lemma span_init_three s b n a PB PN PA :
  b ≠ a → n ≠ a → b ≠ n →
  hp_piece s !! b = Some PB → p_next PB = Some n →
  hp_piece s !! n = Some PN → p_next PN = Some a →
  hp_piece s !! a = Some PA →
  span_init (Some b) (Some a) s
  = Ok (mkSpan (Some b) (Some a)
          (addw (addw (addw 0 (p_len PB)) (p_len PN)) (p_len PA))) s.
Proof.
  intros Hba Hna Hbn Hb Hbn' Hn Hna' Ha. unfold span_init. rewrite bind_gets.
  pose proof (map_size_two _ _ _ _ _ Hbn Hb Hn) as Hsz.
  destruct (base.size (hp_piece s)) as [|[|k]]; [lia|lia|].
  cbn [span_init_loop].
  rewrite !bind_assoc, (bind_Ok _ _ _ _ _ (load_piece_Ok _ _ _ Hb)).
  rewrite bool_decide_eq_false_2 by congruence. rewrite Hbn'.
  rewrite !bind_assoc, (bind_Ok _ _ _ _ _ (load_piece_Ok _ _ _ Hn)).
  rewrite bool_decide_eq_false_2 by congruence. rewrite Hna'.
  rewrite !bind_assoc, (bind_Ok _ _ _ _ _ (load_piece_Ok _ _ _ Ha)).
  by rewrite bool_decide_eq_true_2.
Qed.


Lemma span_swap_replace_one s p P q Q r l new :
  hp_piece s !! p = Some P → p_prev P = Some q → p_next P = Some r →
  q ≠ p → hp_piece s !! q = Some Q → is_Some (hp_piece s !! r) →
  l ≠ 0 → s_len new ≠ 0 →
  ∃ R1,
    (<[q := set_p_next (s_start new) Q]> (hp_piece s)) !! r = Some R1
    ∧ span_swap (mkSpan (Some p) (Some p) l) new s
      = Ok ()
          (set_size (addw (subw (size s) l) (s_len new))
             (set_hp_piece
                (<[r := set_p_prev (s_end new) R1]>
                   (<[q := set_p_next (s_start new) Q]> (hp_piece s))) s)).
Proof.
  intros Hp Hq Hr Hne HQ [R HR] Hl Hn.
  assert (∃ R1, (<[q := set_p_next (s_start new) Q]> (hp_piece s)) !! r = Some R1)
    as [R1 HR1].
  { destruct (decide (q = r)) as [->|?].
    - rewrite lookup_insert_eq. eauto.
    - rewrite lookup_insert_ne by done. eauto. }
  exists R1. split; [done|]. unfold span_swap. cbn [s_len s_start s_end].
  apply Z.eqb_neq in Hl, Hn. rewrite Hl, Hn. cbn [andb].
  rewrite !bind_assoc, (bind_Ok _ _ _ _ _ (load_piece_Ok _ _ _ Hp)), Hq.
  rewrite !bind_assoc, (bind_Ok _ _ _ _ _ (store_piece_Ok _ _ _ _ HQ)).
  rewrite !bind_assoc.
  erewrite bind_Ok
    by (apply (load_piece_Ok _ p P); cbn; by rewrite lookup_insert_ne).
  rewrite Hr.
  erewrite bind_Ok by (apply (store_piece_Ok _ r R1); cbn; exact HR1).
  rewrite bind_modify. reflexivity.
Qed.

Ltac norm_state :=
  cbn [hp_piece hp_change hp_action hp_buffer brk oracle buffers cache
       piece_count redo undo current_action saved_action size
       set_hp_piece set_hp_change set_hp_action set_hp_buffer set_brk
       set_oracle set_buffers set_cache set_piece_count set_redo set_undo
       set_current_action set_size].

Ltac lk :=
  repeat first
    [ rewrite lookup_insert_eq
    | rewrite lookup_insert_ne by (done || lia) ].


(** * Properties *)

Local Open Scope string_scope.

(** ** The end-to-end scenarios of the specification *)

Example scenario_hello_world :
  let r := session None [Insert 0 "hello"; Insert 5 " world"] in
  document r = Some "hello world" ∧ size <$> final r = Some 11
  ∧ base.size <$> (hp_change <$> final r) = Some 1%nat.
Proof. vm_compute. done. Qed.

Example scenario_delete_insert :
  document (session (Some "hello world") [Delete 5 1; Insert 5 "_"])
  = Some "hello_world".
Proof. vm_compute. done. Qed.

Example scenario_delete_undo_redo :
  document (session (Some "abcdef") [Delete 1 4]) = Some "af"
  ∧ document (session (Some "abcdef") [Delete 1 4; Undo]) = Some "abcdef"
  ∧ document (session (Some "abcdef") [Delete 1 4; Undo; Redo]) = Some "af".
Proof. vm_compute. done. Qed.

Example scenario_snapshot_undo :
  let ops := [Insert 3 "d"; Snapshot; Insert 4 "e"] in
  document (session (Some "abc") (ops ++ [Undo])) = Some "abcd"
  ∧ document (session (Some "abc") (ops ++ [Undo; Undo])) = Some "abc".
Proof. vm_compute. done. Qed.

Example scenario_midway_split :
  document (session (Some "abcdef") [Insert 3 "XYZ"]) = Some "abcXYZdef".
Proof. vm_compute. done. Qed.

(** ** The defects, evaluated *)

(** C1: undo after a snapshot must restore the document as it was before
    the edit.  Here every edit is followed by a snapshot.  An action
    holding two adjacent changes is undone and redone; editor_redo
    replays the changes newest first, which leaves a stale [prev] link
    behind.  The next delete of one byte then drops two, and undoing it
    does not bring back the document it started from. *)
Theorem undo_does_not_restore_after_redo :
  let before := [Insert 2 "cd"; Snapshot; Delete 1 1; Insert 1 "X"; Snapshot;
                 Undo; Redo] in
  let pre := session (Some "ab") before in
  current_action <$> final pre = Some None
  ∧ cache <$> final pre = Some None
  ∧ document pre = Some "aXcd"
  ∧ returned (session (Some "ab") (before ++ [Delete 2 1]))
    = Some [true; true; true; true; true; true; true; true]
  ∧ document (session (Some "ab") (before ++ [Delete 2 1])) = Some "ad"
  ∧ returned (session (Some "ab") (before ++ [Delete 2 1; Snapshot; Undo]))
    = Some [true; true; true; true; true; true; true; true; true; true]
  ∧ document (session (Some "ab") (before ++ [Delete 2 1; Snapshot; Undo]))
    = Some "ad".
Proof. vm_compute. done. Qed.

(** C2: the size field must equal the sum of the piece lengths of the
    chain.  After an undo the action stays open, the next insert adds
    its change to the action now on the redo stack, and redo counts that
    change a second time: size 3 for a document of one byte.  With a
    snapshot after every edit the replay order of editor_redo breaks
    the sum as well. *)
Theorem size_is_not_the_chain_length :
  let r := session None [Insert 0 "a"; Undo; Insert 0 "b"; Redo] in
  let r' := session (Some "ab")
              [Insert 2 "cd"; Snapshot; Delete 1 1; Insert 1 "X"; Snapshot;
               Undo; Redo; Delete 2 1] in
  returned r = Some [true; true; true; true]
  ∧ size <$> final r = Some 3
  ∧ (final r ≫= λ s, returned (chain_length s)) = Some 1
  ∧ document r = Some "a"
  ∧ size <$> final r' = Some 3
  ∧ (final r' ≫= λ s, returned (chain_length s)) = Some 2
  ∧ document r' = Some "ad".
Proof. vm_compute. done. Qed.

(** C4: after a midway insert the cached piece is the middle one of the
    new span [Before, After] and its bytes end at the tail of the
    buffer, yet cache_contains walks no further than new.start and
    answers false: the next insert into the cached piece takes the slow
    path and records a second change with three more pieces. *)
Theorem midway_cache_misses_fast_path :
  ∃ s N B C s',
    final (session (Some "abcdef") [Insert 3 "XYZ"]) = Some s
    ∧ piece_get 5 s = Ok (mkLocation (Some 5%nat) 2) s
    ∧ cache s = Some 5%nat
    ∧ current_action s = Some 1%nat
    ∧ hp_action s !! 1%nat = Some (mkAction (Some 2%nat) None)
    ∧ hp_change s !! 2%nat = Some C
    ∧ c_new C = mkSpan (Some 4%nat) (Some 6%nat) 9
    ∧ p_next <$> hp_piece s !! 4%nat = Some (Some 5%nat)
    ∧ hp_piece s !! 5%nat = Some N
    ∧ p_next N = Some 6%nat
    ∧ buffers s = Some 3%nat
    ∧ hp_buffer s !! 3%nat = Some B
    ∧ ends_at_tail N 3%nat B = true
    ∧ cache_contains (Some 5%nat) s = Ok false s
    ∧ editor_insert 5 (list_ascii_of_string "Q") s = Ok true s'
    ∧ base.size (hp_change s) = 1%nat ∧ base.size (hp_change s') = 2%nat
    ∧ piece_count s = 6%nat ∧ piece_count s' = 9%nat
    ∧ p_len <$> hp_piece s' !! 5%nat = Some 3.
Proof.
  do 5 eexists. repeat (split; [vm_compute; reflexivity|]).
  vm_compute; reflexivity.
Qed.

(** C5: a failed allocation must leave the editor as it was.  When the
    Action is allocated and the Change is not, editor_insert returns
    false with the new action pushed on the undo stack and left open;
    when the Piece of a midway delete is not allocated, editor_delete
    (which never checks piece_alloc, unlike editor_insert) dereferences
    the null pointer. *)
Theorem failed_allocation_changes_state :
  ∃ s s' t,
    editor_load [true; true; false] None = Some s
    ∧ editor_insert 0 (list_ascii_of_string "a") s = Ok false s'
    ∧ undo s = None ∧ undo s' = Some 1%nat
    ∧ current_action s = None ∧ current_action s' = Some 1%nat
    ∧ hp_action s = ∅ ∧ hp_action s' !! 1%nat = Some (mkAction None None)
    ∧ editor_load [true; true; true; true; false]
        (Some (list_ascii_of_string "ab")) = Some t
    ∧ editor_delete 1 1 t = Crash.
Proof.
  do 3 eexists. repeat (split; [vm_compute; reflexivity|]).
  vm_compute; reflexivity.
Qed.

(** The guard of editor_delete adds in size_t: for pos = 2^64 - 1 and
    len = 2 the sum wraps to 1, the guard lets the call through,
    piece_get finds no piece and the null piece is dereferenced. *)
Remark delete_guard_wraps_around :
  ∃ s,
    editor_load [] (Some (list_ascii_of_string "ab")) = Some s
    ∧ size s = 2
    ∧ (2 ^ 64 - 1) + 2 > size s
    ∧ addw (2 ^ 64 - 1) 2 = 1
    ∧ piece_get (2 ^ 64 - 1) s = Ok (mkLocation None 0) s
    ∧ editor_delete (2 ^ 64 - 1) 2 s = Crash.
Proof.
  eexists. repeat (split; [vm_compute; reflexivity|]).
  vm_compute; reflexivity.
Qed.

(** ** Counterexamples to claims the code departs from by design *)

(** C3, as stated: after an undo that returned true, a delete of no
    bytes succeeds without touching anything, and an insert into an
    action still open adds to that action: in both runs the redo stack
    keeps its action. *)
Lemma redo_stack_survives_edit :
  let r1 := session None [Insert 0 "a"; Snapshot; Undo; Delete 0 0] in
  let r2 := session None [Insert 0 "a"; Undo; Insert 0 "b"] in
  returned r1 = Some [true; true; true; true]
  ∧ redo <$> final r1 = Some (Some 1%nat)
  ∧ (final r1 ≫= λ s, hp_action s !! 1%nat) = Some (mkAction (Some 2%nat) None)
  ∧ returned r2 = Some [true; true; true]
  ∧ redo <$> final r2 = Some (Some 1%nat)
  ∧ (final r2 ≫= λ s, hp_action s !! 1%nat) = Some (mkAction (Some 4%nat) None).
Proof. vm_compute. done. Qed.

(** C7, as stated: on the empty document locate(size) is the begin
    sentinel, there being no real piece. *)
Lemma locate_size_of_empty_document :
  ∃ s,
    editor_load [] None = Some s
    ∧ size s = 0
    ∧ dom (hp_piece s) = {[begin_; end_]}
    ∧ piece_get (size s) s = Ok (mkLocation (Some begin_) 0) s.
Proof.
  eexists. split; [reflexivity|]. split; [reflexivity|]. split.
  - apply set_eq. intros i. rewrite elem_of_dom. cbn.
    rewrite !lookup_insert. unfold begin_, end_.
    repeat case_decide; subst; rewrite ?lookup_empty; set_solver.
  - vm_compute. reflexivity.
Qed.

(** C10, as stated: editor_replace does not return at all when pos is
    beyond the end of the document, editor_insert dereferencing the null
    piece that piece_get reports. *)
Lemma replace_beyond_end_crashes :
  session (Some "ab") [Replace 5 "x"] = Crash.
Proof. vm_compute. reflexivity. Qed.

(** ** Undo and redo leave the current action open *)

Lemma insert_into_open_action a pos text s s' :
  current_action s = Some a →
  editor_insert pos text s = Ok true s' →
  current_action s' = Some a ∧ undo s' = undo s ∧ redo s' = redo s
  ∧ if insert_absorbed pos text s then no_change_allocated s s'
    else receives_change a s s'.
Proof.
  intros Ha H.
  apply editor_insert_steps in H
    as (loc & Hget & [[_ Hhit]|[Hmiss (c & s1 & Hc & Hpost)]]);
    unfold insert_absorbed; rewrite Hget.
  - cbn in Hhit. rewrite Hhit.
    destruct (edit_frame_cache_insert _ _ _ _ _ _ _ Hhit) as (?&?&?&?&?&?&_).
    split_and!; try congruence. by split.
  - cbn in Hmiss. rewrite Hmiss. destruct c as [ci|]; [|by destruct Hpost].
    destruct (edit_receives_change a s s1 s') as (?&?&?&?); eauto.
Qed.

Lemma delete_into_open_action a pos len s s' :
  current_action s = Some a →
  editor_delete pos len s = Ok true s' →
  current_action s' = Some a ∧ undo s' = undo s ∧ redo s' = redo s
  ∧ if (len =? 0)%Z || delete_absorbed pos len s then no_change_allocated s s'
    else receives_change a s s'.
Proof.
  intros Ha H.
  apply editor_delete_steps in H
    as [(-> & _ & ->)|[(_ & _ & ? & _)
       |(Hlen & _ & loc & Hget & [[_ Hhit]|[Hmiss (c & s1 & Hc & Hpost)]])]].
  - by split_and!.
  - done.
  - apply Z.eqb_neq in Hlen. rewrite Hlen. cbn [orb].
    unfold delete_absorbed. rewrite Hget. cbn in Hhit. rewrite Hhit.
    destruct (edit_frame_cache_delete _ _ _ _ _ _ Hhit) as (?&?&?&?&?&?&_).
    split_and!; try congruence. by split.
  - apply Z.eqb_neq in Hlen. rewrite Hlen. cbn [orb].
    unfold delete_absorbed. rewrite Hget. cbn in Hmiss. rewrite Hmiss.
    destruct c as [ci|]; [|by destruct Hpost].
    destruct (edit_receives_change a s s1 s') as (?&?&?&?); eauto.
Qed.

(** Successful inserts and deletes keep an open action current and the
    two stacks as they are. *)
Lemma edited_keeps_open a s s' :
  current_action s = Some a →
  rtc edited s s' →
  current_action s' = Some a ∧ undo s' = undo s ∧ redo s' = redo s.
Proof.
  intros Ha Hrun. revert Ha.
  induction Hrun as [s|s s1 s' Hstep _ IH]; [done|]. intros Ha.
  assert (current_action s1 = Some a ∧ undo s1 = undo s ∧ redo s1 = redo s)
    as (Ha1 & Hu & Hr).
  { destruct Hstep as [(pos & text & H)|(pos & len & H)].
    - by destruct (insert_into_open_action a _ _ _ _ Ha H) as (?&?&?&_).
    - by destruct (delete_into_open_action a _ _ _ _ Ha H) as (?&?&?&_). }
  destruct (IH Ha1) as (?&?&?). split_and!; congruence.
Qed.

(** C9: editor_undo and editor_redo change nothing but the links of
    pieces, the size and the two stacks; the current action, the cache
    and the saved action stay as they are.  An action open at that
    moment stays the current one through every successful insert and
    delete that follows: no action is pushed and the redo stack is
    kept.  Each of these edits that the cache does not absorb (and that
    is not a delete of no byte) allocates a Change and puts it in front
    of the changes of that action, touching no other action and no
    other link between changes; an edit the cache absorbs allocates
    none. *)
Theorem undo_redo_leave_action_open s b s1 :
  editor_undo s = Ok b s1 ∨ editor_redo s = Ok b s1 →
  undo_redo_frame s s1
  ∧ ∀ a s2 s3,
      current_action s = Some a →
      rtc edited s1 s2 →
      (∀ pos text,
         editor_insert pos text s2 = Ok true s3 →
         current_action s3 = Some a ∧ undo s3 = undo s1 ∧ redo s3 = redo s1
         ∧ if insert_absorbed pos text s2 then no_change_allocated s2 s3
           else receives_change a s2 s3)
      ∧ (∀ pos len,
           editor_delete pos len s2 = Ok true s3 →
           current_action s3 = Some a ∧ undo s3 = undo s1 ∧ redo s3 = redo s1
           ∧ if (len =? 0)%Z || delete_absorbed pos len s2
             then no_change_allocated s2 s3
             else receives_change a s2 s3).
Proof.
  intros H.
  assert (undo_redo_frame s s1) as Hf.
  { destruct H as [H|H];
      [by eapply undo_redo_frame_undo|by eapply undo_redo_frame_redo]. }
  split; [done|]. intros a s2 s3 Ha Hrun.
  assert (current_action s1 = Some a) as Ha1
    by (destruct Hf as (-> & _); done).
  destruct (edited_keeps_open a s1 s2 Ha1 Hrun) as (Ha2 & Hu & Hr).
  split; intros pos ? Hedit.
  - destruct (insert_into_open_action a _ _ _ _ Ha2 Hedit) as (?&?&?&?).
    split_and!; [done|congruence|congruence|done].
  - destruct (delete_into_open_action a _ _ _ _ Ha2 Hedit) as (?&?&?&?).
    split_and!; [done|congruence|congruence|done].
Qed.

Lemma undo_redo_leave_action_open_witness :
  ∃ s s1 s2 s3 A,
    final (session None [Insert 0 "a"]) = Some s
    ∧ current_action s = Some 1%nat
    ∧ editor_undo s = Ok true s1
    ∧ editor_insert 0 (list_ascii_of_string "b") s1 = Ok true s2
    ∧ editor_insert 0 (list_ascii_of_string "c") s2 = Ok true s3
    ∧ undo_redo_frame s s1
    ∧ current_action s3 = Some 1%nat ∧ undo s3 = undo s1 ∧ redo s3 = redo s1
    ∧ insert_absorbed 0 (list_ascii_of_string "c") s2 = false
    ∧ receives_change 1%nat s2 s3
    ∧ hp_action s2 !! 1%nat = Some A
    ∧ hp_action s3 !! 1%nat = Some (set_a_change (Some (brk s2)) A)
    ∧ c_next <$> hp_change s3 !! brk s2 = Some (a_change A).
Proof.
  do 5 eexists.
  split; [vm_compute; reflexivity|].
  split; [reflexivity|].
  split; [vm_compute; reflexivity|].
  split; [vm_compute; reflexivity|].
  split; [vm_compute; reflexivity|].
  match goal with
  | |- undo_redo_frame ?s ?s1 ∧ current_action ?s3 = _ ∧ _ ∧ _
       ∧ insert_absorbed _ _ ?s2 = _ ∧ _ =>
    destruct (undo_redo_leave_action_open s true s1) as [Hf Hopen];
      [left; vm_compute; reflexivity|];
    destruct (Hopen 1%nat s2 s3) as [Hins _];
      [reflexivity
      |apply rtc_once; left;
       exists 0, (list_ascii_of_string "b"); vm_compute; reflexivity|];
    destruct (Hins 0 (list_ascii_of_string "c")) as (Ha & Hu & Hr & Hrc);
      [vm_compute; reflexivity|];
    assert (insert_absorbed 0 (list_ascii_of_string "c") s2 = false) as Habs
      by (vm_compute; reflexivity)
  end.
  rewrite Habs in Hrc.
  split; [exact Hf|]. split; [exact Ha|]. split; [exact Hu|].
  split; [exact Hr|]. split; [exact Habs|]. split; [exact Hrc|].
  split; [vm_compute; reflexivity|].
  split; vm_compute; reflexivity.
Defined.

(** ** The guards of delete *)

(** C8, as stated: a delete of no bytes succeeds even when pos lies
    beyond the size, the test for no bytes coming first. *)
Lemma delete_nothing_beyond_size_succeeds :
  ∃ s,
    editor_load [] (Some (list_ascii_of_string "ab")) = Some s
    ∧ 5 + 0 > size s
    ∧ editor_delete 5 0 s = Ok true s.
Proof.
  eexists. split; [vm_compute; reflexivity|].
  split; vm_compute; reflexivity.
Qed.

(** C8, amended: a delete of no bytes returns success and leaves the
    editor as it is; a delete of at least one byte with pos + len beyond
    the size, the sum fitting size_t, returns failure and leaves the
    editor as it is. *)
Theorem editor_delete_guards pos len s :
  (len = 0 → editor_delete pos len s = Ok true s)
  ∧ (len ≠ 0 → 0 ≤ pos + len < SIZE_MOD → pos + len > size s →
     editor_delete pos len s = Ok false s).
Proof.
  unfold editor_delete. split.
  - by intros ->.
  - intros Hlen Hrange Hgt. apply Z.eqb_neq in Hlen. rewrite Hlen.
    unfold bind, gets, addw, wrap. rewrite Z.mod_small by done.
    destruct (Z.gtb_spec (pos + len) (size s)); [done|lia].
Qed.

Lemma editor_delete_guards_witness :
  ∃ s,
    editor_load [] (Some (list_ascii_of_string "ab")) = Some s
    ∧ editor_delete 1 0 s = Ok true s
    ∧ editor_delete 1 2 s = Ok false s.
Proof.
  eexists. split; [vm_compute; reflexivity|].
  match goal with
  | |- editor_delete _ _ ?s = _ ∧ _ =>
    split;
      [ apply (proj1 (editor_delete_guards 1 0 s)); reflexivity
      | apply (proj2 (editor_delete_guards 1 2 s));
          [lia | vm_compute; split; congruence | vm_compute; reflexivity] ]
  end.
Defined.

(** ** Replace *)

(** C10, amended: editor_replace returns true exactly when the delete
    and the insert it calls both return, whatever they report; when the
    delete is refused because pos + strlen(text) exceeds the size, the
    insert still runs, on the document as it was. *)
Theorem editor_replace_true pos text s :
  (∀ b s',
     editor_replace pos text s = Ok b s' ↔
     b = true
     ∧ ∃ b1 s1 b2,
         editor_delete pos (Z.of_nat (strlen text)) s = Ok b1 s1
         ∧ editor_insert pos text s1 = Ok b2 s')
  ∧ (editor_delete pos (Z.of_nat (strlen text)) s = Ok false s →
     ∀ b2 s', editor_insert pos text s = Ok b2 s' →
              editor_replace pos text s = Ok true s').
Proof.
  split.
  - intros b s'. unfold editor_replace. split.
    + intros (b1 & s1 & H1 & H)%bind_inv.
      apply bind_inv in H as (b2 & s2 & H2 & [-> ->]%ret_inv). eauto 10.
    + intros (-> & b1 & s1 & b2 & H1 & H2).
      by rewrite (bind_Ok _ _ _ _ _ H1), (bind_Ok _ _ _ _ _ H2).
  - intros H1 b2 s' H2. unfold editor_replace.
    by rewrite (bind_Ok _ _ _ _ _ H1), (bind_Ok _ _ _ _ _ H2).
Qed.

(** The delete refused, the insert done; and the delete done, the
    insert failing on an allocation: both times replace returns true,
    the second time on a document that lost a byte and gained none. *)
Lemma editor_replace_true_witness :
  ∃ s s' t t1 t',
    editor_load [] (Some (list_ascii_of_string "ab")) = Some s
    ∧ editor_delete 1 3 s = Ok false s
    ∧ editor_replace 1 (list_ascii_of_string "xyz") s = Ok true s'
    ∧ document (Ok true s') = Some "axyzb"
    ∧ editor_load [true; true; true; true; true; false]
        (Some (list_ascii_of_string "abc")) = Some t
    ∧ editor_delete 0 1 t = Ok true t1
    ∧ editor_insert 0 (list_ascii_of_string "x") t1 = Ok false t'
    ∧ editor_replace 0 (list_ascii_of_string "x") t = Ok true t'
    ∧ document (Ok true t') = Some "bc".
Proof.
  do 5 eexists.
  split; [vm_compute; reflexivity|].
  split; [vm_compute; reflexivity|].
  split.
  { match goal with
    | |- editor_replace ?pos ?text ?s = _ =>
      eapply (proj2 (editor_replace_true pos text s));
        [vm_compute; reflexivity|vm_compute; reflexivity]
    end. }
  split; [vm_compute; reflexivity|].
  split; [vm_compute; reflexivity|].
  split; [vm_compute; reflexivity|].
  split; [vm_compute; reflexivity|].
  split; [|vm_compute; reflexivity].
  match goal with
  | |- editor_replace ?pos ?text ?s = Ok true ?t =>
    apply (proj2 (proj1 (editor_replace_true pos text s) true t));
      split; [reflexivity|]; do 3 eexists;
      split; [vm_compute; reflexivity|vm_compute; reflexivity]
  end.
Defined.

(** ** Positional lookup *)

Local Close Scope string_scope.

(** C7, amended: on a consistent editor, for every pos from 0 to size,
    piece_get returns the first piece of the chain (counted from the
    begin sentinel) whose closed range [cur, cur + len] holds pos, with
    the offset pos - cur.  When pos is the right boundary of a piece the
    piece returned lies at or left of it and the offset is the length of
    the piece returned; piece_get(0) is (begin, 0); piece_get(size) is
    the last real piece with its length as offset whenever that piece
    has positive length. *)
Theorem piece_get_first_fit s l e pos :
  consistent s l e →
  0 ≤ pos ≤ size s →
  ∃ l1 q l2,
    l = l1 ++ q :: l2
    ∧ piece_get pos s
      = Ok (mkLocation (Some q) (pos - total_len (hp_piece s) l1)) s
    ∧ total_len (hp_piece s) l1 ≤ pos
      ≤ total_len (hp_piece s) l1 + len_of (hp_piece s) q
    ∧ (∀ l1a r l1b,
         l1 = l1a ++ r :: l1b →
         ¬ (total_len (hp_piece s) l1a ≤ pos
            ≤ total_len (hp_piece s) l1a + len_of (hp_piece s) r))
    ∧ (∀ la r lb,
         l = la ++ r :: lb →
         pos = total_len (hp_piece s) la + len_of (hp_piece s) r →
         pos - total_len (hp_piece s) l1 = len_of (hp_piece s) q
         ∧ ∃ k, la ++ [r] = (l1 ++ [q]) ++ k)
    ∧ (pos = 0 → q = begin_ ∧ l1 = [] ∧ pos - total_len (hp_piece s) l1 = 0)
    ∧ (pos = size s →
       ∀ l' r, l = l' ++ [r] → 0 < len_of (hp_piece s) r →
               q = r ∧ pos - total_len (hp_piece s) l1 = len_of (hp_piece s) r).
Proof.
  intros (Hch & Hne & Hlen & Hsize & Hmax) Hpos.
  destruct (piece_get_loop_first_fit s pos l (S (base.size (hp_piece s)))
              (Some begin_) 0 e)
    as (l1 & q & l2 & El & Hget & Hq & Hfirst);
    [done|pose proof (chain_bounded _ _ _ _ Hch); lia|done|done|lia|lia|lia|].
  rewrite Z.add_0_l in Hget, Hq.
  exists l1, q, l2. split; [done|].
  split; [by unfold piece_get, bind, gets|]. split; [done|].
  pose proof Hlen as Hlen'. rewrite El in Hlen'.
  apply Forall_app in Hlen' as [Hl1 [Hq0 Hl2]%Forall_cons].
  pose proof (total_len_nonneg _ _ Hl1) as Hn1.
  pose proof (total_len_nonneg _ _ Hl2) as Hn2.
  split; [|split; [|split]].
  - intros l1a r l1b E. specialize (Hfirst l1a r l1b E).
    by rewrite !Z.add_0_l in Hfirst.
  - intros la r lb Ela Hb.
    assert (0 ≤ len_of (hp_piece s) r) as Hr.
    { apply (proj1 (Forall_forall _ _) Hlen r). rewrite Ela.
      apply elem_of_app. right. apply elem_of_cons. by left. }
    rewrite El in Ela. apply app_eq_app in Ela as [k [[E1 E2]|[E1 E2]]].
    + destruct k as [|r' k]; cbn in E2.
      * injection E2 as -> ->. rewrite app_nil_r in E1. subst la.
        split; [lia|]. exists []. by rewrite app_nil_r.
      * injection E2 as <- ->. exfalso.
        specialize (Hfirst la r k E1). rewrite !Z.add_0_l in Hfirst.
        apply Hfirst. lia.
    + destruct k as [|q' k]; cbn in E2.
      * injection E2 as -> ->. rewrite app_nil_r in E1. subst la.
        split; [lia|]. exists []. by rewrite app_nil_r.
      * injection E2 as <- ->. subst la.
        rewrite total_len_app, total_len_cons in Hb.
        assert (0 ≤ total_len (hp_piece s) k).
        { apply total_len_nonneg.
          apply Forall_app in Hl2 as [? _]. done. }
        split; [lia|]. exists (k ++ [r]).
        by rewrite <-!app_assoc.
  - intros ->. destruct l1 as [|b l1].
    + cbn in El. subst l. destruct Hch as ([= <-] & _). done.
    + exfalso. specialize (Hfirst [] b l1 eq_refl).
      apply Hfirst. change (total_len (hp_piece s) []) with 0.
      apply Forall_cons in Hl1 as [? _]. lia.
  - intros -> l' r El' Hr. rewrite El in El'.
    destruct l2 as [|x l2] using rev_ind.
    + apply (app_inj_2 _ _ [_] [_]) in El' as [-> [= ->]]; [|done].
      split; [done|]. rewrite Hsize, El, total_len_app, total_len_cons.
      change (total_len (hp_piece s) []) with 0. lia.
    + exfalso. clear IHl2.
      rewrite app_comm_cons, app_assoc in El'.
      apply (app_inj_2 _ _ [_] [_]) in El' as [_ [= ->]]; [|done].
      rewrite Hsize, El, total_len_app, total_len_cons, total_len_app,
        total_len_cons in Hq.
      change (total_len (hp_piece s) []) with 0 in Hq.
      apply Forall_app in Hl2 as [Hl2 _].
      pose proof (total_len_nonneg _ _ Hl2). lia.
Qed.

Lemma piece_get_first_fit_witness :
  ∃ s,
    final (session (Some "abcdef"%string) [Insert 3 "XYZ"%string]) = Some s
    ∧ consistent s [1; 4; 5; 6]%nat 2%nat
    ∧ 0 ≤ 3 ≤ size s
    ∧ ∃ l1 q l2,
        [1; 4; 5; 6]%nat = l1 ++ q :: l2
        ∧ piece_get 3 s
          = Ok (mkLocation (Some q) (3 - total_len (hp_piece s) l1)) s
        ∧ 3 - total_len (hp_piece s) l1 = len_of (hp_piece s) q.
Proof.
  eexists. split; [vm_compute; reflexivity|].
  match goal with |- consistent ?s ?l ?e ∧ _ =>
    assert (consistent s l e) as Hc end.
  { unfold consistent. split_and!.
    - cbn [chain].
      repeat (split; [reflexivity|]; eexists; split; [vm_compute; reflexivity|];
              split; [vm_compute; by eexists|]).
      split; [reflexivity|]. eexists. split; vm_compute; reflexivity.
    - done.
    - repeat constructor; vm_compute; congruence.
    - vm_compute; reflexivity.
    - vm_compute; reflexivity. }
  split; [exact Hc|].
  split; [vm_compute; split; congruence|].
  destruct (piece_get_first_fit _ _ _ 3 Hc)
    as (l1 & q & l2 & El & Hget & _ & _ & Htie & _);
    [vm_compute; split; congruence|].
  exists l1, q, l2. split; [exact El|]. split; [exact Hget|].
  apply (Htie [1%nat] 4%nat [5; 6]%nat); [reflexivity|vm_compute; reflexivity].
Defined.

(** ** Redo invalidation *)

Lemma action_freed_edit_frame s s1 s' a :
  heap_fresh s →
  piece_count s1 = piece_count s →
  edit_frame s1 s' →
  action_freed s s1 a → action_freed s s' a.
Proof.
  intros (Hfp & _) Hpc (_ & _ & _ & _ & Hact & Hch & _ & Hp)
    (Hn & A & cs & HA & Hcs & Hall).
  split; [by rewrite Hact|]. exists A, cs. split; [done|]. split; [done|].
  eapply Forall_impl; [exact Hall|]. intros c (Hnc & C & HC & Hnew).
  split.
  - specialize (Hch c). rewrite Hnc in Hch. by apply fmap_None in Hch.
  - exists C. split; [done|]. intros p Hp'.
    destruct (Hnew p Hp') as [Hs Hnp]. split; [done|].
    apply Hp; [|done]. rewrite Hpc. by apply Hfp.
Qed.

Lemma heap_fresh_check s :
  map_Forall (λ i _, (i ≤ piece_count s)%nat) (hp_piece s) →
  map_Forall (λ i _, (i < brk s)%nat) (hp_change s) →
  map_Forall (λ i _, (i < brk s)%nat) (hp_action s) →
  heap_fresh s.
Proof.
  intros Hp Hc Ha.
  split_and!; intros i [x Hx]; [by eapply Hp|by eapply Hc|by eapply Ha].
Qed.

(** C3, amended: after an undo that returned true, with no action open
    (as after a snapshot), the next insert, or delete of at least one
    byte, that returns true leaves the redo stack empty; every action
    that was on the redo stack, its top first, is freed together with
    its changes and the pieces new.start and new.end of each. *)
Theorem redo_invalidation s0 s s' :
  editor_undo s0 = Ok true s →
  current_action s = None →
  heap_fresh s →
  (∃ pos text, editor_insert pos text s = Ok true s')
  ∨ (∃ pos len, len ≠ 0 ∧ editor_delete pos len s = Ok true s') →
  redo s' = None
  ∧ ∃ a l,
      redo s = Some a
      ∧ astack (hp_action s) (redo s) (a :: l)
      ∧ Forall (action_freed s s') (a :: l).
Proof.
  intros Hundo Hcur Hfresh Hedit.
  destruct (editor_undo_pushes_redo _ _ Hundo) as [a Ha].
  assert (∃ c s1, change_alloc s = Ok (Some c) s1 ∧ edit_frame s1 s')
    as (c & s1 & Hc & Hframe).
  { destruct Hedit as [(pos & text & H)|(pos & len & Hlen & H)].
    - apply editor_insert_steps in H as (loc & _ & [[_ Hhit]|[_ (c & s1 & Hc & Hpost)]]).
      + by rewrite cache_insert_no_action in Hhit.
      + destruct c as [c|]; [eauto|by destruct Hpost].
    - apply editor_delete_steps in H
        as [(? & _)|[(_ & _ & ? & _)|(_ & _ & loc & _ & [[_ Hhit]|[_ (c & s1 & Hc & Hpost)]])]];
        [done|done| |].
      + by rewrite cache_delete_no_action in Hhit.
      + destruct c as [c|]; [eauto|by destruct Hpost]. }
  destruct (change_alloc_closed _ _ _ Hcur Hfresh Hc) as (Hr & Hpc & l & Hl & Hall).
  split; [destruct Hframe as (_ & -> & _); done|].
  destruct l as [|a' l]; [by rewrite Ha in Hl|].
  pose proof Hl as (Ea & _). rewrite Ha in Ea. injection Ea as <-.
  exists a, l. split; [done|]. split; [done|].
  eapply Forall_impl; [exact Hall|]. intros x.
  by apply action_freed_edit_frame.
Qed.

Lemma redo_invalidation_witness :
  ∃ s0 s s',
    final (session None [Insert 0 "a"; Snapshot]) = Some s0
    ∧ editor_undo s0 = Ok true s
    ∧ current_action s = None
    ∧ heap_fresh s
    ∧ editor_insert 0 (list_ascii_of_string "b") s = Ok true s'
    ∧ redo s' = None
    ∧ ∃ a l,
        redo s = Some a
        ∧ astack (hp_action s) (redo s) (a :: l)
        ∧ Forall (action_freed s s') (a :: l).
Proof.
  do 3 eexists.
  split; [vm_compute; reflexivity|].
  match goal with |- editor_undo ?a = Ok true ?b ∧ _ =>
    assert (editor_undo a = Ok true b) as Hu by (vm_compute; reflexivity) end.
  split; [exact Hu|].
  split; [reflexivity|].
  match goal with |- heap_fresh ?s ∧ _ => assert (heap_fresh s) as Hf end.
  { apply heap_fresh_check; apply (bool_decide_unpack _); vm_compute; exact I. }
  split; [exact Hf|].
  match goal with |- ?e = Ok true ?b ∧ _ =>
    assert (e = Ok true b) as Hi by (vm_compute; reflexivity) end.
  split; [exact Hi|].
  apply (redo_invalidation _ _ _ Hu eq_refl Hf).
  left. eexists 0, (list_ascii_of_string "b"). exact Hi.
Defined.

(** ** Insert into the middle of a piece *)



Lemma span_len_midway k len l :
  0 < k < l → 0 ≤ len → len + l < SIZE_MOD →
  addw (addw (addw 0 k) len) (subw l k) = len + l.
Proof.
  intros Hk Hlen Hl. unfold addw, subw, wrap.
  rewrite (Z.mod_small (0 + k)), (Z.mod_small (k + len)),
    (Z.mod_small (l - k)), Z.mod_small by lia. lia.
Qed.

Lemma addw_0_small l : 0 < l → l < SIZE_MOD → addw 0 l = l.
Proof. intros Hl Hm. unfold addw, wrap. rewrite Z.mod_small; lia. Qed.

Lemma subw_small l k : 0 < k < l → l < SIZE_MOD → subw l k = l - k.
Proof. intros Hk Hm. unfold subw, wrap. rewrite Z.mod_small; lia. Qed.




(** * More of the editor *)

(** ** Fields an operation leaves alone *)

#[local] Instance keeps_preorder {A} (f : state → A) : PreOrder (keeps f).
Proof. split; [by intros s|intros s1 s2 s3 H1 H2; unfold keeps in *; congruence]. Qed.

Ltac keeps_step :=
  first
    [ pres_step
    | apply preserves_modify; intros ?; reflexivity
    | apply preserves_modify; intros ?; unfold keeps; cbn;
      repeat case_bool_decide; reflexivity ].

Lemma keeps_span_swap {A} (f : state → A) old new :
  (∀ h s, f (set_hp_piece h s) = f s) → (∀ z s, f (set_size z s) = f s) →
  preserves (keeps f) (span_swap old new).
Proof.
  intros Hp Hz. unfold span_swap, store_piece.
  repeat first
    [ pres_step
    | apply preserves_modify; intros ?; unfold keeps; by rewrite ?Hp, ?Hz ].
Qed.

Lemma keeps_undo_loop {A} (f : state → A) n c :
  (∀ h s, f (set_hp_piece h s) = f s) → (∀ z s, f (set_size z s) = f s) →
  preserves (keeps f) (undo_loop n c).
Proof.
  intros Hp Hz. revert c.
  induction n as [|n IH]; intros c; cbn; repeat pres_step; auto.
  by apply keeps_span_swap.
Qed.

Lemma keeps_redo_loop {A} (f : state → A) n c :
  (∀ h s, f (set_hp_piece h s) = f s) → (∀ z s, f (set_size z s) = f s) →
  preserves (keeps f) (redo_loop n c).
Proof.
  intros Hp Hz. revert c.
  induction n as [|n IH]; intros c; cbn; repeat pres_step; auto.
  by apply keeps_span_swap.
Qed.


Lemma keeps_piece_free {A} (f : state → A) p :
  (∀ h s, f (set_hp_piece h s) = f s) → (∀ c s, f (set_cache c s) = f s) →
  preserves (keeps f) (piece_free p).
Proof.
  intros Hp Hc. unfold piece_free.
  repeat first
    [ pres_step
    | apply preserves_modify; intros ?; unfold keeps;
      repeat case_bool_decide; by rewrite ?Hp, ?Hc ].
Qed.

Lemma keeps_change_free {A} (f : state → A) c :
  (∀ h s, f (set_hp_piece h s) = f s) → (∀ c s, f (set_cache c s) = f s) →
  (∀ h s, f (set_hp_change h s) = f s) →
  preserves (keeps f) (change_free c).
Proof.
  intros Hp Hc Hch. unfold change_free.
  repeat first
    [ pres_step
    | by apply keeps_piece_free
    | apply preserves_modify; intros ?; unfold keeps; by rewrite ?Hch ].
Qed.

Lemma keeps_action_free_loop {A} (f : state → A) n c :
  (∀ h s, f (set_hp_piece h s) = f s) → (∀ c s, f (set_cache c s) = f s) →
  (∀ h s, f (set_hp_change h s) = f s) →
  preserves (keeps f) (action_free_loop n c).
Proof.
  intros Hp Hc Hch. revert c.
  induction n as [|n IH]; intros c; cbn; repeat pres_step; auto.
  by apply keeps_change_free.
Qed.

Lemma keeps_drain_redo {A} (f : state → A) n :
  (∀ h s, f (set_hp_piece h s) = f s) → (∀ c s, f (set_cache c s) = f s) →
  (∀ h s, f (set_hp_change h s) = f s) →
  (∀ h s, f (set_hp_action h s) = f s) → (∀ r s, f (set_redo r s) = f s) →
  preserves (keeps f) (drain_redo n).
Proof.
  intros Hp Hc Hch Ha Hr.
  induction n as [|n IH]; cbn; [pres_step|].
  unfold action_pop, action_free.
  repeat first
    [ pres_step
    | assumption
    | by apply keeps_action_free_loop
    | apply preserves_modify; intros ?; unfold keeps; cbn; by rewrite ?Ha, ?Hr ].
Qed.

(** ** Moving actions between the stacks *)

Lemma move_action (from to : stack) (loop : nat → ptr → M unit) s b s' :
  from ≠ to →
  (∀ n c, preserves (keeps stacks) (loop n c)) →
  (let! a := action_pop from in
   match a with
   | None => ret false
   | Some _ =>
     let! A := load_action a in
     let! fuel := gets (λ s, S (base.size (hp_change s))) in
     let! _ := loop fuel (a_change A) in
     let! _ := action_push to a in
     ret true
   end) s = Ok b s' →
  if b then
    ∃ a A, stack_top from s = Some a ∧ hp_action s !! a = Some A
      ∧ stack_top from s' = a_next A ∧ stack_top to s' = Some a
      ∧ hp_action s' = <[a := set_a_next (stack_top to s) A]> (hp_action s)
  else stack_top from s = None ∧ s' = s.
Proof.
  intros Hne Hloop (a & s1 & H1 & H)%bind_inv.
  unfold action_pop in H1.
  apply bind_inv in H1 as (top & s0 & [-> ->]%gets_inv & H1).
  destruct (stack_top from s) as [a0|] eqn:Etop.
  - apply bind_inv in H1 as (A & s0 & [-> (j & [= <-] & Hj)]%load_action_inv & H1).
    apply bind_inv in H1 as (u1 & s0 & ->%modify_inv & [-> ->]%ret_inv).
    apply bind_inv in H as (A' & s0 & [-> (j & [= <-] & Hj')]%load_action_inv & H).
    apply bind_inv in H as (fuel & s0 & [-> ->]%gets_inv & H).
    apply bind_inv in H as (u2 & s2 & Hl & H).
    apply bind_inv in H as (u3 & s3 & Hpush & [-> ->]%ret_inv).
    apply Hloop in Hl. unfold keeps, stacks in Hl.
    unfold action_push in Hpush.
    apply bind_inv in Hpush as (top & s0 & [-> ->]%gets_inv & Hpush).
    apply bind_inv in Hpush
      as (u4 & s0 & (i & A2 & [= <-] & HA2 & ->)%store_action_inv & ->%modify_inv).
    exists a0, A.
    destruct from, to; try done; cbn in *; simplify_eq;
      rewrite H in HA2 |- *; rewrite Hj in HA2; injection HA2 as <-;
      rewrite ?H0, ?H1; by split_and!.
  - apply ret_inv in H1 as [-> ->]. by apply ret_inv in H as [-> ->].
Qed.

Lemma keeps_stacks_undo_loop n c : preserves (keeps stacks) (undo_loop n c).
Proof. by apply keeps_undo_loop. Qed.
Lemma keeps_stacks_redo_loop n c : preserves (keeps stacks) (redo_loop n c).
Proof. by apply keeps_redo_loop. Qed.

(** X1: editor_undo returns false exactly when the undo stack is empty,
    and the editor is then left as it was; the same holds for
    editor_redo and the redo stack. *)
Theorem undo_redo_on_empty_stack s s' :
  (editor_undo s = Ok false s' ↔ undo s = None ∧ s' = s)
  ∧ (editor_redo s = Ok false s' ↔ redo s = None ∧ s' = s).
Proof.
  split; split.
  - intros H. by apply (move_action UndoStack RedoStack undo_loop) in H;
      [|done|apply keeps_stacks_undo_loop].
  - intros [H ->]. unfold editor_undo, action_pop, bind, gets. cbn. by rewrite H.
  - intros H. by apply (move_action RedoStack UndoStack redo_loop) in H;
      [|done|apply keeps_stacks_redo_loop].
  - intros [H ->]. unfold editor_redo, action_pop, bind, gets. cbn. by rewrite H.
Qed.

Lemma undo_redo_on_empty_stack_witness :
  ∃ s, editor_load [] None = Some s
    ∧ editor_undo s = Ok false s ∧ editor_redo s = Ok false s.
Proof.
  eexists. split; [vm_compute; reflexivity|].
  match goal with |- editor_undo ?s = _ ∧ _ =>
    split;
      [ apply (proj2 (proj1 (undo_redo_on_empty_stack s s))); by split
      | apply (proj2 (proj2 (undo_redo_on_empty_stack s s))); by split ]
  end.
Defined.

(** X2: an editor_undo that returns true pops the top action of the
    undo stack and pushes this action on the redo stack: the new undo
    top is the old next link of the action, its next link becomes the
    old redo top, and no other action is touched.  editor_redo moves
    the top action of the redo stack to the undo stack in the same
    way. *)
Theorem undo_redo_move_top_action s s' :
  (editor_undo s = Ok true s' →
   ∃ a A, undo s = Some a ∧ hp_action s !! a = Some A
     ∧ undo s' = a_next A ∧ redo s' = Some a
     ∧ hp_action s' = <[a := set_a_next (redo s) A]> (hp_action s))
  ∧ (editor_redo s = Ok true s' →
     ∃ a A, redo s = Some a ∧ hp_action s !! a = Some A
       ∧ redo s' = a_next A ∧ undo s' = Some a
       ∧ hp_action s' = <[a := set_a_next (undo s) A]> (hp_action s)).
Proof.
  split; intros H.
  - by apply (move_action UndoStack RedoStack undo_loop) in H;
      [|done|apply keeps_stacks_undo_loop].
  - by apply (move_action RedoStack UndoStack redo_loop) in H;
      [|done|apply keeps_stacks_redo_loop].
Qed.

Lemma undo_redo_move_top_action_witness :
  ∃ s s',
    final (session None [Insert 0 "a"%string; Snapshot; Insert 1 "b"%string]) = Some s
    ∧ editor_undo s = Ok true s'
    ∧ ∃ a A, undo s = Some a ∧ hp_action s !! a = Some A
        ∧ undo s' = a_next A ∧ redo s' = Some a
        ∧ hp_action s' = <[a := set_a_next (redo s) A]> (hp_action s).
Proof.
  do 2 eexists. split; [vm_compute; reflexivity|].
  match goal with |- editor_undo ?s = Ok true ?s' ∧ _ =>
    assert (editor_undo s = Ok true s') as H by (vm_compute; reflexivity);
    split; [exact H|exact (proj1 (undo_redo_move_top_action s s') H)]
  end.
Defined.

(** X3: after an editor_undo that returned true, an editor_redo that
    returns does so with true and puts the two stacks and every action
    back as they were before the undo. *)
Theorem undo_then_redo_restores_stacks s s1 b s2 :
  editor_undo s = Ok true s1 →
  editor_redo s1 = Ok b s2 →
  b = true ∧ undo s2 = undo s ∧ redo s2 = redo s ∧ hp_action s2 = hp_action s.
Proof.
  intros H1 H2.
  apply (move_action UndoStack RedoStack undo_loop) in H1;
    [|done|apply keeps_stacks_undo_loop].
  apply (move_action RedoStack UndoStack redo_loop) in H2;
    [|done|apply keeps_stacks_redo_loop].
  cbn in H1, H2. destruct H1 as (a & A & Hu & HA & Hu1 & Hr1 & Hh1).
  destruct b; [|destruct H2 as [H2 _]; congruence].
  destruct H2 as (a' & A' & Hr & HA' & Hr2 & Hu2 & Hh2).
  rewrite Hr1 in Hr. injection Hr as <-.
  rewrite Hh1, lookup_insert_eq in HA'. injection HA' as <-.
  split; [done|]. split; [congruence|]. split; [done|].
  rewrite Hh2, Hh1, Hu1, insert_insert_eq. cbn.
  apply insert_id. by destruct A.
Qed.

Lemma undo_then_redo_restores_stacks_witness :
  ∃ s s1 s2,
    final (session None [Insert 0 "a"%string; Snapshot; Insert 1 "b"%string]) = Some s
    ∧ editor_undo s = Ok true s1
    ∧ editor_redo s1 = Ok true s2
    ∧ undo s2 = undo s ∧ redo s2 = redo s ∧ hp_action s2 = hp_action s.
Proof.
  do 3 eexists. split; [vm_compute; reflexivity|].
  match goal with |- editor_undo ?s = Ok true ?s1 ∧ editor_redo _ = Ok true ?s2 ∧ _ =>
    assert (editor_undo s = Ok true s1) as H1 by (vm_compute; reflexivity);
    assert (editor_redo s1 = Ok true s2) as H2 by (vm_compute; reflexivity);
    split; [exact H1|]; split; [exact H2|];
    exact (proj2 (undo_then_redo_restores_stacks s s1 true s2 H1 H2))
  end.
Defined.

(** ** Edits and the undo stack *)

(** X4: a cache_insert or cache_delete that reports a miss has changed
    nothing, whether the piece was not the cached one or the buffer
    refused the bytes. *)
Theorem fast_path_miss_changes_nothing p k text len s s' :
  cache_insert p k text len s = Ok false s'
  ∨ cache_delete p k len s = Ok false s' →
  s' = s.
Proof.
  intros [H|H]; [by eapply cache_insert_miss|by eapply cache_delete_miss].
Qed.

Lemma fast_path_miss_changes_nothing_witness :
  ∃ s,
    final (session (Some "abcdef"%string) [Insert 3 "XYZ"%string]) = Some s
    ∧ cache_insert (Some 5%nat) 2 (list_ascii_of_string "Q") 1 s = Ok false s.
Proof.
  eexists. split; [vm_compute; reflexivity|].
  match goal with |- cache_insert ?p ?k ?t ?n ?s = _ =>
    assert (cache_insert p k t n s = Ok false s) as H by (vm_compute; reflexivity);
    pose proof (fast_path_miss_changes_nothing p k t n s s (or_introl H));
    exact H
  end.
Defined.

(** change_alloc with no action open: a new action, holding the new
    change only, is pushed on the undo stack and becomes the current
    one; the redo stack is emptied. *)
Lemma change_alloc_new_action s c s1 :
  current_action s = None →
  change_alloc s = Ok (Some c) s1 →
  undo s1 = Some (brk s) ∧ current_action s1 = Some (brk s) ∧ redo s1 = None
  ∧ saved_action s1 = saved_action s
  ∧ c = S (brk s)
  ∧ hp_change s1 !! c = Some (mkChange empty_span empty_span None)
  ∧ ∃ A, hp_action s1 !! brk s = Some A ∧ a_next A = undo s
      ∧ a_change A = Some c.
Proof.
  intros Hcur. unfold change_alloc.
  intros (a0 & s0 & [-> ->]%gets_inv & H)%bind_inv. rewrite Hcur in H.
  apply bind_inv in H as (a & sA & Halloc & H).
  destruct a as [a|]; [|by apply ret_inv in H as [? _]].
  unfold action_alloc in Halloc.
  apply bind_inv in Halloc as (ok & sa & [o ->]%alloc_ok_inv & Halloc).
  destruct ok; unfold negb in Halloc; cbv beta iota in Halloc;
    [|by apply ret_inv in Halloc as [? _]].
  apply bind_inv in Halloc as (new & sa & [-> ->]%fresh_inv & Halloc).
  apply bind_inv in Halloc as (u0 & sa & ->%modify_inv & Halloc).
  apply bind_inv in Halloc as (fuel & sa & [-> ->]%gets_inv & Halloc).
  apply bind_inv in Halloc as (u1 & sd & Hdrain & Halloc).
  apply bind_inv in Halloc as (u2 & sa & ->%modify_inv & Halloc).
  apply bind_inv in Halloc as (u3 & sa & Hpush & [[= ->] ->]%ret_inv).
  unfold action_push in Hpush.
  apply bind_inv in Hpush as (top & sb & [-> ->]%gets_inv & Hpush).
  apply bind_inv in Hpush
    as (u4 & sb & (j & A' & [= <-] & HA' & ->)%store_action_inv & ->%modify_inv).
  cbn in HA'.
  pose proof (keeps_drain_redo saved_action _
    ltac:(done) ltac:(done) ltac:(done) ltac:(done) ltac:(done) _ _ _ Hdrain)
    as Hsaved.
  match type of Hdrain with drain_redo _ ?s0 = _ =>
    destruct (drain_redo_spec s0 _ _ _ _ Hdrain) as (l & Hl & Hsh & Hrd & Hall);
      [done..|] end.
  destruct Hsh as (Hsa & Hsc & Hsp & Hpc & Hbrk & Hu & Hc).
  unfold keeps in Hsaved. cbn in Hsa, Hsc, Hsp, Hpc, Hbrk, Hu, Hc, Hsaved.
  apply bind_inv in H as (ok & sa & [o' ->]%alloc_ok_inv & H).
  destruct ok; unfold negb in H; cbv beta iota in H;
    [|by apply ret_inv in H as [? _]].
  apply bind_inv in H as (c' & sa & [-> ->]%fresh_inv & H).
  apply bind_inv in H as (A & sa & [-> (j & [= <-] & HA)]%load_action_inv & H).
  apply bind_inv in H as (u5 & sa & ->%modify_inv & H).
  apply bind_inv in H
    as (u6 & sa & (j & A2 & [= <-] & HA2 & ->)%store_action_inv & [[= ->] ->]%ret_inv).
  cbn in HA, HA2 |- *. rewrite lookup_insert_eq in HA. injection HA as <-.
  rewrite lookup_insert_eq in HA2. injection HA2 as <-.
  pose proof (lookup_weaken _ _ _ _ HA' Hsa) as HA0.
  rewrite lookup_insert_eq in HA0. injection HA0 as <-.
  split_and!; try done; try congruence.
  - by rewrite lookup_insert_eq.
  - eexists. rewrite lookup_insert_eq. split; [done|]. cbn. split; congruence.
Qed.

(** A successful edit with no action open went through change_alloc. *)
Lemma closed_edit_steps s s' :
  current_action s = None →
  (∃ pos text, editor_insert pos text s = Ok true s')
  ∨ (∃ pos len, len ≠ 0 ∧ editor_delete pos len s = Ok true s') →
  ∃ c s1, change_alloc s = Ok (Some c) s1 ∧ edit_frame s1 s'.
Proof.
  intros Hcur [(pos & text & H)|(pos & len & Hlen & H)].
  - apply editor_insert_steps in H as (loc & _ & [[_ Hhit]|[_ (c & s1 & Hc & Hpost)]]).
    + by rewrite cache_insert_no_action in Hhit.
    + destruct c as [c|]; [eauto|by destruct Hpost].
  - apply editor_delete_steps in H
      as [(? & _)|[(_ & _ & ? & _)|(_ & _ & loc & _ & [[_ Hhit]|[_ (c & s1 & Hc & Hpost)]])]];
      [done|done| |].
    + by rewrite cache_delete_no_action in Hhit.
    + destruct c as [c|]; [eauto|by destruct Hpost].
Qed.

(** X5: with no action open (after editor_load or editor_snapshot) an
    insert, or a delete of at least one byte, that returns true pushes
    one new action on the undo stack: it lies above the old top, is the
    current action, holds the change of this edit as its only change,
    and the redo stack is empty. *)
Theorem edit_without_open_action_pushes_one s s' :
  current_action s = None →
  (∃ pos text, editor_insert pos text s = Ok true s')
  ∨ (∃ pos len, len ≠ 0 ∧ editor_delete pos len s = Ok true s') →
  undo s' = Some (brk s) ∧ current_action s' = Some (brk s) ∧ redo s' = None
  ∧ ∃ A C, hp_action s' !! brk s = Some A ∧ a_next A = undo s
      ∧ a_change A = Some (S (brk s))
      ∧ hp_change s' !! S (brk s) = Some C ∧ c_next C = None.
Proof.
  intros Hcur Hedit.
  destruct (closed_edit_steps s s' Hcur Hedit) as (c & s1 & Hc & Hf).
  destruct (change_alloc_new_action s c s1 Hcur Hc)
    as (Hu & Hca & Hr & Hs & -> & HC & A & HA & Hn & Hch).
  destruct Hf as (Hu' & Hr' & Hc' & Hs' & Ha' & Hcn & _).
  split_and!; try congruence.
  specialize (Hcn (S (brk s))). rewrite HC in Hcn. cbn in Hcn.
  destruct (hp_change s' !! S (brk s)) as [C|] eqn:EC; [|done].
  exists A, C. rewrite Ha'. split_and!; try done. by injection Hcn.
Qed.

Lemma edit_without_open_action_pushes_one_witness :
  ∃ s s',
    final (session (Some "ab"%string) [Insert 1 "x"%string; Snapshot]) = Some s
    ∧ current_action s = None
    ∧ editor_delete 0 2 s = Ok true s'
    ∧ undo s' = Some (brk s) ∧ current_action s' = Some (brk s)
    ∧ redo s' = None
    ∧ ∃ A C, hp_action s' !! brk s = Some A ∧ a_next A = undo s
        ∧ a_change A = Some (S (brk s))
        ∧ hp_change s' !! S (brk s) = Some C ∧ c_next C = None.
Proof.
  do 2 eexists. split; [vm_compute; reflexivity|].
  split; [reflexivity|].
  match goal with |- editor_delete ?pos ?len ?s = Ok true ?s' ∧ _ =>
    assert (editor_delete pos len s = Ok true s') as H by (vm_compute; reflexivity);
    split; [exact H|];
    apply (edit_without_open_action_pushes_one s s'); [reflexivity|];
    right; exists pos, len; split; [lia|exact H]
  end.
Defined.

(** X6: in an editor whose saved action is the top of the undo stack
    (a live action or none) and with no action open, editor_modified
    reports false; after an insert, or a delete of at least one byte,
    that returns true it reports true; and an editor_undo that returns
    right after the edit returns true and makes it report false
    again. *)
Theorem edit_marks_modified_undo_unmarks s s' :
  current_action s = None →
  saved_action s = undo s →
  (∀ a, undo s = Some a → (a < brk s)%nat) →
  (∃ pos text, editor_insert pos text s = Ok true s')
  ∨ (∃ pos len, len ≠ 0 ∧ editor_delete pos len s = Ok true s') →
  editor_modified s = Ok false s
  ∧ editor_modified s' = Ok true s'
  ∧ ∀ b s'', editor_undo s' = Ok b s'' →
      b = true ∧ editor_modified s'' = Ok false s''.
Proof.
  intros Hcur Hsaved Hlive Hedit.
  destruct (closed_edit_steps s s' Hcur Hedit) as (c & s1 & Hc & Hf).
  destruct (change_alloc_new_action s c s1 Hcur Hc)
    as (Hu & Hca & Hr & Hs & -> & HC & A & HA & Hn & Hch).
  destruct Hf as (Hu' & Hr' & Hc' & Hs' & Ha' & Hcn & _).
  unfold editor_modified, gets.
  split; [by rewrite Hsaved, bool_decide_false by (by intros ?)|].
  split.
  - rewrite bool_decide_true; [done|].
    rewrite Hs', Hs, Hsaved, Hu', Hu. intros E.
    specialize (Hlive _ E). lia.
  - intros b s'' Hundo.
    pose proof (undo_redo_frame_undo _ _ _ Hundo) as (_ & _ & Hsv & _).
    apply (move_action UndoStack RedoStack undo_loop) in Hundo;
      [|done|apply keeps_stacks_undo_loop].
    destruct b; [|destruct Hundo as [Hundo _]; cbn in Hundo; congruence].
    destruct Hundo as (a & A1 & Ht & HA1 & Hu2 & _). cbn in Ht, Hu2.
    split; [done|].
    rewrite bool_decide_false; [done|]. intros Hne. apply Hne.
    rewrite Hsv, Hs', Hs, Hsaved, Hu2.
    rewrite Hu', Hu in Ht. injection Ht as <-.
    rewrite Ha', HA in HA1. injection HA1 as <-. done.
Qed.

Lemma edit_marks_modified_undo_unmarks_witness :
  ∃ s s' s'',
    editor_load [] (Some (list_ascii_of_string "ab")) = Some s
    ∧ editor_insert 1 (list_ascii_of_string "x") s = Ok true s'
    ∧ editor_undo s' = Ok true s''
    ∧ editor_modified s = Ok false s
    ∧ editor_modified s' = Ok true s'
    ∧ editor_modified s'' = Ok false s''.
Proof.
  do 3 eexists. split; [vm_compute; reflexivity|].
  match goal with
  | |- editor_insert ?pos ?t ?s = Ok true ?s' ∧ editor_undo _ = Ok true ?s'' ∧ _ =>
    assert (editor_insert pos t s = Ok true s') as H1 by (vm_compute; reflexivity);
    assert (editor_undo s' = Ok true s'') as H2 by (vm_compute; reflexivity);
    split; [exact H1|]; split; [exact H2|];
    destruct (edit_marks_modified_undo_unmarks s s') as (Hm & Hm' & Hu);
      [reflexivity|reflexivity|by intros a [=]|left; by exists pos, t|];
    split; [exact Hm|]; split; [exact Hm'|];
    exact (proj2 (Hu true s'' H2))
  end.
Defined.

(** ** Pre- and postconditions of operations *)

Lemma hoare_bind {A B} P (m : M A) Q (k : A → M B) R :
  hoare P m Q → (∀ a, hoare (Q a) (k a) R) → hoare P (bind m k) R.
Proof.
  intros Hm Hk s b s' HP (a & s1 & H1 & H2)%bind_inv.
  eapply Hk; [|exact H2]. by eapply Hm.
Qed.

Lemma hoare_bind_any {A B} P (m : M A) (k : A → M B) R :
  (∀ a, hoare (λ _, True) (k a) R) → hoare P (bind m k) R.
Proof.
  intros Hk. apply (hoare_bind _ _ (λ _ _, True)); [done|]. exact Hk.
Qed.

Lemma hoare_ret {A} (P : state → Prop) (a : A) (Q : A → state → Prop) :
  (∀ s, P s → Q a s) → hoare P (ret a) Q.
Proof. intros H s b s' HP [-> ->]%ret_inv. by apply H. Qed.

Lemma hoare_crash {A} P (Q : A → state → Prop) : hoare P crash Q.
Proof. by intros s b s'. Qed.

Lemma hoare_diverge {A} P (Q : A → state → Prop) : hoare P diverge Q.
Proof. by intros s b s'. Qed.

Lemma hoare_false {A} (m : M A) Q : hoare (λ _, False) m Q.
Proof. by intros s b s'. Qed.

Lemma hoare_pre {A} (P P' : state → Prop) (m : M A) Q :
  (∀ s, P s → P' s) → hoare P' m Q → hoare P m Q.
Proof. intros HP H s a s' Hs. apply H. by apply HP. Qed.

Lemma hoare_post {A} P (m : M A) (Q Q' : A → state → Prop) :
  (∀ a s, Q' a s → Q a s) → hoare P m Q' → hoare P m Q.
Proof. intros HQ H s a s' Hs Hm. apply HQ. by eapply H. Qed.

Lemma hoare_read_only {A} P (m : M A) :
  read_only m → hoare P m (λ _, P).
Proof. intros Hro s a s' HP Hm. by rewrite <-(Hro _ _ _ Hm). Qed.

Lemma hoare_keeps {A B} (f : state → B) (v : B) (m : M A) :
  preserves (keeps f) m → hoare (λ s, f s = v) m (λ _ s, f s = v).
Proof. intros Hk s a s' HP Hm. by rewrite (Hk _ _ _ Hm). Qed.

(** The result of an operation whatever the state: walk its structure up
    to the values it returns. *)
Ltac returns_step :=
  lazymatch goal with
  | |- hoare _ (bind _ _) _ => apply hoare_bind_any; intros ?
  | |- hoare _ (ret _) _ => apply hoare_ret; intros; try done
  | |- hoare _ crash _ => apply hoare_crash
  | |- hoare _ diverge _ => apply hoare_diverge
  | |- hoare _ (if ?b then _ else _) _ => destruct b
  | |- hoare _ (match ?x with _ => _ end) _ => destruct x
  end.

(** *** Allocation without failure *)

Lemma alloc_ok_succeeds :
  hoare allocations_succeed alloc_ok (λ ok s, ok = true ∧ allocations_succeed s).
Proof.
  intros s ok s' HP. unfold alloc_ok. rewrite HP. by intros [= <- <-].
Qed.

Lemma keeps_oracle_store_action a f :
  preserves (keeps oracle) (store_action a f).
Proof. unfold store_action. repeat keeps_step. Qed.

Lemma keeps_oracle_store_buffer a f :
  preserves (keeps oracle) (store_buffer a f).
Proof. unfold store_buffer. repeat keeps_step. Qed.

Lemma action_alloc_succeeds :
  hoare allocations_succeed action_alloc
    (λ a s, is_Some a ∧ allocations_succeed s).
Proof.
  unfold action_alloc.
  eapply hoare_bind; [apply alloc_ok_succeeds|]. intros ok.
  destruct ok; cbn; [|apply hoare_ret; by intros s [? _]].
  apply (hoare_pre _ allocations_succeed); [by intros s [_ ?]|].
  eapply hoare_bind; [apply (hoare_keeps oracle []); by intros s a s' [= <- <-]|].
  intros new. cbn beta.
  eapply hoare_bind; [apply (hoare_keeps oracle []); repeat keeps_step|].
  intros ?. cbn beta.
  eapply hoare_bind; [apply (hoare_keeps oracle []); repeat keeps_step|].
  intros fuel. cbn beta.
  eapply hoare_bind;
    [apply (hoare_keeps oracle []); by apply keeps_drain_redo|].
  intros ?. cbn beta.
  eapply hoare_bind; [apply (hoare_keeps oracle []); repeat keeps_step|].
  intros ?. cbn beta.
  eapply hoare_bind.
  { apply (hoare_keeps oracle []). unfold action_push.
    repeat first [keeps_step | apply keeps_oracle_store_action]. }
  intros ?. apply hoare_ret. intros s Hs. split; [by eexists|done].
Qed.

Lemma change_alloc_succeeds :
  hoare allocations_succeed change_alloc
    (λ c s, is_Some c ∧ allocations_succeed s).
Proof.
  unfold change_alloc.
  eapply hoare_bind; [by apply hoare_read_only; intros s a s' [_ ->]%gets_inv|].
  intros a0. cbn beta.
  eapply (hoare_bind _ _ (λ a s, is_Some a ∧ allocations_succeed s)).
  { destruct a0; [by apply hoare_ret; eauto|apply action_alloc_succeeds]. }
  intros [a|]; [|by apply hoare_ret; intros s [[? [=]] _]].
  apply (hoare_pre _ allocations_succeed); [by intros s [_ ?]|].
  eapply hoare_bind; [apply alloc_ok_succeeds|]. intros ok.
  destruct ok; cbn; [|apply hoare_ret; by intros s [? _]].
  apply (hoare_pre _ allocations_succeed); [by intros s [_ ?]|].
  eapply hoare_bind; [apply (hoare_keeps oracle []); by intros s x s' [= <- <-]|].
  intros c. cbn beta.
  eapply hoare_bind; [apply (hoare_keeps oracle []); repeat keeps_step|].
  intros A. cbn beta.
  eapply hoare_bind; [apply (hoare_keeps oracle []); repeat keeps_step|].
  intros ?. cbn beta.
  eapply hoare_bind; [apply (hoare_keeps oracle []); apply keeps_oracle_store_action|].
  intros ?. apply hoare_ret. intros s Hs. split; [by eexists|done].
Qed.

Lemma buffer_alloc_succeeds sz :
  hoare allocations_succeed (buffer_alloc sz)
    (λ b s, is_Some b ∧ allocations_succeed s).
Proof.
  unfold buffer_alloc.
  eapply hoare_bind; [apply alloc_ok_succeeds|]. intros ok.
  destruct ok; cbn; [|apply hoare_ret; by intros s [? _]].
  apply (hoare_pre _ allocations_succeed); [by intros s [_ ?]|].
  eapply hoare_bind; [apply alloc_ok_succeeds|]. intros ok.
  destruct ok; cbn; [|apply hoare_ret; by intros s [? _]].
  apply (hoare_pre _ allocations_succeed); [by intros s [_ ?]|].
  eapply hoare_bind; [apply (hoare_keeps oracle []); by intros s x s' [= <- <-]|].
  intros b. cbn beta.
  eapply hoare_bind; [apply (hoare_keeps oracle []); repeat keeps_step|].
  intros ?. apply hoare_ret. intros s Hs. split; [by eexists|done].
Qed.

Lemma buffer_append_succeeds buf content len :
  hoare allocations_succeed (buffer_append buf content len)
    (λ d s, is_Some d ∧ allocations_succeed s).
Proof.
  intros s d s' Hs H. split.
  - apply buffer_append_inv in H. by destruct d.
  - revert H. unfold allocations_succeed in *. rewrite <-Hs.
    assert (preserves (keeps oracle) (buffer_append buf content len)) as Hk;
      [|by apply Hk].
    unfold buffer_append.
    repeat first [keeps_step | apply keeps_oracle_store_buffer].
Qed.

Lemma buffer_store_succeeds content len :
  hoare allocations_succeed (buffer_store content len)
    (λ d s, is_Some d ∧ allocations_succeed s).
Proof.
  unfold buffer_store.
  eapply hoare_bind; [by apply hoare_read_only; intros s a s' [_ ->]%gets_inv|].
  intros buf. cbn beta.
  eapply (hoare_bind _ _ (λ _, allocations_succeed)).
  { apply (hoare_keeps oracle []). repeat keeps_step. }
  intros full. destruct full; [|apply buffer_append_succeeds].
  eapply hoare_bind; [apply buffer_alloc_succeeds|].
  intros [b|]; [|by apply hoare_ret; intros s [[? [=]] _]].
  apply (hoare_pre _ allocations_succeed); [by intros s [_ ?]|].
  apply buffer_append_succeeds.
Qed.

Lemma piece_alloc_succeeds :
  hoare allocations_succeed piece_alloc
    (λ p s, is_Some p ∧ allocations_succeed s).
Proof.
  unfold piece_alloc.
  eapply hoare_bind; [apply alloc_ok_succeeds|]. intros ok.
  destruct ok; cbn; [|apply hoare_ret; by intros s [? _]].
  apply (hoare_pre _ allocations_succeed); [by intros s [_ ?]|].
  eapply hoare_bind; [apply (hoare_keeps oracle []); repeat keeps_step|].
  intros ?. cbn beta.
  eapply hoare_bind; [apply (hoare_keeps oracle []); repeat keeps_step|].
  intros ?. cbn beta.
  eapply hoare_bind; [apply (hoare_keeps oracle []); repeat keeps_step|].
  intros ?. apply hoare_ret. intros s Hs. split; [by eexists|done].
Qed.

Lemma editor_insert_succeeds pos text :
  hoare allocations_succeed (editor_insert pos text) (λ b _, b = true).
Proof.
  unfold editor_insert.
  eapply hoare_bind; [apply hoare_read_only, read_only_piece_get|].
  intros loc. cbn beta zeta.
  eapply (hoare_bind _ _ (λ hit s, hit = false → allocations_succeed s)).
  { intros s hit s' Hs H ->. by apply cache_insert_miss in H as ->. }
  intros [|]; [by apply hoare_ret|].
  apply (hoare_pre _ allocations_succeed); [by intros s Hs; apply Hs|].
  eapply hoare_bind; [apply change_alloc_succeeds|].
  intros [c|]; [|by apply hoare_ret; intros s [[? [=]] _]].
  apply (hoare_pre _ allocations_succeed); [by intros s [_ ?]|].
  eapply hoare_bind; [apply buffer_store_succeeds|].
  intros [t|]; [|by apply hoare_ret; intros s [[? [=]] _]].
  apply (hoare_pre _ allocations_succeed); [by intros s [_ ?]|].
  eapply hoare_bind; [apply hoare_read_only; by intros s a s' [-> _]%load_piece_inv|].
  intros P. cbn beta.
  eapply (hoare_bind _ _ (λ new _, is_Some new)).
  - destruct (_ =? _).
    + eapply hoare_bind; [apply piece_alloc_succeeds|].
      intros [new|]; [|by apply hoare_ret; intros s [[? [=]] _]].
      repeat returns_step.
    + eapply hoare_bind; [apply piece_alloc_succeeds|].
      intros [before|];
        [|apply (hoare_pre _ (λ _, False));
          [by intros s [[? [=]] _]|apply hoare_false]].
      apply (hoare_pre _ allocations_succeed); [by intros s [_ ?]|].
      eapply hoare_bind; [apply piece_alloc_succeeds|].
      intros [new|];
        [|apply (hoare_pre _ (λ _, False));
          [by intros s [[? [=]] _]|apply hoare_false]].
      apply (hoare_pre _ allocations_succeed); [by intros s [_ ?]|].
      eapply hoare_bind; [apply piece_alloc_succeeds|].
      intros [after|]; [|by apply hoare_ret; intros s [[? [=]] _]].
      repeat returns_step.
  - intros [new|]; [|by apply hoare_ret; intros s [? [=]]].
    repeat returns_step.
Qed.

Lemma editor_delete_fails_on_guard pos len s0 :
  hoare (λ s, s = s0 ∧ allocations_succeed s) (editor_delete pos len)
    (λ b s, b = false → len ≠ 0 ∧ addw pos len > size s0 ∧ s = s0).
Proof.
  unfold editor_delete.
  destruct (len =? 0) eqn:Elen; [by apply hoare_ret|].
  apply Z.eqb_neq in Elen.
  eapply (hoare_bind _ _ (λ sz s, sz = size s0 ∧ s = s0 ∧ allocations_succeed s)).
  { by intros s sz s' [-> Hs] [-> ->]%gets_inv. }
  intros sz. destruct (_ >? sz) eqn:Eg.
  { apply hoare_ret. intros s (-> & -> & _) _. split; [done|]. split; [|done].
    by apply Z.gtb_lt, Z.lt_gt in Eg. }
  apply (hoare_pre _ allocations_succeed); [by intros s (_ & _ & ?)|].
  eapply hoare_bind; [apply hoare_read_only, read_only_piece_get|].
  intros loc. cbn beta zeta.
  eapply (hoare_bind _ _ (λ hit s, hit = false → allocations_succeed s)).
  { intros s hit s' Hs H ->. by apply cache_delete_miss in H as ->. }
  intros [|]; [by apply hoare_ret|].
  apply (hoare_pre _ allocations_succeed); [by intros s Hs; apply Hs|].
  eapply hoare_bind; [apply change_alloc_succeeds|].
  intros [c|]; [|by apply hoare_ret; intros s [[? [=]] _]].
  repeat returns_step.
Qed.

(** X7: when no allocation fails, editor_insert never returns false,
    and editor_delete returns false only for a range of at least one
    byte that ends beyond the size, leaving the editor unchanged. *)
Theorem no_failure_without_allocation_failure s :
  allocations_succeed s →
  (∀ pos text b s', editor_insert pos text s = Ok b s' → b = true)
  ∧ (∀ pos len s', editor_delete pos len s = Ok false s' →
       len ≠ 0 ∧ addw pos len > size s ∧ s' = s).
Proof.
  intros Hs. split.
  - intros pos text b s' H. by eapply editor_insert_succeeds.
  - intros pos len s' H. by eapply (editor_delete_fails_on_guard pos len s).
Qed.

Lemma no_failure_without_allocation_failure_witness :
  ∃ s,
    editor_load [] (Some (list_ascii_of_string "ab")) = Some s
    ∧ allocations_succeed s
    ∧ (∀ pos text b s', editor_insert pos text s = Ok b s' → b = true)
    ∧ (∀ pos len s', editor_delete pos len s = Ok false s' →
         len ≠ 0 ∧ addw pos len > size s ∧ s' = s).
Proof.
  eexists. split; [vm_compute; reflexivity|].
  split; [reflexivity|].
  apply no_failure_without_allocation_failure. reflexivity.
Defined.

Lemma piece_bytes_check s a P bs :
  hp_piece s !! a = Some P →
  Z.of_nat (length bs) = p_len P →
  match p_content P with
  | Some c =>
    0 ≤ ofs c
    ∧ ∃ B, hp_buffer s !! blk c = Some B
        ∧ bs = take (Z.to_nat (p_len P)) (drop (Z.to_nat (ofs c)) (b_content B))
  | None => bs = []
  end →
  piece_bytes s a bs.
Proof.
  intros HP Hlen Hc. exists P. split; [done|]. split; [done|].
  destruct (p_content P) as [c|]; [|by left].
  destruct Hc as (Hofs & B & HB & ->). right. by exists c, B.
Qed.

(** Checks of concrete states by evaluation. *)
Ltac check_chain :=
  cbn [chain];
  repeat (split; [reflexivity|]; eexists; split; [vm_compute; reflexivity|];
          split; [vm_compute; by eexists|]);
  split; [reflexivity|]; eexists; split; vm_compute; reflexivity.

Ltac check_consistent :=
  unfold consistent; split_and!;
    [ check_chain | done | repeat constructor; vm_compute; congruence
    | vm_compute; reflexivity | vm_compute; reflexivity ].

Ltac check_piece_bytes :=
  repeat constructor;
  (eapply piece_bytes_check;
     [ vm_compute; reflexivity | vm_compute; reflexivity
     | cbn; first
         [ reflexivity
         | split; [vm_compute; congruence|]; eexists;
           split; vm_compute; reflexivity ] ]).



(** ** Positions beyond the end *)

Lemma piece_get_loop_beyond s pos l :
  ∀ n p cur e,
    chain (hp_piece s) p l e →
    (length l < n)%nat →
    Forall (λ a, 0 ≤ len_of (hp_piece s) a) l →
    0 ≤ cur →
    cur + total_len (hp_piece s) l < SIZE_MOD →
    cur + total_len (hp_piece s) l < pos →
    piece_get_loop n p cur pos s = Ok (mkLocation None 0) s.
Proof.
  induction l as [|a l IH]; intros n p cur e Hch Hn Hlen Hcur Hmax Hpos.
  - destruct Hch as (-> & P & HP & Hnext).
    destruct n as [|n]; [cbn in Hn; lia|].
    cbn [piece_get_loop]. unfold bind at 1, load_piece. by rewrite HP, Hnext.
  - destruct Hch as (-> & P & HP & [x Hx] & Hch). rewrite Hx in Hch.
    destruct n as [|n]; [cbn in Hn; lia|].
    apply Forall_cons in Hlen as [Ha Hlen].
    pose proof (total_len_nonneg _ _ Hlen) as Hl.
    rewrite total_len_cons in Hmax, Hpos.
    assert (len_of (hp_piece s) a = p_len P) as Ea
      by (unfold len_of; by rewrite HP).
    assert (addw cur (p_len P) = cur + p_len P) as Eadd.
    { unfold addw, wrap. apply Z.mod_small. lia. }
    cbn [piece_get_loop]. unfold bind at 1, load_piece. rewrite HP, Hx, Eadd.
    assert ((cur <=? pos) && (pos <=? cur + p_len P) = false) as ->.
    { apply andb_false_iff. right. apply Z.leb_gt. lia. }
    apply (IH n (Some x) (cur + p_len P) e);
      [done|cbn in Hn; lia|done|lia|lia|lia].
Qed.

Lemma piece_get_beyond s l e pos :
  consistent s l e → size s < pos →
  piece_get pos s = Ok (mkLocation None 0) s.
Proof.
  intros (Hch & Hne & Hlen & Hsize & Hmax) Hpos.
  unfold piece_get. rewrite bind_gets.
  apply (piece_get_loop_beyond s pos l _ _ 0 e);
    [done|pose proof (chain_bounded _ _ _ _ Hch); lia|done|lia|lia|lia].
Qed.

Lemma cache_contains_null s b s' :
  cache_contains None s = Ok b s' → b = false.
Proof.
  unfold cache_contains.
  intros (buf & s1 & [-> ->]%gets_inv & H)%bind_inv.
  apply bind_inv in H as (cch & s1 & [-> ->]%gets_inv & H).
  apply bind_inv in H as (a & s1 & [-> ->]%gets_inv & H).
  destruct (buffers s), (cache s), (current_action s);
    try by apply ret_inv in H as [-> _].
Qed.

(** X8: on a consistent editor piece_get finds no piece for a position
    beyond the size (the location is null), and editor_insert at such
    a position never returns true: it returns false only when an
    allocation failed and otherwise does not return (it reads through
    the null piece). *)
Theorem insert_beyond_end_never_succeeds s l e pos :
  consistent s l e →
  size s < pos →
  piece_get pos s = Ok (mkLocation None 0) s
  ∧ ∀ text b s', editor_insert pos text s = Ok b s' →
      b = false ∧ ¬ allocations_succeed s.
Proof.
  intros Hc Hpos. pose proof (piece_get_beyond s l e pos Hc Hpos) as Hget.
  split; [done|]. intros text b s' H.
  assert (b = false) as ->; [|split; [done|]; intros Hs;
    by pose proof (editor_insert_succeeds pos text s _ _ Hs H)].
  unfold editor_insert in H. rewrite (bind_Ok _ _ _ _ _ Hget) in H.
  cbn [piece off] in H.
  apply bind_inv in H as (hit & s1 & Hhit & H).
  assert (hit = false) as ->.
  { unfold cache_insert in Hhit.
    apply bind_inv in Hhit as (h & s2 & ->%cache_contains_null & Hhit).
    by apply ret_inv in Hhit as [-> _]. }
  apply bind_inv in H as (c & s2 & _ & H).
  destruct c as [c|]; [|by apply ret_inv in H as [-> _]].
  apply bind_inv in H as (t & s3 & _ & H).
  destruct t as [t|]; [|by apply ret_inv in H as [-> _]].
  by apply bind_inv in H as (P & s4 & HP & _).
Qed.

Lemma insert_beyond_end_never_succeeds_witness :
  ∃ s,
    editor_load [] (Some (list_ascii_of_string "ab")) = Some s
    ∧ consistent s [1; 3]%nat 2%nat
    ∧ size s < 5
    ∧ piece_get 5 s = Ok (mkLocation None 0) s
    ∧ ∀ text b s', editor_insert 5 text s = Ok b s' →
        b = false ∧ ¬ allocations_succeed s.
Proof.
  eexists. split; [vm_compute; reflexivity|].
  match goal with |- consistent ?s ?l ?e ∧ _ =>
    assert (consistent s l e) as Hc by check_consistent;
    assert (size s < 5) as Hs by (vm_compute; reflexivity);
    split; [exact Hc|]; split; [exact Hs|];
    exact (insert_beyond_end_never_succeeds s l e 5 Hc Hs)
  end.
Defined.

(** ** Iterating over the document *)

Lemma piece_bytes_read s a bs :
  piece_bytes s a bs →
  ∃ P, hp_piece s !! a = Some P
    ∧ read_bytes (p_content P) (p_len P) s = Ok bs s.
Proof.
  intros (P & HP & Hlen & Hbs). exists P. split; [done|].
  unfold read_bytes. destruct (p_len P =? 0) eqn:E.
  - apply Z.eqb_eq in E. rewrite E in Hlen. by destruct bs.
  - destruct Hbs as [->|(c & B & -> & Hofs & HB & ->)].
    + cbn in Hlen. apply Z.eqb_neq in E. lia.
    + by rewrite (bind_Ok _ _ _ _ _ (load_buffer_Ok _ _ _ HB)).
Qed.

Lemma piece_bytes_read_from s a bs P k :
  piece_bytes s a bs →
  hp_piece s !! a = Some P →
  0 ≤ k ≤ p_len P → p_len P < SIZE_MOD →
  read_bytes (cptr_add (p_content P) k) (subw (p_len P) k) s
  = Ok (drop (Z.to_nat k) bs) s.
Proof.
  intros (P' & HP' & Hlen & Hbs) HP Hk Hmax.
  rewrite HP in HP'. injection HP' as <-.
  assert (subw (p_len P) k = p_len P - k) as ->.
  { unfold subw, wrap. apply Z.mod_small. lia. }
  unfold read_bytes. destruct (p_len P - k =? 0) eqn:E.
  - apply Z.eqb_eq in E. rewrite drop_ge; [done|]. lia.
  - apply Z.eqb_neq in E.
    destruct Hbs as [->|(c & B & -> & Hofs & HB & ->)]; [cbn in Hlen; lia|].
    cbn [cptr_add blk ofs].
    rewrite (bind_Ok _ _ _ _ _ (load_buffer_Ok _ _ _ HB)). unfold ret.
    f_equal.
    rewrite Z2Nat.inj_sub, Z2Nat.inj_add by lia.
    rewrite <-drop_drop. symmetry. apply skipn_firstn_comm.
Qed.

Lemma chain_head h p l e :
  chain h p l e → p = head (l ++ [e]).
Proof. destruct l; cbn; [by intros [-> _]|by intros [-> _]]. Qed.

(** copy_content over the pieces from [a] on: the bytes of the first
    chunk and then those of every following piece. *)
Lemma iterate_loop_copy s :
  ∀ L n a e data pos content len bs0 bss,
    chain (hp_piece s) (Some a) L e →
    (length L < n)%nat →
    read_bytes content len s = Ok bs0 s →
    Forall2 (piece_bytes s) (tail (L ++ [e])) bss →
    iterate_loop n copy_content data (Some a) pos content len s
    = Ok (data ++ bs0 ++ concat bss) s.
Proof.
  induction L as [|a' L IH];
    intros n a e data pos content len bs0 bss Hch Hn Hread Hbss;
    (destruct n as [|n]; [cbn in Hn; lia|]); cbn [iterate_loop].
  - destruct Hch as ([= ->] & P & HP & Hnext).
    apply Forall2_nil_inv_l in Hbss as ->.
    rewrite (bind_Ok _ _ _ _ _ Hread). cbn.
    rewrite (bind_Ok _ _ _ _ _ (load_piece_Ok _ _ _ HP)), Hnext.
    by rewrite app_nil_r.
  - destruct Hch as ([= <-] & P & HP & [x Hx] & Hch).
    pose proof (chain_head _ _ _ _ Hch) as Hhd. rewrite Hx in Hch, Hhd.
    cbn [app tail] in Hbss.
    destruct (L ++ [e]) as [|x' rest] eqn:EL; [done|].
    injection Hhd as <-.
    apply Forall2_cons_inv_l in Hbss as (bb & bss' & Hb & Hbss & ->).
    destruct (piece_bytes_read _ _ _ Hb) as (P' & HP' & Hread').
    rewrite (bind_Ok _ _ _ _ _ Hread). cbn.
    rewrite (bind_Ok _ _ _ _ _ (load_piece_Ok _ _ _ HP)), Hx.
    rewrite (bind_Ok _ _ _ _ _ (load_piece_Ok _ _ _ HP')).
    rewrite (IH n x e _ _ _ _ bb bss'); [|done|cbn in Hn; lia|done|].
    + by rewrite <-!app_assoc.
    + by rewrite EL.
Qed.

Lemma piece_bytes_total s l bss :
  Forall2 (piece_bytes s) l bss →
  Z.of_nat (length (concat bss)) = total_len (hp_piece s) l.
Proof.
  induction 1 as [|a bs l bss (P & HP & Hlen & _) _ IH]; [done|].
  cbn [concat]. rewrite length_app, Nat2Z.inj_add, total_len_cons, IH.
  unfold len_of. rewrite HP. lia.
Qed.

(** Where [pos] lies: the piece piece_get returns, the bytes it still
    holds from the offset on, and the bytes of the document from [pos]
    on. *)
Lemma locate_bytes s l e bss pos :
  consistent s l e →
  Forall2 (piece_bytes s) (l ++ [e]) bss →
  0 ≤ pos ≤ size s →
  ∃ l1 q l2 P k bq bss2,
    l = l1 ++ q :: l2
    ∧ piece_get pos s = Ok (mkLocation (Some q) k) s
    ∧ hp_piece s !! q = Some P
    ∧ k = pos - total_len (hp_piece s) l1
    ∧ 0 ≤ k ≤ p_len P ∧ p_len P < SIZE_MOD
    ∧ chain (hp_piece s) (Some q) (q :: l2) e
    ∧ piece_bytes s q bq
    ∧ Forall2 (piece_bytes s) (l2 ++ [e]) bss2
    ∧ read_bytes (cptr_add (p_content P) k) (subw (p_len P) k) s
      = Ok (drop (Z.to_nat k) bq) s
    ∧ drop (Z.to_nat pos) (concat bss) = drop (Z.to_nat k) bq ++ concat bss2.
Proof.
  intros (Hch & Hne & Hlen & Hsize & Hmax) Hbss Hpos.
  destruct (piece_get_loop_first_fit s pos l (S (base.size (hp_piece s)))
              (Some begin_) 0 e)
    as (l1 & q & l2 & El & Hget & Hq & _);
    [done|pose proof (chain_bounded _ _ _ _ Hch); lia|done|done|lia|lia|lia|].
  rewrite Z.add_0_l in Hget, Hq. subst l.
  rewrite <-app_assoc in Hbss.
  apply Forall2_app_inv_l in Hbss as (bss1 & bss' & Hb1 & Hb' & ->).
  cbn [app] in Hb'.
  apply Forall2_cons_inv_l in Hb' as (bq & bss2 & Hbq & Hb2 & ->).
  pose proof (piece_bytes_total _ _ _ Hb1) as Hlen1.
  apply Forall_app in Hlen as [Hl1 [Hq0 Hl2]%Forall_cons].
  pose proof (total_len_nonneg _ _ Hl1) as Hn1.
  pose proof (total_len_nonneg _ _ Hl2) as Hn2.
  rewrite total_len_app, total_len_cons in Hsize.
  destruct (chain_app _ _ _ _ _ Hch) as [p' Hch'].
  pose proof Hch' as (-> & P & HP & _).
  assert (len_of (hp_piece s) q = p_len P) as Eq
    by (unfold len_of; by rewrite HP).
  rewrite Eq in *.
  exists l1, q, l2, P, (pos - total_len (hp_piece s) l1), bq, bss2.
  set (k := pos - total_len (hp_piece s) l1) in *.
  split_and!; try done; try lia.
  - apply (piece_bytes_read_from s q); [done|done|lia|lia].
  - assert (Z.to_nat pos = (length (concat bss1) + Z.to_nat k)%nat) as -> by lia.
    rewrite concat_app, drop_app_add'; [|done]. cbn [concat].
    destruct Hbq as (P' & HP' & Hlq & _).
    rewrite HP in HP'. injection HP' as <-.
    rewrite drop_app_le by lia. done.
Qed.

(** Copying from [pos] on yields the bytes of the document from [pos]
    on. *)
Lemma iterate_copy_suffix s l e bss pos :
  consistent s l e →
  Forall2 (piece_bytes s) (l ++ [e]) bss →
  0 ≤ pos ≤ size s →
  editor_iterate [] pos copy_content s
  = Ok (drop (Z.to_nat pos) (concat bss)) s.
Proof.
  intros Hc Hbss Hpos.
  destruct (locate_bytes s l e bss pos Hc Hbss Hpos)
    as (l1 & q & l2 & P & k & bq & bss2 & -> & Hget & HP & _ & _ & _ & Hch'
        & _ & Hb2 & Hread & ->).
  unfold editor_iterate.
  rewrite (bind_Ok _ _ _ _ _ Hget). cbn [piece off].
  rewrite (bind_Ok _ _ _ _ _ (load_piece_Ok _ _ _ HP)), bind_gets.
  by rewrite (iterate_loop_copy s (q :: l2) _ q e [] pos _ _
             (drop (Z.to_nat k) bq) bss2);
    [|done|pose proof (chain_bounded _ _ _ _ Hch'); lia|done|done].
Qed.

(** X9: on a consistent editor whose pieces stand for the byte lists
    [bss], editor_iterate with copy_content from position pos collects
    the concatenation of [bss] without its first pos bytes, for every
    pos from 0 to size; from position 0 it collects the whole
    document. *)
Theorem editor_iterate_copies_suffix s l e bss pos :
  consistent s l e →
  Forall2 (piece_bytes s) (l ++ [e]) bss →
  0 ≤ pos ≤ size s →
  editor_iterate [] pos copy_content s
  = Ok (drop (Z.to_nat pos) (concat bss)) s
  ∧ editor_content s = Ok (concat bss) s.
Proof.
  intros Hc Hb Hpos. split; [by apply (iterate_copy_suffix s l e)|].
  apply (iterate_copy_suffix s l e bss 0); [done|done|].
  destruct Hc as (_ & _ & Hlen & -> & _).
  split; [done|by apply total_len_nonneg].
Qed.

Lemma editor_iterate_copies_suffix_witness :
  ∃ s,
    final (session (Some "abcdef"%string) [Insert 3 "XYZ"%string]) = Some s
    ∧ consistent s [1; 4; 5; 6]%nat 2%nat
    ∧ Forall2 (piece_bytes s) ([1; 4; 5; 6]%nat ++ [2%nat])
        (list_ascii_of_string <$> [""; "abc"; "XYZ"; "def"; ""]%string)
    ∧ editor_iterate [] 4 copy_content s
      = Ok (list_ascii_of_string "YZdef") s
    ∧ editor_content s = Ok (list_ascii_of_string "abcXYZdef") s.
Proof.
  eexists. split; [vm_compute; reflexivity|].
  match goal with |- consistent ?s ?l ?e ∧ Forall2 _ _ ?bss ∧ _ =>
    assert (consistent s l e) as Hc by check_consistent;
    assert (Forall2 (piece_bytes s) (l ++ [e]) bss) as Hb by check_piece_bytes;
    split; [exact Hc|]; split; [exact Hb|];
    apply (editor_iterate_copies_suffix s l e bss 4 Hc Hb);
    vm_compute; split; congruence
  end.
Defined.

(** ** Loading *)

Lemma loaded_pieces o bytes :
  let s := loaded o bytes in
  hp_piece s !! begin_ = Some (mkPiece None (Some 3%nat) None 0)
  ∧ hp_piece s !! 3%nat
    = Some (mkPiece (Some begin_) (Some end_) (Some (CPtr file_buf 0))
              (Z.of_nat (length bytes)))
  ∧ hp_piece s !! end_ = Some (mkPiece (Some 3%nat) None None 0)
  ∧ hp_buffer s !! file_buf
    = Some (mkBuffer (Z.of_nat (length bytes)) 0 bytes None).
Proof. done. Qed.

Lemma editor_load_file o bytes s :
  editor_load o (Some bytes) = Some s →
  bytes ≠ [] ∧ s = loaded (drop 2 o) bytes.
Proof.
  unfold editor_load, loaded.
  generalize (Z.of_nat (length bytes)). intros n.
  case_bool_decide as Hb.
  { by destruct (alloc_ok (empty_state o)) as [[] ?| |]. }
  intros H. split; [done|]. revert H.
  destruct o as [|[|] [|[|] o]]; intros H; vm_compute in H; try discriminate;
    injection H as <-; vm_compute; reflexivity.
Qed.

Lemma editor_load_empty o s :
  editor_load o None = Some s →
  s = set_piece_count 2%nat
        (set_hp_piece
           (<[end_ := mkPiece (Some begin_) None None 0]>
              (<[begin_ := mkPiece None (Some end_) None 0]> ∅))
           (empty_state (drop 1 o))).
Proof.
  unfold editor_load.
  destruct o as [|[|] o]; intros H; vm_compute in H; try discriminate;
    injection H as <-; vm_compute; reflexivity.
Qed.

(** X10: an editor that editor_load returns for a file presents exactly
    the bytes of the file, in a document of that size; for no file it
    presents the empty document.  Its stacks are empty, no action is
    open and editor_modified reports false. *)
Theorem editor_load_presents_file o file s :
  editor_load o file = Some s →
  Z.of_nat (length (default [] file)) < SIZE_MOD →
  editor_content s = Ok (default [] file) s
  ∧ size s = Z.of_nat (length (default [] file))
  ∧ editor_modified s = Ok false s
  ∧ undo s = None ∧ redo s = None ∧ current_action s = None.
Proof.
  intros Hload Hmax. destruct file as [bytes|]; cbn [default] in *.
  - apply editor_load_file in Hload as [Hne ->].
    split; [|by split_and!].
    destruct (loaded_pieces (drop 2 o) bytes) as (H1 & H3 & H2 & H0).
    set (s := loaded (drop 2 o) bytes) in *.
    assert (consistent s [begin_; 3%nat] end_) as Hc.
    { split_and!; [|done| | |done].
      - cbn. split; [done|]. exists (mkPiece None (Some 3%nat) None 0).
        split; [done|]. split; [by eexists|]. split; [done|]. eexists.
        split; [exact H3|]. split; [by eexists|]. split; [done|]. by eexists.
      - repeat constructor; unfold len_of; rewrite ?H1, ?H3; cbn; lia.
      - unfold total_len. cbn [foldr]. unfold len_of. rewrite H1, H3.
        cbn [p_len]. subst s. cbn [size loaded]. lia. }
    assert (Forall2 (piece_bytes s) ([begin_; 3%nat] ++ [end_])
              [[]; bytes; []]) as Hb.
    { repeat constructor.
      - eexists. split; [exact H1|]. split; [done|]. by left.
      - eexists. split; [exact H3|]. split; [done|]. right.
        do 2 eexists. split; [reflexivity|]. split; [done|].
        split; [exact H0|]. cbn. by rewrite Nat2Z.id, firstn_all.
      - eexists. split; [exact H2|]. split; [done|]. by left. }
    unfold editor_content.
    rewrite (iterate_copy_suffix _ _ _ _ 0 Hc Hb) by (cbn; lia).
    cbn. by rewrite app_nil_r.
  - apply editor_load_empty in Hload as ->. by vm_compute.
Qed.

Lemma editor_load_presents_file_witness :
  ∃ s,
    editor_load [] (Some (list_ascii_of_string "ab")) = Some s
    ∧ editor_content s = Ok (list_ascii_of_string "ab") s
    ∧ size s = 2
    ∧ editor_modified s = Ok false s
    ∧ undo s = None ∧ redo s = None ∧ current_action s = None.
Proof.
  eexists.
  match goal with |- ?load = Some ?s ∧ _ =>
    assert (load = Some s) as H by (vm_compute; reflexivity);
    split; [exact H|];
    apply (editor_load_presents_file _ _ s H); vm_compute; reflexivity
  end.
Defined.

(** ** The length of a span *)

Lemma segment_suffix h p l1 a l2 e :
  segment h p (l1 ++ a :: l2) e → segment h (Some a) (a :: l2) e.
Proof.
  revert p. induction l1 as [|b l1 IH]; intros p; cbn [app].
  - by intros H; pose proof H as (-> & _).
  - intros (-> & P & HP & H). destruct (decide (b = e)) as [->|Hne].
    + by destruct l1.
    + eauto.
Qed.

Lemma segment_functional h p l l' e :
  segment h p l e → segment h p l' e → l = l'.
Proof.
  revert p l'. induction l as [|a l IH]; intros p [|a' l']; cbn; try done.
  intros (-> & P & HP & H) ([= <-] & P' & HP' & H').
  rewrite HP in HP'. injection HP' as <-.
  destruct (decide (a = e)); [congruence|]. f_equal. eauto.
Qed.

Lemma segment_NoDup h p l e : segment h p l e → NoDup l.
Proof.
  revert p. induction l as [|a l IH]; intros p; [constructor|].
  intros H. pose proof H as (-> & P & HP & Hl). constructor.
  - intros (l1 & l2 & ->)%list_elem_of_split.
    pose proof (segment_suffix h (Some a) (a :: l1) a l2 e H) as H'.
    pose proof (segment_functional _ _ _ _ _ H H') as Heq.
    apply (f_equal length) in Heq. cbn in Heq. rewrite length_app in Heq.
    cbn in Heq. lia.
  - destruct (decide (a = e)); [subst l; constructor|eauto].
Qed.

Lemma segment_dom h p l e a : segment h p l e → a ∈ l → a ∈ dom h.
Proof.
  revert p. induction l as [|b l IH]; intros p; cbn; [done|].
  intros (_ & P & HP & H) [->|Ha]%elem_of_cons.
  - apply elem_of_dom. eauto.
  - destruct (decide (b = e)); [subst l; by apply elem_of_nil in Ha|eauto].
Qed.

Lemma segment_bounded h p l e :
  segment h p l e → (length l ≤ base.size h)%nat.
Proof.
  intros H. trans (length (elements (dom h))).
  - apply submseteq_length, NoDup_submseteq; [by eapply segment_NoDup|].
    intros a Ha. apply elem_of_elements. by eapply segment_dom.
  - by rewrite <-size_dom.
Qed.

Lemma span_init_loop_sum s e :
  ∀ l n p acc,
    segment (hp_piece s) p l e →
    (length l ≤ n)%nat →
    span_init_loop n p (Some e) acc s
    = Ok (wrap (acc + total_len (hp_piece s) l)) s.
Proof.
  induction l as [|a l IH]; intros n p acc Hseg Hn; [done|].
  destruct Hseg as (-> & P & HP & Hseg).
  destruct n as [|n]; [cbn in Hn; lia|].
  cbn [span_init_loop].
  rewrite (bind_Ok _ _ _ _ _ (load_piece_Ok _ _ _ HP)).
  rewrite total_len_cons. unfold len_of at 1. rewrite HP.
  destruct (decide (a = e)) as [->|Hne].
  - subst l. rewrite bool_decide_true by done.
    unfold ret, addw. do 2 f_equal. cbn. lia.
  - rewrite bool_decide_false by congruence.
    rewrite (IH n _ _ Hseg) by (cbn in Hn; lia).
    f_equal. unfold addw, wrap.
    rewrite Zplus_mod_idemp_l. f_equal. lia.
Qed.

(** X11: span_init from start to end, where following next from start
    reaches end, yields the span of the two with the sum of the lengths
    of the pieces from start to end inclusive, modulo 2^64. *)
Theorem span_init_sums_lengths s a l e :
  segment (hp_piece s) (Some a) l e →
  span_init (Some a) (Some e) s
  = Ok (mkSpan (Some a) (Some e) (wrap (total_len (hp_piece s) l))) s.
Proof.
  intros Hseg. unfold span_init. rewrite bind_gets.
  erewrite bind_Ok;
    [|apply (span_init_loop_sum s e l); [done|];
      pose proof (segment_bounded _ _ _ _ Hseg); lia].
  done.
Qed.

Lemma span_init_sums_lengths_witness :
  ∃ s,
    final (session (Some "abcdef"%string) [Insert 3 "XYZ"%string]) = Some s
    ∧ segment (hp_piece s) (Some 4%nat) [4; 5; 6]%nat 6%nat
    ∧ span_init (Some 4%nat) (Some 6%nat) s
      = Ok (mkSpan (Some 4%nat) (Some 6%nat) 9) s.
Proof.
  eexists. split; [vm_compute; reflexivity|].
  match goal with |- segment (hp_piece ?s) _ ?l ?e ∧ _ =>
    assert (segment (hp_piece s) (Some 4%nat) l e) as Hseg
  end.
  { cbn [segment].
    repeat (split; [reflexivity|]; eexists; split; [vm_compute; reflexivity|];
            cbn [decide]; try reflexivity). }
  split; [exact Hseg|].
  exact (span_init_sums_lengths _ _ _ _ Hseg).
Defined.

(** ** Iterators *)

Lemma chain_step h p L e i a b :
  chain h p L e →
  (L ++ [e]) !! i = Some a → (L ++ [e]) !! S i = Some b →
  ∃ P, h !! a = Some P ∧ p_next P = Some b.
Proof.
  revert p i. induction L as [|x L IH]; intros p i Hch Ha Hb.
  - destruct i; [done|]. by destruct i.
  - destruct Hch as (-> & P & HP & [y Hy] & Hch).
    destruct i as [|i]; [|exact (IH _ i Hch Ha Hb)].
    cbn in Ha, Hb. injection Ha as <-.
    pose proof (chain_head _ _ _ _ Hch) as Hhd.
    exists P. split; [done|]. rewrite Hhd.
    by destruct (L ++ [e]); cbn in *; simplify_eq.
Qed.

Lemma chain_allocated h p L e a :
  chain h p L e → a ∈ L ++ [e] → is_Some (h !! a).
Proof.
  intros Hch [Ha|Ha%list_elem_of_singleton]%elem_of_app.
  - apply elem_of_dom. by eapply chain_dom.
  - subst a. revert p Hch. induction L as [|x L IH]; intros p.
    + intros (_ & P & HP & _). by eexists.
    + intros (_ & P & _ & _ & H). eauto.
Qed.

Lemma chain_end_not_member h p L e : chain h p L e → e ∉ L.
Proof.
  revert p. induction L as [|x L IH]; intros p; [by intros _ ?%elem_of_nil|].
  intros Hch. pose proof Hch as (-> & P & HP & [y Hy] & Hch').
  intros [->|He]%elem_of_cons; [|by eapply IH].
  assert (∀ q, chain h q L x → ∃ P', h !! x = Some P' ∧ p_next P' = None)
    as Hend.
  { clear. induction L as [|z L IH]; intros q.
    - by intros (_ & P' & ? & ?); eauto.
    - intros (_ & P' & _ & _ & H). eauto. }
  destruct (Hend _ Hch') as (P' & HP' & Hn). congruence.
Qed.

Lemma iterator_valid_member s l it a :
  chain (hp_piece s) (Some begin_) (begin_ :: l) end_ →
  it_piece it = Some a →
  a ∈ l ++ [end_] →
  editor_iterator_valid it s = Ok (bool_decide (a ∈ l)) s.
Proof.
  intros Hch Hit Ha.
  destruct (chain_allocated _ _ _ _ a Hch) as [P HP].
  { apply elem_of_cons. by right. }
  unfold editor_iterator_valid. rewrite Hit.
  rewrite (bind_Ok _ _ _ _ _ (load_piece_Ok _ _ _ HP)).
  unfold ret. f_equal.
  pose proof (chain_NoDup _ _ _ _ Hch) as [Hb _]%NoDup_cons.
  pose proof (chain_end_not_member _ _ _ _ Hch) as He.
  apply not_elem_of_cons in He as [_ He].
  apply elem_of_app in Ha as [Ha|Ha%list_elem_of_singleton].
  - rewrite !bool_decide_true; [done|done|]. split; intros ->; done.
  - subst a. rewrite !bool_decide_false; [done|done|]. by intros [_ ?].
Qed.

(** X12: along the chain begin, l, end the iterator over a piece is
    valid exactly for the pieces of l, that is not for the end
    sentinel; editor_iterator_next leads from each piece of l to the
    piece that follows it on the chain, the last one leading to the end
    sentinel, and from the end sentinel to the null iterator, which is
    not valid. *)
Theorem iterator_walks_real_pieces s l :
  chain (hp_piece s) (Some begin_) (begin_ :: l) end_ →
  (∀ a, a ∈ l ++ [end_] →
     editor_iterator_valid (whole_piece s a) s = Ok (bool_decide (a ∈ l)) s)
  ∧ (∀ i a b, (l ++ [end_]) !! i = Some a → (l ++ [end_]) !! S i = Some b →
       editor_iterator_next (whole_piece s a) s = Ok (whole_piece s b) s)
  ∧ editor_iterator_next (whole_piece s end_) s = Ok (mkIterator None None 0) s
  ∧ editor_iterator_valid (mkIterator None None 0) s = Ok false s.
Proof.
  intros Hch. split.
  { intros a Ha. apply iterator_valid_member; [done| |done].
    destruct (chain_allocated _ _ _ _ a Hch) as [P HP].
    { apply elem_of_cons. by right. }
    unfold whole_piece. by rewrite HP. }
  split; [|split; [|done]].
  - intros i a b Ha Hb.
    destruct (chain_step _ _ (begin_ :: l) _ (S i) a b Hch Ha Hb)
      as (P & HP & Hn).
    destruct (chain_allocated _ _ _ _ b Hch) as [Q HQ].
    { apply elem_of_cons. right. by eapply list_elem_of_lookup_2. }
    unfold whole_piece. rewrite HP, HQ. unfold editor_iterator_next.
    cbn [it_piece]. rewrite bind_assoc.
    rewrite (bind_Ok _ _ _ _ _ (load_piece_Ok _ _ _ HP)), bind_ret, Hn.
    by rewrite (bind_Ok _ _ _ _ _ (load_piece_Ok _ _ _ HQ)).
  - destruct (chain_allocated _ _ _ _ end_ Hch) as [E HE].
    { apply elem_of_cons. right. apply elem_of_app. right.
      by apply list_elem_of_singleton. }
    assert (p_next E = None) as Hn.
    { clear -Hch HE. revert Hch. generalize (Some begin_) (begin_ :: l).
      intros p L. revert p. induction L as [|x L IH]; intros p.
      - intros (_ & P' & ? & ?). congruence.
      - intros (_ & P' & _ & _ & H). eauto. }
    unfold whole_piece. rewrite HE. unfold editor_iterator_next.
    cbn [it_piece]. rewrite bind_assoc.
    by rewrite (bind_Ok _ _ _ _ _ (load_piece_Ok _ _ _ HE)), bind_ret, Hn.
Qed.

Lemma iterator_walks_real_pieces_witness :
  ∃ s,
    final (session (Some "abcdef"%string) [Insert 3 "XYZ"%string]) = Some s
    ∧ chain (hp_piece s) (Some begin_) (begin_ :: [4; 5; 6]%nat) end_
    ∧ editor_iterator_valid (whole_piece s 5%nat) s = Ok true s
    ∧ editor_iterator_valid (whole_piece s end_) s = Ok false s
    ∧ editor_iterator_next (whole_piece s 5%nat) s = Ok (whole_piece s 6%nat) s
    ∧ editor_iterator_next (whole_piece s 6%nat) s = Ok (whole_piece s end_) s
    ∧ editor_iterator_next (whole_piece s end_) s
      = Ok (mkIterator None None 0) s.
Proof.
  eexists. split; [vm_compute; reflexivity|].
  match goal with |- chain (hp_piece ?s) ?p (_ :: ?l) ?e ∧ _ =>
    assert (chain (hp_piece s) p (begin_ :: l) e) as Hch by check_chain;
    destruct (iterator_walks_real_pieces s l Hch) as (Hv & Hn & He & _)
  end.
  split; [exact Hch|].
  split; [apply (Hv 5%nat); vm_compute; by repeat constructor|].
  split; [apply (Hv end_); vm_compute; by repeat constructor|].
  split; [by apply (Hn 1%nat 5%nat 6%nat)|].
  split; [by apply (Hn 2%nat 6%nat end_)|].
  exact He.
Defined.

(** Where [pos] lies: piece_get returns the first piece of the chain
    whose bytes reach up to [pos]; behind the first piece of the chain
    that is a piece holding at least one byte before [pos]. *)
Lemma locate_piece s l e bss pos :
  consistent s l e →
  Forall2 (piece_bytes s) (l ++ [e]) bss →
  0 ≤ pos ≤ size s →
  ∃ l1 q l2 Q k bss1 bq bss2,
    l = l1 ++ q :: l2 ∧ bss = bss1 ++ bq :: bss2
    ∧ piece_get pos s = Ok (mkLocation (Some q) k) s
    ∧ hp_piece s !! q = Some Q
    ∧ 0 ≤ k ≤ p_len Q ∧ p_len Q < SIZE_MOD
    ∧ (l1 ≠ [] → 0 < k)
    ∧ Forall2 (piece_bytes s) l1 bss1
    ∧ piece_bytes s q bq
    ∧ Forall2 (piece_bytes s) (l2 ++ [e]) bss2
    ∧ Z.to_nat pos = (length (concat bss1) + Z.to_nat k)%nat
    ∧ Z.of_nat (length bq) = p_len Q.
Proof.
  intros (Hch & Hne & Hlen & Hsize & Hmax) Hbss Hpos.
  destruct (piece_get_loop_first_fit s pos l (S (base.size (hp_piece s)))
              (Some begin_) 0 e)
    as (l1 & q & l2 & El & Hget & Hq & Hfirst);
    [done|pose proof (chain_bounded _ _ _ _ Hch); lia|done|done|lia|lia|lia|].
  rewrite Z.add_0_l in Hget, Hq. subst l.
  rewrite <-app_assoc in Hbss.
  apply Forall2_app_inv_l in Hbss as (bss1 & bss' & Hb1 & Hb' & ->).
  cbn [app] in Hb'.
  apply Forall2_cons_inv_l in Hb' as (bq & bss2 & Hbq & Hb2 & ->).
  pose proof (piece_bytes_total _ _ _ Hb1) as Hlen1.
  apply Forall_app in Hlen as [Hl1 [Hq0 Hl2]%Forall_cons].
  pose proof (total_len_nonneg _ _ Hl1) as Hn1.
  pose proof (total_len_nonneg _ _ Hl2) as Hn2.
  rewrite total_len_app, total_len_cons in Hsize.
  destruct (chain_app _ _ _ _ _ Hch) as [p' Hch'].
  pose proof Hch' as (-> & Q & HQ & _).
  assert (len_of (hp_piece s) q = p_len Q) as Eq
    by (unfold len_of; by rewrite HQ).
  rewrite Eq in *.
  exists l1, q, l2, Q, (pos - total_len (hp_piece s) l1), bss1, bq, bss2.
  split_and!; try done; try lia.
  - intros Hl1ne. destruct l1 as [|x l1 _] using rev_ind; [done|].
    specialize (Hfirst l1 x [] eq_refl).
    rewrite !Z.add_0_l in Hfirst.
    apply Forall_app in Hl1 as [Hl1 [Hx _]%Forall_cons].
    pose proof (total_len_nonneg _ _ Hl1).
    rewrite total_len_app, total_len_cons in *.
    change (total_len (hp_piece s) []) with 0 in *. lia.
  - destruct Hbq as (Q' & HQ' & Hl & _). rewrite HQ in HQ'. by injection HQ' as <-.
Qed.

(** X13: on a consistent editor that has a real piece, for every pos from
    0 to size editor_iterator_get returns a valid iterator.  It stands
    on the first piece q whose bytes reach up to pos: the first real
    piece, or a piece with at least one byte in front of pos.  Its
    length is what is left of q from pos on, and its text are exactly
    these bytes: the bytes of the document from pos up to the end of q,
    none when pos is the end of q. *)
Theorem iterator_get_reads_document s l bss pos :
  consistent s (begin_ :: l) end_ →
  len_of (hp_piece s) begin_ = 0 →
  l ≠ [] →
  Forall2 (piece_bytes s) ((begin_ :: l) ++ [end_]) bss →
  0 ≤ pos ≤ size s →
  ∃ it l1 q l2 bss1 bq bss2,
    editor_iterator_get pos s = Ok it s
    ∧ editor_iterator_valid it s = Ok true s
    ∧ l = l1 ++ q :: l2
    ∧ bss = [] :: bss1 ++ bq :: bss2
    ∧ Forall2 (piece_bytes s) l1 bss1
    ∧ piece_bytes s q bq
    ∧ it_piece it = Some q
    ∧ (length (concat bss1) ≤ Z.to_nat pos
       ≤ length (concat bss1) + length bq)%nat
    ∧ (l1 ≠ [] → (length (concat bss1) < Z.to_nat pos)%nat)
    ∧ it_len it = Z.of_nat (length (concat bss1) + length bq) - pos
    ∧ read_bytes (it_text it) (it_len it) s
      = Ok (drop (Z.to_nat pos - length (concat bss1)) bq) s
    ∧ drop (Z.to_nat pos) (concat bss)
      = drop (Z.to_nat pos - length (concat bss1)) bq ++ concat bss2.
Proof.
  intros Hc Hb0 Hne Hbss Hpos.
  destruct (locate_piece s _ _ bss pos Hc Hbss Hpos)
    as (l1 & q & l2 & P & k & bss1 & bq & bss2 & El & -> & Hget & HP & Hk
        & Hmax & Hfirst & Hb1 & Hbq & Hb2 & Epos & Elq).
  destruct Hc as (Hch & _ & Hlen & Hsize & Hsmax).
  pose proof (chain_NoDup _ _ _ _ Hch) as Hnd.
  unfold editor_iterator_get. rewrite (bind_Ok _ _ _ _ _ Hget).
  cbn [piece off].
  destruct (decide (q = begin_)) as [->|Hq].
  - (* the begin sentinel: step to the first real piece *)
    rewrite bool_decide_true by done.
    unfold len_of in Hb0. rewrite HP in Hb0.
    assert (k = 0) as -> by lia.
    assert (l1 = [] ∧ l2 = l) as [-> ->].
    { destruct l1 as [|x l1]; cbn in El; [by injection El|].
      injection El as <- El. rewrite El in Hnd.
      apply NoDup_cons in Hnd as [Hnd _]. exfalso. apply Hnd.
      apply elem_of_app. right. by apply elem_of_cons; left. }
    apply Forall2_nil_inv_l in Hb1 as ->.
    assert (bq = []) as -> by (destruct bq; [done|cbn in Elq; lia]).
    destruct l as [|r l]; [done|].
    pose proof Hch as (_ & P' & HP' & _ & Hch').
    rewrite HP in HP'. injection HP' as <-.
    pose proof Hch' as (Hn & R & HR & _).
    cbn [app] in Hb2.
    apply Forall2_cons_inv_l in Hb2 as (br & bss3 & Hbr & Hb3 & ->).
    assert (0 ≤ p_len R < SIZE_MOD) as HRlen.
    { apply Forall_cons in Hlen as [_ [Hr Hl]%Forall_cons].
      pose proof (total_len_nonneg _ _ Hl).
      rewrite !total_len_cons in Hsize. unfold len_of in Hr, Hsize at 2.
      rewrite HR in Hr, Hsize. unfold len_of in Hsize. rewrite HP in Hsize. lia. }
    assert (Z.of_nat (length br) = p_len R) as Elr.
    { destruct Hbr as (R' & HR' & Hl & _). rewrite HR in HR'.
      by injection HR' as <-. }
    assert (pos = 0) as -> by (cbn in Epos; lia).
    exists (mkIterator (Some r) (cptr_add (p_content R) 0) (subw (p_len R) 0)),
      [], r, l, [], br, bss3.
    split.
    { rewrite bind_assoc, (bind_Ok _ _ _ _ _ (load_piece_Ok _ _ _ HP)), bind_ret.
      rewrite Hn. by rewrite (bind_Ok _ _ _ _ _ (load_piece_Ok _ _ _ HR)). }
    split.
    { rewrite (iterator_valid_member s (r :: l) _ r); [|done|done|].
      - rewrite bool_decide_true; [done|]. by apply elem_of_cons; left.
      - by apply elem_of_cons; left. }
    split; [done|]. split; [done|]. split; [constructor|].
    split; [done|]. split; [done|].
    split; [cbn; lia|]. split; [done|].
    split.
    { cbn [it_len concat length]. unfold subw, wrap.
      rewrite Z.sub_0_r, Z.mod_small by lia. lia. }
    split; [|done].
    cbn [it_text it_len].
    rewrite (piece_bytes_read_from s r br R 0); [done|done|done|lia|lia].
  - assert (∃ l1', l1 = begin_ :: l1' ∧ l = l1' ++ q :: l2)
      as (l1' & -> & ->).
    { destruct l1 as [|x l1]; cbn in El; injection El as ? El; [congruence|].
      subst x. by exists l1. }
    apply Forall2_cons_inv_l in Hb1 as (b0 & bss1' & Hbb & Hb1 & ->).
    assert (b0 = []) as ->.
    { destruct Hbb as (B0 & HB0 & Hl0 & _). unfold len_of in Hb0.
      rewrite HB0 in Hb0. destruct b0; [done|cbn in Hl0; lia]. }
    cbn [concat app] in Epos.
    exists (mkIterator (Some q) (cptr_add (p_content P) k) (subw (p_len P) k)),
      l1', q, l2, bss1', bq, bss2.
    assert (Z.to_nat pos - length (concat bss1') = Z.to_nat k)%nat as Ek
      by lia.
    rewrite Ek.
    split.
    { rewrite bool_decide_false by congruence. rewrite bind_ret.
      by rewrite (bind_Ok _ _ _ _ _ (load_piece_Ok _ _ _ HP)). }
    split.
    { rewrite (iterator_valid_member s (l1' ++ q :: l2) _ q); [|done|done|].
      - rewrite bool_decide_true; [done|].
        apply elem_of_app. right. by apply elem_of_cons; left.
      - apply elem_of_app. left. apply elem_of_app. right.
        by apply elem_of_cons; left. }
    split; [done|]. split; [done|]. split; [done|].
    split; [done|]. split; [done|].
    split; [lia|].
    split; [intros _; specialize (Hfirst ltac:(done)); lia|].
    split.
    { cbn [it_len]. unfold subw, wrap. rewrite Z.mod_small by lia. lia. }
    split.
    { cbn [it_text it_len].
      apply (piece_bytes_read_from s q); [done|done|lia|lia]. }
    cbn [concat app]. rewrite Epos, concat_app, drop_app_add'; [|done].
    cbn [concat]. rewrite drop_app_le by lia. done.
Qed.

Lemma iterator_get_reads_document_witness :
  ∃ s,
    final (session (Some "abcdef"%string) [Insert 3 "XYZ"%string]) = Some s
    ∧ consistent s (begin_ :: [4; 5; 6]%nat) end_
    ∧ Forall2 (piece_bytes s) ((begin_ :: [4; 5; 6]%nat) ++ [end_])
        (list_ascii_of_string <$> [""; "abc"; "XYZ"; "def"; ""]%string)
    ∧ (∃ it,
         editor_iterator_get 4 s = Ok it s
         ∧ it_piece it = Some 5%nat ∧ it_len it = 2
         ∧ read_bytes (it_text it) (it_len it) s
           = Ok (list_ascii_of_string "YZ") s)
    ∧ (∃ it,
         editor_iterator_get 3 s = Ok it s
         ∧ it_piece it = Some 4%nat ∧ it_len it = 0
         ∧ read_bytes (it_text it) (it_len it) s = Ok [] s)
    ∧ ∃ it l1 q l2 bss1 bq bss2,
        editor_iterator_get 4 s = Ok it s
        ∧ editor_iterator_valid it s = Ok true s
        ∧ [4; 5; 6]%nat = l1 ++ q :: l2
        ∧ list_ascii_of_string <$> [""; "abc"; "XYZ"; "def"; ""]%string
          = [] :: bss1 ++ bq :: bss2
        ∧ Forall2 (piece_bytes s) l1 bss1
        ∧ piece_bytes s q bq
        ∧ it_piece it = Some q
        ∧ (length (concat bss1) ≤ Z.to_nat 4
           ≤ length (concat bss1) + length bq)%nat
        ∧ (l1 ≠ [] → (length (concat bss1) < Z.to_nat 4)%nat)
        ∧ it_len it = Z.of_nat (length (concat bss1) + length bq) - 4
        ∧ read_bytes (it_text it) (it_len it) s
          = Ok (drop (Z.to_nat 4 - length (concat bss1)) bq) s
        ∧ drop (Z.to_nat 4)
            (concat (list_ascii_of_string <$> [""; "abc"; "XYZ"; "def"; ""]%string))
          = drop (Z.to_nat 4 - length (concat bss1)) bq ++ concat bss2.
Proof.
  eexists. split; [vm_compute; reflexivity|].
  match goal with |- consistent ?s (_ :: ?l) ?e ∧ Forall2 _ _ ?bss ∧ _ =>
    assert (consistent s (begin_ :: l) e) as Hc by check_consistent;
    assert (Forall2 (piece_bytes s) ((begin_ :: l) ++ [e]) bss) as Hb
      by check_piece_bytes;
    split; [exact Hc|]; split; [exact Hb|];
    split; [eexists; vm_compute; repeat split; reflexivity|];
    split; [eexists; vm_compute; repeat split; reflexivity|];
    apply (iterator_get_reads_document s l bss 4 Hc);
      [vm_compute; reflexivity|done|exact Hb|vm_compute; split; congruence]
  end.
Defined.

(** ** Buffers *)

Lemma buffer_alloc_inv sz s b s' :
  buffer_alloc sz s = Ok (Some b) s' →
  b = brk s
  ∧ hp_buffer s'
    = <[b := mkBuffer (if BUFFER_SIZE >? sz then BUFFER_SIZE else sz) 0 []
                (buffers s)]> (hp_buffer s)
  ∧ buffers s' = Some b.
Proof.
  unfold buffer_alloc.
  intros (ok & s1 & [o ->]%alloc_ok_inv & H)%bind_inv.
  destruct ok; unfold negb in H; cbv beta iota in H;
    [|by apply ret_inv in H as [? _]].
  apply bind_inv in H as (ok & s1 & [o' ->]%alloc_ok_inv & H).
  destruct ok; unfold negb in H; cbv beta iota in H;
    [|by apply ret_inv in H as [? _]].
  apply bind_inv in H as (b' & s1 & [-> ->]%fresh_inv & H).
  apply bind_inv in H as (u & s1 & ->%modify_inv & [[= ->] ->]%ret_inv).
  by cbn.
Qed.

Lemma buffer_append_spec b content len s c s' :
  buffer_append (Some b) content len s = Ok c s' →
  ∃ B, hp_buffer s !! b = Some B
    ∧ c = Some (CPtr b (b_pos B))
    ∧ hp_buffer s'
      = <[b := mkBuffer (b_size B) (addw (b_pos B) len)
                  (take (Z.to_nat (b_pos B)) (b_content B)
                     ++ take (Z.to_nat len) content) (b_next B)]> (hp_buffer s)
    ∧ s' = set_hp_buffer (hp_buffer s') s.
Proof.
  unfold buffer_append.
  intros (B & s1 & [-> (j & [= <-] & Hj)]%load_buffer_inv & H)%bind_inv.
  apply bind_inv in H
    as (u & s1 & (j & B' & [= <-] & HB' & ->)%store_buffer_inv & [-> ->]%ret_inv).
  rewrite Hj in HB'. injection HB' as <-. by exists B.
Qed.

(** X14: the bytes buffer_store stored can be read back from the pointer
    it returns, and every buffer allocated before holds afterwards the
    bytes it held, possibly followed by more: stored bytes are never
    overwritten. *)
Theorem buffer_store_round_trip text len s c s' :
  head_buffer_ok s →
  buffers_fresh s →
  0 ≤ len →
  buffer_store text len s = Ok (Some c) s' →
  read_bytes (Some c) len s' = Ok (take (Z.to_nat len) text) s'
  ∧ ∀ b B, hp_buffer s !! b = Some B →
      ∃ B' k, hp_buffer s' !! b = Some B' ∧ b_content B' = b_content B ++ k.
Proof.
  intros Hhead Hfresh Hlen. unfold buffer_store.
  intros (buf & s0 & [-> ->]%gets_inv & H)%bind_inv.
  apply bind_inv in H as (full & s1 & Hfull & H).
  assert (∀ b0 s1 s2 c,
    (s1 = s ∧ buffers s = Some b0)
    ∨ (∃ sz, buffer_alloc sz s = Ok (Some b0) s1) →
    buffer_append (Some b0) text len s1 = Ok (Some c) s2 →
    read_bytes (Some c) len s2 = Ok (take (Z.to_nat len) text) s2
    ∧ ∀ b B, hp_buffer s !! b = Some B →
        ∃ B' k, hp_buffer s2 !! b = Some B' ∧ b_content B' = b_content B ++ k)
    as Happend.
  { clear -Hhead Hfresh. intros b0 s1 s2 c Hs1
      (B & HB & [= ->] & Hh & _)%buffer_append_spec.
    assert (Z.of_nat (length (b_content B)) = b_pos B
            ∧ ∀ b B0, hp_buffer s !! b = Some B0 →
                (b = b0 → s1 = s ∧ B0 = B)
                ∧ (b ≠ b0 → hp_buffer s1 !! b = Some B0)) as [Hpos Hold].
    { destruct Hs1 as [[-> Hb0]|[sz (-> & Hh1 & _)%buffer_alloc_inv]].
      - destruct (Hhead _ Hb0) as (B' & HB' & Hp).
        rewrite HB in HB'. injection HB' as <-. split; [done|].
        intros b B0 HB0. split; [intros ->; split; congruence|done].
      - rewrite Hh1, lookup_insert_eq in HB. injection HB as <-.
        split; [done|]. intros b B0 HB0.
        assert (b ≠ brk s) as Hne.
        { intros ->. assert (brk s < brk s)%nat; [|lia].
          apply Hfresh. by eexists. }
        split; [done|]. intros _. by rewrite Hh1, lookup_insert_ne. }
    assert (take (Z.to_nat (b_pos B)) (b_content B) = b_content B) as Etake.
    { apply take_ge. lia. }
    split.
    - unfold read_bytes. destruct (len =? 0) eqn:E.
      { apply Z.eqb_eq in E. by subst len. }
      cbn [blk ofs].
      erewrite bind_Ok by (apply load_buffer_Ok; rewrite Hh; apply lookup_insert_eq).
      unfold ret. f_equal. cbn [b_content]. rewrite Etake.
      rewrite drop_app_length'; [|lia]. by rewrite take_take, Nat.min_id.
    - intros b B0 HB0. destruct (Hold b B0 HB0) as [Heq Hne].
      destruct (decide (b = b0)) as [->|Hb].
      + destruct (Heq eq_refl) as [-> ->].
        do 2 eexists. rewrite Hh, lookup_insert_eq. split; [done|].
        cbn [b_content]. by rewrite Etake.
      + exists B0, []. rewrite Hh, lookup_insert_ne by done.
        split; [by apply Hne|by rewrite app_nil_r]. }
  destruct full.
  - apply bind_inv in H as (buf & s2 & Halloc & H).
    destruct buf as [b0|]; [|by apply ret_inv in H as [? _]].
    assert (s1 = s) as ->.
    { destruct (buffers s); [|by apply ret_inv in Hfull as [_ ->]].
      apply bind_inv in Hfull as (B & s3 & [-> _]%load_buffer_inv & Hfull).
      by apply ret_inv in Hfull as [_ ->]. }
    apply (Happend b0 s2 s' c); [right; eauto|done].
  - destruct (buffers s) as [b0|] eqn:Eb; [|by apply ret_inv in Hfull as [? _]].
    apply bind_inv in Hfull as (B & s3 & [-> _]%load_buffer_inv & Hfull).
    apply ret_inv in Hfull as [_ ->].
    apply (Happend b0 s s' c); [by left|done].
Qed.

Lemma buffer_store_round_trip_witness :
  ∃ s c s',
    final (session (Some "ab"%string) [Insert 1 "xy"%string]) = Some s
    ∧ head_buffer_ok s ∧ buffers_fresh s
    ∧ buffer_store (list_ascii_of_string "hello") 5 s = Ok (Some c) s'
    ∧ read_bytes (Some c) 5 s' = Ok (list_ascii_of_string "hello") s'.
Proof.
  do 3 eexists. split; [vm_compute; reflexivity|].
  match goal with
  | |- head_buffer_ok ?s ∧ _ ∧ buffer_store ?t ?n _ = Ok (Some ?c) ?s' ∧ _ =>
    assert (head_buffer_ok s) as Hh;
      [|assert (buffers_fresh s) as Hf;
        [|assert (buffer_store t n s = Ok (Some c) s') as Hst
            by (vm_compute; reflexivity);
          split; [exact Hh|]; split; [exact Hf|]; split; [exact Hst|];
          exact (proj1 (buffer_store_round_trip t n s c s' Hh Hf
                          ltac:(lia) Hst))]]
  end.
  - intros b [= <-]. eexists. split; vm_compute; reflexivity.
  - intros i [x Hx]. revert i x Hx.
    apply (bool_decide_unpack (map_Forall _ _)). vm_compute. exact I.
Defined.

Lemma set_hp_buffer_id s : set_hp_buffer (hp_buffer s) s = s.
Proof. by destruct s. Qed.

(** X15: a buffer_insert that returns true places the len bytes at pos
    and moves the bytes behind them up; a buffer_delete of the same
    range then returns true and restores the buffer, and with it the
    state, as it was. *)
Theorem buffer_delete_undoes_buffer_insert b B pos text len s s1 :
  hp_buffer s !! b = Some B →
  Z.of_nat (length (b_content B)) = b_pos B →
  0 ≤ pos → 0 ≤ len ≤ Z.of_nat (length text) →
  b_pos B + len < SIZE_MOD →
  buffer_insert (Some b) pos text len s = Ok true s1 →
  (∃ B1, hp_buffer s1 !! b = Some B1
     ∧ b_content B1
       = take (Z.to_nat pos) (b_content B) ++ take (Z.to_nat len) text
           ++ drop (Z.to_nat pos) (b_content B)
     ∧ b_pos B1 = b_pos B + len)
  ∧ buffer_delete (Some b) pos len s1 = Ok true s.
Proof.
  intros HB Hcont Hpos Hlen Hmax. unfold buffer_insert.
  rewrite (bind_Ok _ _ _ _ _ (load_buffer_Ok _ _ _ HB)).
  destruct (pos >? b_pos B) eqn:Egt; cbn [orb]; [by intros [? _]%ret_inv|].
  rewrite Z.gtb_ltb in Egt. apply Z.ltb_ge in Egt.
  destruct (buffer_capacity B len); cbn [negb]; [|by intros [? _]%ret_inv].
  assert (addw (b_pos B) len = b_pos B + len) as Eadd.
  { unfold addw, wrap. apply Z.mod_small. lia. }
  assert (subw (b_pos B + len) len = b_pos B) as Esub.
  { unfold subw, wrap. replace (b_pos B + len - len) with (b_pos B) by lia.
    apply Z.mod_small. lia. }
  assert (length (take (Z.to_nat len) text) = Z.to_nat len) as Etl.
  { rewrite length_take. lia. }
  assert (∀ s1 c1,
    hp_buffer s1 = <[b := mkBuffer (b_size B) (b_pos B + len) c1 (b_next B)]>
                     (hp_buffer s) →
    s1 = set_hp_buffer (hp_buffer s1) s →
    c1 = take (Z.to_nat pos) (b_content B) ++ take (Z.to_nat len) text
           ++ drop (Z.to_nat pos) (b_content B) →
    buffer_delete (Some b) pos len s1 = Ok true s) as Hdel.
  { intros s2 c1 Hh Hs2 ->. rewrite Hh in Hs2. clear Hh. subst s2.
    unfold buffer_delete.
    erewrite bind_Ok by (apply load_buffer_Ok; cbn; apply lookup_insert_eq).
    cbn [b_pos].
    assert ((addw pos len >? b_pos B + len) = false) as ->.
    { rewrite Z.gtb_ltb. apply Z.ltb_ge. unfold addw, wrap.
      rewrite Z.mod_small; lia. }
    assert (length (take (Z.to_nat pos) (b_content B)) = Z.to_nat pos) as Etp.
    { rewrite length_take. lia. }
    assert (∀ c1 c2, c2 = b_content B →
      set_hp_buffer
        (<[b := mkBuffer (b_size B) (b_pos B) c2 (b_next B)]>
           (<[b := mkBuffer (b_size B) (b_pos B + len) c1 (b_next B)]>
              (hp_buffer s)))
        (set_hp_buffer
           (<[b := mkBuffer (b_size B) (b_pos B + len) c1 (b_next B)]>
              (hp_buffer s)) s)
      = s) as Hfin.
    { intros c1 c2 ->. rewrite insert_insert_eq.
      rewrite insert_id by (by destruct B). by destruct s. }
    destruct (b_pos B + len =? pos) eqn:Eeq.
    - apply Z.eqb_eq in Eeq. assert (len = 0 ∧ pos = b_pos B) as [-> ->] by lia.
      erewrite bind_Ok
        by (apply store_buffer_Ok; cbn; apply lookup_insert_eq).
      cbn [b_pos b_size b_content b_next hp_buffer set_hp_buffer].
      cbv beta. unfold ret. f_equal.
      rewrite Esub. apply Hfin.
      rewrite (drop_ge (b_content B)) by lia. cbn [Z.to_nat take app].
      rewrite app_nil_r, take_take. apply take_ge. lia.
    - assert ((pos + len <? SIZE_MOD) = true) as ->
        by (apply Z.ltb_lt; lia).
      erewrite bind_Ok
        by (apply store_buffer_Ok; cbn; apply lookup_insert_eq).
      cbn [b_pos b_size b_content b_next hp_buffer set_hp_buffer].
      cbv beta. unfold ret. f_equal.
      rewrite Esub. apply Hfin.
      rewrite take_app_length' by done.
      rewrite Z2Nat.inj_add, app_assoc by lia.
      rewrite drop_app_length'; [|rewrite length_app; lia].
      apply take_drop. }
  destruct (b_pos B =? pos) eqn:Eeq.
  - apply Z.eqb_eq in Eeq. subst pos.
    intros (d & s2 & (B' & HB' & -> & Hh & Hs2)%buffer_append_spec & H)%bind_inv.
    apply ret_inv in H as [_ ->].
    rewrite HB in HB'. injection HB' as <-. rewrite Eadd in Hh.
    assert (drop (Z.to_nat (b_pos B)) (b_content B) = []) as Edrop
      by (apply drop_ge; lia).
    split.
    + eexists. rewrite Hh, lookup_insert_eq. split; [done|].
      cbn [b_content b_pos]. by rewrite Edrop, app_nil_r.
    + eapply Hdel; [exact Hh|exact Hs2|by rewrite Edrop, app_nil_r].
  - erewrite bind_Ok by (apply store_buffer_Ok; exact HB).
    cbv beta. intros [= <-]. rewrite Eadd. split.
    + eexists. cbn. rewrite lookup_insert_eq. done.
    + eapply Hdel; [by cbn|done|done].
Qed.

Lemma buffer_delete_undoes_buffer_insert_witness :
  ∃ s b B s1,
    final (session (Some "ab"%string) [Insert 1 "xyz"%string]) = Some s
    ∧ buffers s = Some b ∧ hp_buffer s !! b = Some B
    ∧ buffer_insert (Some b) 1 (list_ascii_of_string "Q") 1 s = Ok true s1
    ∧ (∃ B1, hp_buffer s1 !! b = Some B1
         ∧ b_content B1 = list_ascii_of_string "xQyz"
         ∧ b_pos B1 = 4)
    ∧ buffer_delete (Some b) 1 1 s1 = Ok true s.
Proof.
  do 4 eexists. split; [vm_compute; reflexivity|].
  split; [reflexivity|].
  match goal with
  | |- hp_buffer ?s !! ?b = Some ?B ∧ buffer_insert _ ?pos ?t ?n _ = Ok true ?s1 ∧ _ =>
    assert (hp_buffer s !! b = Some B) as HB by (vm_compute; reflexivity);
    assert (buffer_insert (Some b) pos t n s = Ok true s1) as Hi
      by (vm_compute; reflexivity);
    split; [exact HB|]; split; [exact Hi|];
    apply (buffer_delete_undoes_buffer_insert b B pos t n s s1 HB);
      [vm_compute; reflexivity|lia|vm_compute; split; congruence
      |vm_compute; reflexivity|exact Hi]
  end.
Defined.

(** ** Saving *)

Lemma read_only_read_bytes content len : read_only (read_bytes content len).
Proof. unfold read_only, read_bytes. repeat pres_step. Qed.

Lemma read_only_iterate_loop {D} n (cb : iterator_callback D) data p pos
    content len :
  read_only (iterate_loop n cb data p pos content len).
Proof.
  unfold read_only. revert data p pos content len.
  induction n as [|n IH]; intros data p pos content len; cbn;
    repeat first [pres_step | apply read_only_read_bytes]; auto.
Qed.

Lemma read_only_editor_iterate {D} (data : D) pos cb :
  read_only (editor_iterate data pos cb).
Proof.
  unfold read_only, editor_iterate.
  repeat first
    [ pres_step | apply read_only_piece_get | apply read_only_iterate_loop ].
Qed.

(** X16: whenever editor_save returns it returns -1, also when every
    system call succeeded (control falls through to the error exit).
    In that case the top of the undo stack has become the saved action,
    no action is open, the cache is cleared and editor_modified reports
    false; when a system call failed the editor is unchanged. *)
Theorem editor_save_reports_failure io s r s' :
  editor_save io s = Ok r s' →
  r = -1
  ∧ if calls_succeed io (size s)
    then s' = set_cache None
                (set_current_action None (set_saved_action (undo s) s))
         ∧ editor_modified s' = Ok false s'
    else s' = s.
Proof.
  unfold editor_save, calls_succeed.
  destruct (open_ok io); cbn [negb andb]; [|by intros [-> ->]%ret_inv].
  destruct (ftruncate_ok io); cbn [negb andb]; [|by intros [-> ->]%ret_inv].
  rewrite bind_gets. cbv beta.
  intros (mapped & s1 & Hmap & H)%bind_inv.
  assert (s1 = s
          ∧ mapped = (negb (size s >? 0) || (mmap_ok io && munmap_ok io)))
    as [-> ->].
  { destruct (size s >? 0); cbn [negb orb]; [|by apply ret_inv in Hmap as [-> ->]].
    destruct (mmap_ok io); cbn [negb andb] in *;
      [|by apply ret_inv in Hmap as [-> ->]].
    apply bind_inv in Hmap as (bytes & s2 & ->%read_only_editor_iterate & Hmap).
    destruct (_ >? _); [done|]. by apply ret_inv in Hmap as [-> ->]. }
  destruct (negb (size s >? 0) || (mmap_ok io && munmap_ok io));
    cbn [negb andb] in *; [|by apply ret_inv in H as [-> ->]].
  destruct (close_ok io); cbn [negb andb] in *;
    [|by apply ret_inv in H as [-> ->]].
  destruct (rename_ok io); cbn [negb andb] in *;
    [|by apply ret_inv in H as [-> ->]].
  apply bind_inv in H as (u & s2 & ->%modify_inv & H).
  apply bind_inv in H as (u' & s2 & Hsnap & [-> ->]%ret_inv).
  unfold editor_snapshot in Hsnap.
  apply bind_inv in Hsnap as (u2 & s3 & ->%modify_inv & ->%modify_inv).
  split; [done|]. split; [done|].
  unfold editor_modified, gets. cbn. by rewrite bool_decide_false by (by intros ?).
Qed.

Lemma editor_save_reports_failure_witness :
  ∃ s s',
    final (session (Some "ab"%string) [Insert 1 "x"%string]) = Some s
    ∧ editor_modified s = Ok true s
    ∧ editor_save (mkSaveIo true true true true true true) s = Ok (-1) s'
    ∧ s' = set_cache None
             (set_current_action None (set_saved_action (undo s) s))
    ∧ editor_modified s' = Ok false s'.
Proof.
  do 2 eexists. split; [vm_compute; reflexivity|].
  split; [vm_compute; reflexivity|].
  match goal with |- editor_save ?io ?s = Ok ?r ?s' ∧ _ =>
    assert (editor_save io s = Ok r s') as H by (vm_compute; reflexivity);
    split; [exact H|];
    exact (proj2 (editor_save_reports_failure io s r s' H))
  end.
Defined.

(** ** Splicing pieces into the chain *)

Lemma lseg_app h p l1 l2 p' :
  lseg h p (l1 ++ l2) p' ↔ ∃ m, lseg h p l1 m ∧ lseg h m l2 p'.
Proof.
  revert p. induction l1 as [|a l1 IH]; intros p; cbn [app lseg].
  - split; [by exists p|by intros (m & -> & ?)].
  - split.
    + intros (-> & P & HP & (m & H1 & H2)%IH). eauto 10.
    + intros (m & (-> & P & HP & H1) & H2). split; [done|].
      exists P. split; [done|]. apply IH. eauto.
Qed.

Lemma chain_lseg h p l e :
  chain h p l e ↔ lseg h p l (Some e) ∧ ∃ E, h !! e = Some E ∧ p_next E = None.
Proof.
  revert p. induction l as [|a l IH]; intros p; cbn [chain lseg]; [done|].
  split.
  - intros (-> & P & HP & _ & [H1 H2]%IH). eauto 10.
  - intros ((-> & P & HP & H1) & H2). split; [done|]. exists P.
    split; [done|]. split; [|apply IH; eauto].
    destruct l; cbn in H1; [rewrite H1; by eexists|].
    destruct H1 as [-> _]. by eexists.
Qed.

Lemma lseg_ext h h' p l p' :
  (∀ x, x ∈ l → p_next <$> h' !! x = p_next <$> h !! x) →
  lseg h p l p' → lseg h' p l p'.
Proof.
  revert p. induction l as [|a l IH]; intros p Hext; cbn [lseg]; [done|].
  intros (-> & P & HP & H). split; [done|].
  assert (a ∈ a :: l) as Ha by (by apply elem_of_cons; left).
  specialize (Hext a Ha) as Hx. rewrite HP in Hx.
  destruct (h' !! a) as [P'|] eqn:HP'; [|done]. cbn in Hx. injection Hx as Hx.
  exists P'. split; [done|]. rewrite Hx. apply IH; [|done].
  intros x Hin. apply Hext. apply elem_of_cons. by right.
Qed.

Lemma lseg_head h p l p' : lseg h p l p' → p = head (l ++ option_list p').
Proof.
  destruct l; cbn; [intros ->; by destruct p'|by intros [-> _]].
Qed.

(** The chain with the pieces [mid] behind [q] replaced by [nl]. *)
Lemma chain_splice h h' p l1 q mid nl l2 e :
  chain h p (l1 ++ q :: mid ++ l2) e →
  (∀ x, x ∈ l1 → p_next <$> h' !! x = p_next <$> h !! x) →
  (∀ x, x ∈ l2 ++ [e] → p_next <$> h' !! x = p_next <$> h !! x) →
  p_next <$> h' !! q = Some (head (nl ++ l2 ++ [e])) →
  lseg h' (head (nl ++ l2 ++ [e])) nl (head (l2 ++ [e])) →
  chain h' p (l1 ++ q :: nl ++ l2) e.
Proof.
  intros [Hseg (E & HE & HEn)]%chain_lseg H1 H2 Hq Hnl.
  apply lseg_app in Hseg as (m & Hl1 & Hseg).
  destruct Hseg as (-> & Q & HQ & Hseg).
  apply lseg_app in Hseg as (m & Hmid & Hl2).
  pose proof (lseg_head _ _ _ _ Hl2) as Hm. subst m.
  apply chain_lseg. split.
  - apply lseg_app. exists (Some q). split; [by eapply lseg_ext|].
    destruct (h' !! q) as [Q'|] eqn:HQ'; [|done]. cbn in Hq. injection Hq as Hq.
    split; [done|]. exists Q'. split; [done|]. rewrite Hq.
    apply lseg_app. eexists. split; [exact Hnl|].
    eapply lseg_ext; [|exact Hl2].
    intros x Hx. apply H2. apply elem_of_app. by left.
  - assert (e ∈ l2 ++ [e]) as He.
    { apply elem_of_app. right. by apply list_elem_of_singleton. }
    specialize (H2 e He). rewrite HE in H2.
    destruct (h' !! e) as [E'|] eqn:HE'; [|done]. cbn in H2.
    exists E'. split; [done|]. congruence.
Qed.

(** ** Running an insert *)

Lemma fresh_Ok s : fresh s = Ok (brk s) (set_brk (S (brk s)) s).
Proof. done. Qed.

Lemma load_action_Ok s i A :
  hp_action s !! i = Some A → load_action (Some i) s = Ok A s.
Proof. unfold load_action. by intros ->. Qed.

Lemma store_action_Ok s i A f :
  hp_action s !! i = Some A →
  store_action (Some i) f s
  = Ok () (set_hp_action (<[i := f A]> (hp_action s)) s).
Proof.
  intros H. unfold store_action.
  by rewrite (bind_Ok _ _ _ _ _ (load_action_Ok _ _ _ H)).
Qed.

(** change_alloc on a state with an allocated current action, or with
    none and nothing to redo, when no allocation fails. *)
Lemma change_alloc_runs s :
  allocations_succeed s →
  (current_action s = None ∧ redo s = None)
  ∨ (∃ a, current_action s = Some a ∧ is_Some (hp_action s !! a)) →
  ∃ c s1 C0,
    change_alloc s = Ok (Some c) s1
    ∧ hp_change s1 !! c = Some C0
    ∧ hp_piece s1 = hp_piece s ∧ hp_buffer s1 = hp_buffer s
    ∧ buffers s1 = buffers s ∧ piece_count s1 = piece_count s
    ∧ size s1 = size s ∧ oracle s1 = [] ∧ (brk s ≤ brk s1)%nat
    ∧ redo s1 = redo s ∧ cache s1 = cache s.
Proof.
  intros Ho Hcase. unfold allocations_succeed in Ho.
  assert (∀ a A s0,
    hp_action s0 !! a = Some A → oracle s0 = [] →
    ∃ c s1 C0,
      (let! ok := alloc_ok in
       if negb ok then ret None else
       let! c := fresh in
       let! A := load_action (Some a) in
       let! _ := modify (λ s,
         set_hp_change
           (<[c := mkChange empty_span empty_span (a_change A)]> (hp_change s))
           s) in
       let! _ := store_action (Some a) (set_a_change (Some c)) in
       ret (Some c)) s0 = Ok (Some c) s1
      ∧ hp_change s1 !! c = Some C0
      ∧ hp_piece s1 = hp_piece s0 ∧ hp_buffer s1 = hp_buffer s0
      ∧ buffers s1 = buffers s0 ∧ piece_count s1 = piece_count s0
      ∧ size s1 = size s0 ∧ oracle s1 = [] ∧ (brk s0 ≤ brk s1)%nat
      ∧ redo s1 = redo s0 ∧ cache s1 = cache s0) as Hchange.
  { intros a A s0 HA Ho0.
    rewrite (bind_Ok _ _ _ _ _ (alloc_ok_Ok _ Ho0)). cbn [negb].
    rewrite (bind_Ok _ _ _ _ _ (fresh_Ok _)).
    erewrite bind_Ok by (apply load_action_Ok; norm_state; exact HA).
    rewrite bind_modify.
    erewrite bind_Ok by (apply store_action_Ok; norm_state; exact HA).
    do 3 eexists. split; [reflexivity|]. norm_state.
    split; [apply lookup_insert_eq|]. split_and!; try done. lia. }
  unfold change_alloc. rewrite bind_gets.
  destruct Hcase as [[Hcur Hredo]|(a & Hcur & [A HA])]; rewrite Hcur.
  - unfold action_alloc. rewrite !bind_assoc.
    rewrite (bind_Ok _ _ _ _ _ (alloc_ok_Ok _ Ho)). cbn [negb].
    rewrite !bind_assoc, (bind_Ok _ _ _ _ _ (fresh_Ok _)).
    rewrite !bind_assoc, bind_modify, !bind_assoc, bind_gets.
    cbn [drain_redo]. unfold action_pop at 1.
    rewrite !bind_assoc, bind_gets. norm_state. cbn [stack_top]. norm_state.
    rewrite Hredo. rewrite !bind_ret, !bind_assoc, bind_modify.
    unfold action_push. rewrite !bind_assoc, bind_gets, !bind_assoc.
    erewrite bind_Ok
      by (apply store_action_Ok; cbn [set_stack_top]; norm_state;
          apply lookup_insert_eq).
    rewrite ?bind_assoc, bind_modify, ?bind_ret.
    match goal with |- ∃ c s1 C0, ?m ?s0 = _ ∧ _ =>
      destruct (Hchange (brk s) (set_a_next (undo s) (mkAction None None)) s0)
        as (c & s1 & C0 & Hrun & Hrest)
    end.
    { cbn [set_stack_top]. norm_state. apply lookup_insert_eq. }
    { cbn [set_stack_top]. by norm_state. }
    exists c, s1, C0. split; [exact Hrun|].
    cbn [set_stack_top] in Hrest. revert Hrest. norm_state.
    intros (?&?&?&?&?&?&?&?&?&?). split_and!; try done; [lia|congruence].
  - rewrite bind_ret. by apply (Hchange a A s).
Qed.

Lemma buffer_store_runs s text len :
  oracle s = [] → head_buffer_sound s → buffers_fresh s →
  0 ≤ len ≤ Z.of_nat (length text) → len < SIZE_MOD →
  ∃ t B hb bufs k,
    buffer_store text len s
    = Ok (Some t)
         (mkState (hp_piece s) (hp_change s) (hp_action s) hb k (oracle s)
            bufs (cache s) (piece_count s) (redo s) (undo s)
            (current_action s) (saved_action s) (size s))
    ∧ bufs = Some (blk t)
    ∧ 0 ≤ ofs t
    ∧ hb !! blk t = Some B
    ∧ take (Z.to_nat len) (drop (Z.to_nat (ofs t)) (b_content B))
      = take (Z.to_nat len) text
    ∧ ofs t + len = b_pos B
    ∧ Z.of_nat (length (b_content B)) = b_pos B
    ∧ b_pos B ≤ b_size B < SIZE_MOD
    ∧ (∀ b B0, hp_buffer s !! b = Some B0 →
         ∃ B' k', hb !! b = Some B' ∧ b_content B' = b_content B0 ++ k')
    ∧ (∀ i, is_Some (hb !! i) → (i < k)%nat)
    ∧ (brk s ≤ k)%nat.
Proof.
  intros Ho Hhead Hfresh Hlen Hmax. unfold buffer_store.
  rewrite bind_gets.
  assert (length (take (Z.to_nat len) text) = Z.to_nat len) as Etl
    by (rewrite length_take; lia).
  assert (∀ m : list ascii, take (Z.to_nat len) (take (Z.to_nat len) m)
                            = take (Z.to_nat len) m) as Htt.
  { intros m. rewrite take_take. f_equal. lia. }
  assert (∃ t B hb bufs k,
    (let! buf := buffer_alloc len in
     match buf with
     | None => ret None
     | Some _ => buffer_append buf text len
     end) s
    = Ok (Some t)
         (mkState (hp_piece s) (hp_change s) (hp_action s) hb k (oracle s)
            bufs (cache s) (piece_count s) (redo s) (undo s)
            (current_action s) (saved_action s) (size s))
    ∧ bufs = Some (blk t)
    ∧ 0 ≤ ofs t
    ∧ hb !! blk t = Some B
    ∧ take (Z.to_nat len) (drop (Z.to_nat (ofs t)) (b_content B))
      = take (Z.to_nat len) text
    ∧ ofs t + len = b_pos B
    ∧ Z.of_nat (length (b_content B)) = b_pos B
    ∧ b_pos B ≤ b_size B < SIZE_MOD
    ∧ (∀ b B0, hp_buffer s !! b = Some B0 →
         ∃ B' k', hb !! b = Some B' ∧ b_content B' = b_content B0 ++ k')
    ∧ (∀ i, is_Some (hb !! i) → (i < k)%nat)
    ∧ (brk s ≤ k)%nat) as Hnew.
  { unfold buffer_alloc. rewrite !bind_assoc.
    rewrite (bind_Ok _ _ _ _ _ (alloc_ok_Ok _ Ho)).
    unfold negb. cbv beta iota. rewrite !bind_assoc.
    rewrite (bind_Ok _ _ _ _ _ (alloc_ok_Ok _ Ho)). cbv beta iota.
    rewrite !bind_assoc. unfold bind at 1, fresh.
    rewrite bind_assoc, bind_modify, bind_ret.
    erewrite buffer_append_Ok by (cbn; apply lookup_insert_eq).
    do 5 eexists. split; [destruct s; reflexivity|].
    cbn [blk ofs b_content b_pos b_size].
    assert (addw 0 len = len) as Eadd.
    { unfold addw, wrap. apply Z.mod_small. lia. }
    split; [done|]. split; [done|]. split; [apply lookup_insert_eq|].
    cbn [b_content b_pos b_size take app drop Z.to_nat].
    change (take (Z.to_nat 0) [] ++ take (Z.to_nat len) text)
      with (take (Z.to_nat len) text).
    split; [apply Htt|]. split; [by rewrite Eadd|].
    split; [rewrite Eadd, Etl; lia|].
    split.
    { rewrite Eadd. assert (BUFFER_SIZE < SIZE_MOD) as Hbs by reflexivity.
      destruct (_ >? len) eqn:E; [|lia].
      rewrite Z.gtb_ltb in E. apply Z.ltb_lt in E. lia. }
    split; [|split; [|cbn; lia]].
    - intros b B0 HB0. exists B0, [].
      assert (b ≠ brk s) as Hne.
      { intros ->. assert (brk s < brk s)%nat; [|lia]. apply Hfresh. by eexists. }
      cbn. rewrite !lookup_insert_ne by done. by rewrite app_nil_r.
    - intros i. cbn. rewrite insert_insert_eq.
      destruct (decide (i = brk s)) as [->|Hne]; [lia|].
      rewrite lookup_insert_ne by done. intros Hi%Hfresh. lia. }
  destruct (buffers s) as [b|] eqn:Eb; [|by rewrite bind_ret].
  destruct (Hhead b Eb) as (B & HB & Hcont & Hpos & Hsize).
  rewrite bind_assoc, (bind_Ok _ _ _ _ _ (load_buffer_Ok _ _ _ HB)), bind_ret.
  destruct (buffer_capacity B len) eqn:Ecap; cbn [negb]; [|done].
  unfold buffer_capacity in Ecap. apply Z.geb_le in Ecap.
  assert (0 ≤ b_pos B) as Hp0 by lia.
  assert (subw (b_size B) (b_pos B) = b_size B - b_pos B) as Esub.
  { unfold subw, wrap. apply Z.mod_small. lia. }
  rewrite Esub in Ecap.
  assert (addw (b_pos B) len = b_pos B + len) as Eadd.
  { unfold addw, wrap. apply Z.mod_small. lia. }
  rewrite (buffer_append_Ok _ _ _ _ _ HB).
  do 5 eexists. split; [by destruct s|].
  cbn [blk ofs b_content b_pos b_size].
  assert (take (Z.to_nat (b_pos B)) (b_content B) = b_content B) as Etake
    by (apply take_ge; lia).
  split; [done|]. split; [done|]. split; [apply lookup_insert_eq|].
  cbn [b_content b_pos b_size]. rewrite Etake, Eadd.
  split; [rewrite drop_app_length' by lia; apply Htt|].
  split; [done|]. split; [rewrite length_app, Etl; lia|].
  split; [lia|]. split; [|split; [|lia]].
  - intros b' B0 HB0. destruct (decide (b' = b)) as [->|Hne].
    + rewrite HB in HB0. injection HB0 as <-.
      do 2 eexists. rewrite lookup_insert_eq. split; [done|]. done.
    + exists B0, []. rewrite lookup_insert_ne by done. by rewrite app_nil_r.
  - intros i Hi. apply Hfresh.
    destruct (decide (i = b)) as [->|Hne]; [by eexists|].
    by rewrite lookup_insert_ne in Hi.
Qed.

Lemma span_init_null s :
  span_init None None s = Ok empty_span s.
Proof. unfold span_init. by rewrite bind_gets. Qed.

Lemma cache_piece_runs s p :
  (∃ B P, ∀ b, buffers s = Some b →
     hp_buffer s !! b = Some B ∧ hp_piece s !! p = Some P) →
  ∃ cch, cache_piece (Some p) s = Ok () (set_cache cch s).
Proof.
  intros (B & P & H). unfold cache_piece. rewrite bind_gets.
  assert (ret () s = Ok () (set_cache (cache s) s)) as Hsame by (by destruct s).
  destruct (buffers s) as [b|]; [|eauto].
  destruct (H b eq_refl) as [HB HP].
  rewrite (bind_Ok _ _ _ _ _ (load_buffer_Ok _ _ _ HB)).
  rewrite (bind_Ok _ _ _ _ _ (load_piece_Ok _ _ _ HP)).
  destruct (p_content P); [|eauto].
  destruct (_ || _); [eauto|]. by eexists.
Qed.

Lemma set_hp_piece_ext s h h' : h = h' → set_hp_piece h s = set_hp_piece h' s.
Proof. by intros ->. Qed.

(** An insert at the right end of piece [q]: a new piece between [q]
    and its successor [r]. *)
Lemma boundary_insert_run s pos text q Q r R c C0 s1 :
  let len := Z.of_nat (strlen text) in
  let n := S (piece_count s1) in
  piece_get pos s = Ok (mkLocation (Some q) (p_len Q)) s →
  cache_insert (Some q) (p_len Q) text len s = Ok false s →
  change_alloc s = Ok (Some c) s1 →
  hp_change s1 !! c = Some C0 →
  oracle s1 = [] → head_buffer_sound s1 → buffers_fresh s1 →
  (∀ i, is_Some (hp_piece s1 !! i) → (i ≤ piece_count s1)%nat) →
  hp_piece s1 !! q = Some Q → p_next Q = Some r →
  hp_piece s1 !! r = Some R → q ≠ r →
  0 < len → 0 ≤ size s1 → size s1 + len < SIZE_MOD →
  ∃ s' t B,
    editor_insert pos text s = Ok true s'
    ∧ hp_piece s'
      = <[r := set_p_prev (Some n) R]>
          (<[q := set_p_next (Some n) Q]>
             (<[n := mkPiece (Some q) (Some r) (Some t) len]> (hp_piece s1)))
    ∧ size s' = size s1 + len
    ∧ piece_count s' = n
    ∧ oracle s' = []
    ∧ buffers s' = Some (blk t)
    ∧ 0 ≤ ofs t
    ∧ hp_buffer s' !! blk t = Some B
    ∧ take (Z.to_nat len) (drop (Z.to_nat (ofs t)) (b_content B))
      = take (Z.to_nat len) text
    ∧ Z.of_nat (length (b_content B)) = b_pos B
    ∧ b_pos B ≤ b_size B < SIZE_MOD
    ∧ (∀ b B0, hp_buffer s1 !! b = Some B0 →
         ∃ B' k', hp_buffer s' !! b = Some B' ∧ b_content B' = b_content B0 ++ k')
    ∧ (∀ i, is_Some (hp_buffer s' !! i) → (i < brk s')%nat)
    ∧ redo s' = redo s1 ∧ undo s' = undo s1
    ∧ current_action s' = current_action s1
    ∧ saved_action s' = saved_action s1
    ∧ hp_action s' = hp_action s1.
Proof.
  intros len n Hget Hmiss Hca Hc0 Ho Hhead Hbfresh Hfresh HQ Hqr HR Hne
    Hlen Hsz0 Hsz.
  assert (len ≤ Z.of_nat (length text)) as Hlt.
  { unfold len. clear. induction text as [|ch text IH]; cbn; [done|].
    destruct (decide (ch = zero)); cbn; lia. }
  assert ((q ≤ piece_count s1)%nat ∧ (r ≤ piece_count s1)%nat) as [Hqb Hrb].
  { split; apply Hfresh; eauto. }
  assert (q ≠ n ∧ r ≠ n) as [Hqn Hrn] by (unfold n; lia).
  destruct (buffer_store_runs s1 text len Ho Hhead Hbfresh)
    as (t & B & hb & bufs & bk & Hbs & -> & Hofs & HB & Hbytes & Htail & Hcont
        & Hcap & Hold & Hbf & Hbrk); [lia|lia|].
  unfold editor_insert. fold len.
  rewrite (bind_Ok _ _ _ _ _ Hget). cbn [piece off].
  rewrite (bind_Ok _ _ _ _ _ Hmiss).
  rewrite (bind_Ok _ _ _ _ _ Hca).
  rewrite (bind_Ok _ _ _ _ _ Hbs).
  erewrite bind_Ok by (apply (load_piece_Ok _ q Q); exact HQ).
  rewrite Z.eqb_refl.
  rewrite ?bind_assoc.
  erewrite bind_Ok by (apply piece_alloc_Ok; exact Ho).
  norm_state. fold n. rewrite ?bind_assoc.
  erewrite bind_Ok by (apply (load_piece_Ok _ q Q); norm_state; by lk).
  rewrite ?bind_assoc. unfold piece_init. rewrite Hqr.
  erewrite bind_Ok by (apply store_piece_Ok; norm_state; by lk).
  norm_state. rewrite ?bind_assoc. rewrite insert_insert_eq.
  erewrite bind_Ok by (eapply (span_init_one _ n); norm_state; by lk).
  cbn [p_len]. rewrite ?bind_assoc.
  assert (addw 0 len = len) as Eadd.
  { unfold addw, wrap. apply Z.mod_small. lia. }
  rewrite Eadd.
  erewrite bind_Ok by (apply store_change_Ok; norm_state; exact Hc0).
  norm_state. rewrite ?bind_assoc.
  rewrite (bind_Ok _ _ _ _ _ (span_init_null _)).
  rewrite ?bind_assoc.
  erewrite bind_Ok by (apply store_change_Ok; norm_state; apply lookup_insert_eq).
  norm_state. rewrite bind_ret.
  match goal with |- context [bind (cache_piece (Some n)) _ ?st] =>
    destruct (cache_piece_runs st n) as [cch Hcp]
  end.
  { exists B. eexists. intros b. norm_state. intros [= <-].
    split; [exact HB|]. by lk. }
  rewrite (bind_Ok _ _ _ _ _ Hcp). norm_state.
  erewrite bind_Ok by (apply load_change_Ok; norm_state; apply lookup_insert_eq).
  cbn [c_old c_new set_c_old set_c_new].
  unfold span_swap. cbn [s_len s_start s_end empty_span].
  assert ((len =? 0) = false) as -> by (apply Z.eqb_neq; clear -Hlen; lia).
  cbn [Z.eqb andb]. rewrite ?bind_assoc.
  erewrite bind_Ok by (apply (load_piece_Ok _ n); norm_state; by lk).
  cbn [p_prev]. rewrite ?bind_assoc.
  erewrite bind_Ok by (apply (store_piece_Ok _ q Q); norm_state; by lk).
  norm_state. rewrite ?bind_assoc.
  erewrite bind_Ok by (apply (load_piece_Ok _ n); norm_state; by lk).
  cbn [p_next]. rewrite ?bind_assoc.
  erewrite bind_Ok by (apply (store_piece_Ok _ r R); norm_state; by lk).
  norm_state. rewrite ?bind_assoc, !bind_modify. norm_state.
  eexists _, t, B. split; [reflexivity|]. norm_state.
  split; [done|].
  split.
  { unfold addw, subw, wrap. rewrite Z.sub_0_r, Zplus_mod_idemp_l.
    apply Z.mod_small. lia. }
  split_and!; try done; lia.
Qed.

Lemma insert3_over {X} (h : gmap nat X) b n a x y z x' y' z' :
  b ≠ n → b ≠ a → n ≠ a →
  <[a := z']> (<[n := y']> (<[b := x']>
    (<[a := z]> (<[n := y]> (<[b := x]> h)))))
  = <[a := z']> (<[n := y']> (<[b := x']> h)).
Proof.
  intros Hbn Hba Hna. apply map_eq. intros i.
  destruct (decide (i = a)) as [->|?]; [by rewrite !lookup_insert_eq|].
  destruct (decide (i = n)) as [->|?];
    [by repeat first [rewrite lookup_insert_eq
                     |rewrite lookup_insert_ne by done]|].
  destruct (decide (i = b)) as [->|?];
    by repeat first [rewrite lookup_insert_eq
                    |rewrite lookup_insert_ne by done].
Qed.

(** An insert strictly inside piece [p]: three new pieces take its
    place between its neighbours [q] and [r]. *)
Lemma midway_insert_runs s pos text p k P q Q r R c C0 s1 :
  let len := Z.of_nat (strlen text) in
  let b := S (piece_count s1) in
  let n := S b in
  let a := S n in
  piece_get pos s = Ok (mkLocation (Some p) k) s →
  cache_insert (Some p) k text len s = Ok false s →
  change_alloc s = Ok (Some c) s1 →
  hp_change s1 !! c = Some C0 →
  oracle s1 = [] → head_buffer_sound s1 → buffers_fresh s1 →
  (∀ i, is_Some (hp_piece s1 !! i) → (i ≤ piece_count s1)%nat) →
  hp_piece s1 !! p = Some P →
  0 < k < p_len P →
  p_prev P = Some q → q ≠ p → hp_piece s1 !! q = Some Q →
  p_next P = Some r → hp_piece s1 !! r = Some R → q ≠ r →
  0 ≤ size s1 → p_len P ≤ size s1 → size s1 + len < SIZE_MOD →
  ∃ s' t B,
    editor_insert pos text s = Ok true s'
    ∧ hp_piece s'
      = <[r := set_p_prev (Some a) R]>
          (<[q := set_p_next (Some b) Q]>
             (<[a := mkPiece (Some n) (Some r) (cptr_add (p_content P) k)
                       (p_len P - k)]>
                (<[n := mkPiece (Some b) (Some a) (Some t) len]>
                   (<[b := mkPiece (Some q) (Some n) (p_content P) k]>
                      (hp_piece s1)))))
    ∧ size s' = size s1 + len
    ∧ piece_count s' = a
    ∧ oracle s' = []
    ∧ buffers s' = Some (blk t)
    ∧ 0 ≤ ofs t
    ∧ hp_buffer s' !! blk t = Some B
    ∧ take (Z.to_nat len) (drop (Z.to_nat (ofs t)) (b_content B))
      = take (Z.to_nat len) text
    ∧ Z.of_nat (length (b_content B)) = b_pos B
    ∧ b_pos B ≤ b_size B < SIZE_MOD
    ∧ (∀ b B0, hp_buffer s1 !! b = Some B0 →
         ∃ B' k', hp_buffer s' !! b = Some B' ∧ b_content B' = b_content B0 ++ k')
    ∧ (∀ i, is_Some (hp_buffer s' !! i) → (i < brk s')%nat)
    ∧ redo s' = redo s1 ∧ undo s' = undo s1
    ∧ current_action s' = current_action s1
    ∧ saved_action s' = saved_action s1
    ∧ hp_action s' = hp_action s1.
Proof.
  intros len b n a Hget Hmiss Hca Hc0 Ho Hhead Hbfresh Hfresh Hp Hoff
    Hq Hqp HQ Hr HR Hqr.
  assert ((p ≤ piece_count s1)%nat ∧ (q ≤ piece_count s1)%nat
          ∧ (r ≤ piece_count s1)%nat) as (Hpb & Hqb & Hrb).
  { split_and!; apply Hfresh; eauto. }
  assert (b ≠ n ∧ b ≠ a ∧ n ≠ a ∧ p ≠ b ∧ p ≠ n ∧ p ≠ a ∧ q ≠ b ∧ q ≠ n
          ∧ q ≠ a ∧ r ≠ b ∧ r ≠ n ∧ r ≠ a)
    as (?&?&?&?&?&?&?&?&?&?&?&?) by (unfold a, n, b; clear -Hpb Hqb Hrb; lia).
  intros Hsz0 Hpsz Hsz.
  assert (0 ≤ len) as Hlen0 by (unfold len; clear; lia).
  assert (len ≤ Z.of_nat (length text)) as Hlt.
  { unfold len. clear. induction text as [|ch text IH]; cbn; [done|].
    destruct (decide (ch = zero)); cbn; lia. }
  assert (0 < p_len P) as Hplen by (clear -Hoff; lia).
  assert (p_len P < SIZE_MOD) as Hpmax by (clear -Hpsz Hsz Hlen0; lia).
  assert (len < SIZE_MOD) as Hlmax by (clear -Hsz0 Hsz; lia).
  destruct (buffer_store_runs s1 text len Ho Hhead Hbfresh)
    as (t & B & hb & bufs & bk & Hbs & -> & Hofs & HB & Hbytes & Htail & Hcont
        & Hcap & Hold & Hbf & Hbrk); [by split|done|].
  unfold editor_insert. fold len.
  rewrite (bind_Ok _ _ _ _ _ Hget). cbn [piece off].
  rewrite (bind_Ok _ _ _ _ _ Hmiss).
  rewrite (bind_Ok _ _ _ _ _ Hca).
  rewrite (bind_Ok _ _ _ _ _ Hbs).
  erewrite bind_Ok by (apply (load_piece_Ok _ p P); exact Hp).
  assert ((k =? p_len P) = false) as ->
    by (apply Z.eqb_neq; clear -Hoff; lia).
  rewrite ?bind_assoc.
  erewrite bind_Ok by (apply piece_alloc_Ok; exact Ho).
  rewrite ?bind_assoc.
  erewrite bind_Ok by (apply piece_alloc_Ok; exact Ho).
  rewrite ?bind_assoc.
  erewrite bind_Ok by (apply piece_alloc_Ok; exact Ho).
  norm_state. fold b. fold n. fold a.
  rewrite ?bind_assoc.
  erewrite bind_Ok by (apply (load_piece_Ok _ p P); norm_state; by lk).
  rewrite ?bind_assoc. unfold piece_init.
  erewrite bind_Ok by (apply store_piece_Ok; norm_state; by lk).
  norm_state. rewrite ?bind_assoc.
  erewrite bind_Ok by (apply store_piece_Ok; norm_state; by lk).
  norm_state. rewrite ?bind_assoc.
  erewrite bind_Ok by (apply (load_piece_Ok _ p P); norm_state; by lk).
  rewrite ?bind_assoc.
  erewrite bind_Ok by (apply store_piece_Ok; norm_state; by lk).
  norm_state. rewrite ?bind_assoc.
  rewrite insert3_over by done. rewrite Hq, Hr.
  rewrite (subw_small _ _ Hoff Hpmax).
  erewrite bind_Ok
    by (eapply (span_init_three _ b n a); norm_state; try done; by lk).
  cbn [p_len]. rewrite ?bind_assoc.
  assert (addw (addw (addw 0 k) len) (p_len P - k) = len + p_len P) as ->.
  { rewrite <-(subw_small _ _ Hoff Hpmax).
    apply span_len_midway; [done|done|clear -Hpsz Hsz; lia]. }
  erewrite bind_Ok by (apply store_change_Ok; norm_state; exact Hc0).
  norm_state. rewrite ?bind_assoc.
  erewrite bind_Ok by (apply (span_init_one _ p P); norm_state; by lk).
  rewrite (addw_0_small _ Hplen Hpmax).
  rewrite ?bind_assoc.
  erewrite bind_Ok by (apply store_change_Ok; norm_state; apply lookup_insert_eq).
  norm_state. rewrite bind_ret.
  match goal with |- context [bind (cache_piece (Some n)) _ ?st] =>
    destruct (cache_piece_runs st n) as [cch Hcp]
  end.
  { exists B. eexists. intros b0. norm_state. intros [= <-].
    split; [exact HB|]. by lk. }
  rewrite (bind_Ok _ _ _ _ _ Hcp). norm_state.
  erewrite bind_Ok by (apply load_change_Ok; norm_state; apply lookup_insert_eq).
  cbn [c_old c_new set_c_old set_c_new].
  match goal with |- context [bind (span_swap ?o ?nw) _ ?st] =>
    destruct (span_swap_replace_one st p P q Q r (p_len P) nw)
      as (R1 & HR1 & Hsw);
      [norm_state; by lk|done|done|done|norm_state; by lk
      |norm_state; lk; by eexists|clear -Hplen; lia
      |cbn [s_len]; clear -Hplen Hlen0; lia|] end.
  rewrite (bind_Ok _ _ _ _ _ Hsw). norm_state. cbn [s_start s_end s_len] in *.
  revert HR1. norm_state. lk. rewrite HR. intros [= <-].
  eexists _, t, B. split; [reflexivity|]. norm_state.
  split; [done|].
  split.
  { unfold addw, subw, wrap. rewrite Zplus_mod_idemp_l.
    replace (size s1 - p_len P + (len + p_len P)) with (size s1 + len)
      by (clear; lia).
    apply Z.mod_small. clear -Hsz0 Hlen0 Hsz. lia. }
  destruct Hcap. split_and!; done.
Qed.

(** ** Well-formed editors under an edit *)

Lemma last_or_app p l1 l2 : last_or p (l1 ++ l2) = last_or (last_or p l1) l2.
Proof.
  unfold last_or. destruct l2 as [|a l2 _] using rev_ind.
  - by rewrite app_nil_r.
  - by rewrite app_assoc, !last_snoc.
Qed.

Lemma linked_back_app h p l1 l2 :
  linked_back h p (l1 ++ l2)
  ↔ linked_back h p l1 ∧ linked_back h (last_or p l1) l2.
Proof.
  revert p. induction l1 as [|a l1 IH]; intros p; cbn [app linked_back].
  - unfold last_or. cbn. tauto.
  - rewrite IH. unfold last_or. rewrite last_cons.
    destruct (last l1); tauto.
Qed.

Lemma linked_back_ext h h' p l :
  (∀ x, x ∈ l → p_prev <$> h' !! x = p_prev <$> h !! x) →
  linked_back h p l → linked_back h' p l.
Proof.
  revert p. induction l as [|a l IH]; intros p Hext; cbn [linked_back]; [done|].
  intros [(A & HA & Hp) H]. split.
  - assert (a ∈ a :: l) as Ha by (by apply elem_of_cons; left).
    specialize (Hext a Ha). rewrite HA in Hext.
    destruct (h' !! a) as [A'|]; [|done]. cbn in Hext.
    exists A'. split; [done|]. congruence.
  - apply IH; [|done]. intros x Hx. apply Hext. apply elem_of_cons. by right.
Qed.

Lemma bytes_at_ext s s' c len bs :
  (∀ b B0, hp_buffer s !! b = Some B0 →
     ∃ B' k', hp_buffer s' !! b = Some B' ∧ b_content B' = b_content B0 ++ k') →
  bytes_at s c len bs → bytes_at s' c len bs.
Proof.
  intros Hext [Hlen Hbs]. split; [done|].
  destruct Hbs as [->|(c' & B & -> & Hofs & HB & ->)]; [by left|].
  destruct (decide (len ≤ 0)) as [Hle|Hgt].
  { left. by replace (Z.to_nat len) with 0%nat by lia. }
  right. destruct (Hext _ _ HB) as (B' & k' & HB' & Hc).
  exists c', B'. split; [done|]. split; [done|]. split; [done|].
  rewrite Hc. rewrite length_take, length_drop in Hlen.
  rewrite drop_app_le by lia. rewrite take_app_le; [done|].
  rewrite length_drop. lia.
Qed.

Lemma bytes_at_take s c len bs k :
  0 ≤ k ≤ len → bytes_at s c len bs → bytes_at s c k (take (Z.to_nat k) bs).
Proof.
  intros Hk [Hlen Hbs]. split; [rewrite length_take; lia|].
  destruct Hbs as [->|(c' & B & -> & Hofs & HB & ->)]; [left; by destruct (Z.to_nat k)|].
  right. exists c', B. split; [done|]. split; [done|]. split; [done|].
  rewrite take_take. f_equal. lia.
Qed.

Lemma bytes_at_drop s c len bs k :
  0 ≤ k ≤ len →
  bytes_at s c len bs →
  bytes_at s (cptr_add c k) (len - k) (drop (Z.to_nat k) bs).
Proof.
  intros Hk [Hlen Hbs]. split; [rewrite length_drop; lia|].
  destruct Hbs as [->|(c' & B & -> & Hofs & HB & ->)]; [left; by destruct (Z.to_nat k)|].
  right. exists (CPtr (blk c') (ofs c' + k)), B. cbn [cptr_add blk ofs].
  split; [done|]. split; [lia|]. split; [done|].
  rewrite Z2Nat.inj_sub, Z2Nat.inj_add by lia.
  rewrite <-drop_drop. apply skipn_firstn_comm.
Qed.

Lemma piece_bytes_frame s s' x bs :
  (λ P, (p_content P, p_len P)) <$> hp_piece s' !! x
  = (λ P, (p_content P, p_len P)) <$> hp_piece s !! x →
  (∀ b B0, hp_buffer s !! b = Some B0 →
     ∃ B' k', hp_buffer s' !! b = Some B' ∧ b_content B' = b_content B0 ++ k') →
  piece_bytes s x bs → piece_bytes s' x bs.
Proof.
  intros Hx Hext (P & HP & Hb). rewrite HP in Hx.
  destruct (hp_piece s' !! x) as [P'|] eqn:HP'; [|done]. cbn in Hx.
  injection Hx as Hc Hl. exists P'. split; [done|]. rewrite Hc, Hl.
  change (bytes_at s' (p_content P) (p_len P) bs).
  by apply (bytes_at_ext s s').
Qed.

Lemma Forall2_piece_bytes_frame s s' l bss :
  (∀ x, x ∈ l →
     (λ P, (p_content P, p_len P)) <$> hp_piece s' !! x
     = (λ P, (p_content P, p_len P)) <$> hp_piece s !! x) →
  (∀ b B0, hp_buffer s !! b = Some B0 →
     ∃ B' k', hp_buffer s' !! b = Some B' ∧ b_content B' = b_content B0 ++ k') →
  Forall2 (piece_bytes s) l bss → Forall2 (piece_bytes s') l bss.
Proof.
  intros Hx Hext H. induction H as [|a bs l bss Ha _ IH]; [constructor|].
  constructor.
  - apply (piece_bytes_frame s s'); [|done|done].
    apply Hx. by apply elem_of_cons; left.
  - apply IH. intros x Hin. apply Hx. apply elem_of_cons. by right.
Qed.

Lemma total_len_ext h h' l :
  (∀ x, x ∈ l → p_len <$> h' !! x = p_len <$> h !! x) →
  total_len h' l = total_len h l
  ∧ (Forall (λ a, 0 ≤ len_of h a) l → Forall (λ a, 0 ≤ len_of h' a) l).
Proof.
  induction l as [|a l IH]; intros Hx; [done|].
  assert (len_of h' a = len_of h a) as Ea.
  { assert (a ∈ a :: l) as Ha by (by apply elem_of_cons; left).
    specialize (Hx a Ha). unfold len_of.
    destruct (h' !! a), (h !! a); cbn in Hx; congruence. }
  destruct IH as [IH1 IH2].
  { intros x Hin. apply Hx. apply elem_of_cons. by right. }
  rewrite !total_len_cons, IH1, Ea. split; [done|].
  intros [H1 H2]%Forall_cons. constructor; [by rewrite Ea|by apply IH2].
Qed.

Lemma head_app_some {X} (l k : list X) x :
  head k = Some x → head (l ++ k) = head (l ++ [x]).
Proof. destruct l; [|done]. by destruct k; intros [= ->]. Qed.

Lemma chain_starts h p l e : chain h p l e → l ≠ [] → head l = p.
Proof. destruct l; [done|]. by intros [-> _]. Qed.

Lemma splice_shape {X} (l1 : list X) q nl l2 e :
  (l1 ++ q :: nl ++ l2) ++ [e] = (l1 ++ [q]) ++ nl ++ (l2 ++ [e]).
Proof.
  rewrite <-!app_assoc. cbn [app]. f_equal. f_equal. by rewrite <-app_assoc.
Qed.

(** The pieces [mid] behind [q] give way to the pieces [nl]: what
    remains of a well-formed editor. *)
Lemma splice_well_formed s s' l1 q Q mid nl l2 e r R bssA bssnl bssB :
  consistent s (l1 ++ q :: mid ++ l2) e →
  Forall2 (piece_bytes s) (l1 ++ [q]) bssA →
  Forall2 (piece_bytes s) (l2 ++ [e]) bssB →
  len_of (hp_piece s) begin_ = 0 →
  linked_back (hp_piece s) None ((l1 ++ q :: mid ++ l2) ++ [e]) →
  head (l2 ++ [e]) = Some r →
  hp_piece s !! q = Some Q → hp_piece s !! r = Some R →
  (∀ x, x ∈ l1 ++ l2 ++ [e] → x ≠ r → hp_piece s' !! x = hp_piece s !! x) →
  hp_piece s' !! q = Some (set_p_next (head (nl ++ [r])) Q) →
  hp_piece s' !! r = Some (set_p_prev (last (q :: nl)) R) →
  lseg (hp_piece s') (head (nl ++ [r])) nl (Some r) →
  linked_back (hp_piece s') (Some q) nl →
  Forall2 (piece_bytes s') nl bssnl →
  (∀ b B0, hp_buffer s !! b = Some B0 →
     ∃ B' k', hp_buffer s' !! b = Some B' ∧ b_content B' = b_content B0 ++ k') →
  size s' = size s - total_len (hp_piece s) mid + total_len (hp_piece s') nl →
  size s' < SIZE_MOD →
  consistent s' (l1 ++ q :: nl ++ l2) e
  ∧ Forall2 (piece_bytes s') ((l1 ++ q :: nl ++ l2) ++ [e])
      (bssA ++ bssnl ++ bssB)
  ∧ len_of (hp_piece s') begin_ = 0
  ∧ linked_back (hp_piece s') None ((l1 ++ q :: nl ++ l2) ++ [e]).
Proof.
  intros (Hch & _ & Hlen & Hsize & _) HbA HbB Hb0 Hback Hr HQ HR Hsame Hq' Hr'
    Hnl Hnlb Hbnl Hext Hsz Hmax.
  pose proof (chain_NoDup _ _ _ _ Hch) as Hnd.
  pose proof (chain_end_not_member _ _ _ _ Hch) as He.
  assert (r ∈ l2 ++ [e]) as Hrin.
  { destruct (l2 ++ [e]); [done|]. injection Hr as ->. by apply elem_of_cons; left. }
  apply NoDup_app in Hnd as (Hnd1 & Hnd12 & Hnd2).
  apply NoDup_cons in Hnd2 as [Hq2 Hnd2].
  apply NoDup_app in Hnd2 as (_ & _ & Hndl2).
  assert (q ∉ l1) as Hq1.
  { intros Hin. apply (Hnd12 q Hin). by apply elem_of_cons; left. }
  assert (q ∉ l2 ++ [e]) as Hql2.
  { intros [Hin|Hin%list_elem_of_singleton]%elem_of_app.
    - apply Hq2. apply elem_of_app. by right.
    - subst e. apply He. apply elem_of_app. right. by apply elem_of_cons; left. }
  assert (NoDup (l2 ++ [e])) as Hnd2e.
  { apply NoDup_app. split; [done|]. split; [|apply NoDup_singleton].
    intros x Hx ->%list_elem_of_singleton. apply He.
    apply elem_of_app. right. apply elem_of_cons. right. apply elem_of_app.
    by right. }
  assert (r ≠ q) as Hrq by (by intros ->).
  assert (r ∉ l1) as Hr1.
  { intros Hin. apply elem_of_app in Hrin as [Hin2|Hin2%list_elem_of_singleton].
    - apply (Hnd12 r Hin). apply elem_of_cons. right. apply elem_of_app. by right.
    - subst e. apply He. apply elem_of_app. by left. }
  assert (∀ x, x ∈ l1 → hp_piece s' !! x = hp_piece s !! x) as Hs1.
  { intros x Hx. apply Hsame; [apply elem_of_app; by left|by intros ->]. }
  assert (∀ x, x ∈ l2 ++ [e] → x ≠ r → hp_piece s' !! x = hp_piece s !! x) as Hs2.
  { intros x Hx Hne. apply Hsame; [apply elem_of_app; by right|done]. }
  assert (∀ x, x ∈ l1 ++ q :: l2 ++ [e] →
            (λ P, (p_content P, p_len P)) <$> hp_piece s' !! x
            = (λ P, (p_content P, p_len P)) <$> hp_piece s !! x) as Hcl.
  { intros x [Hx|[->|Hx]%elem_of_cons]%elem_of_app.
    - by rewrite Hs1.
    - by rewrite Hq', HQ.
    - destruct (decide (x = r)) as [->|Hne]; [by rewrite Hr', HR|by rewrite Hs2]. }
  assert (∀ x, x ∈ l1 ++ q :: l2 ++ [e] → p_len <$> hp_piece s' !! x = p_len <$> hp_piece s !! x)
    as Hll.
  { intros x Hx. specialize (Hcl x Hx).
    destruct (hp_piece s' !! x), (hp_piece s !! x); cbn in *; congruence. }
  assert (head (nl ++ l2 ++ [e]) = head (nl ++ [r])) as Hhd
    by (by apply head_app_some).
  (* the chain *)
  assert (chain (hp_piece s') (Some begin_) (l1 ++ q :: nl ++ l2) e) as Hch'.
  { apply (chain_splice (hp_piece s) (hp_piece s') _ l1 q mid nl l2 e Hch).
    - intros x Hx. by rewrite Hs1.
    - intros x Hx. destruct (decide (x = r)) as [->|Hne];
        [by rewrite Hr', HR|by rewrite Hs2].
    - by rewrite Hq', Hhd.
    - by rewrite Hhd, Hr. }
  (* the lengths *)
  assert (Forall (λ a, 0 ≤ len_of (hp_piece s') a) nl) as Hlnl.
  { clear -Hbnl.
    induction Hbnl as [|a bs nl bss (P & HP & Hl & _) _ IH];
      constructor; [|done]. unfold len_of. rewrite HP. lia. }
  apply Forall_app in Hlen as [Hlen1 [Hlenq Hlen2]%Forall_cons].
  apply Forall_app in Hlen2 as [_ Hlen2].
  destruct (total_len_ext (hp_piece s) (hp_piece s') l1) as [Et1 Hf1].
  { intros x Hx. apply Hll. apply elem_of_app. by left. }
  destruct (total_len_ext (hp_piece s) (hp_piece s') l2) as [Et2 Hf2].
  { intros x Hx. apply Hll. apply elem_of_app. right. apply elem_of_cons.
    right. apply elem_of_app. by left. }
  assert (len_of (hp_piece s') q = len_of (hp_piece s) q) as Eq.
  { unfold len_of. by rewrite Hq', HQ. }
  assert (begin_ ∈ l1 ++ [q]) as Hbegin.
  { pose proof (chain_starts _ _ _ _ Hch ltac:(by destruct l1)) as Hh.
    destruct l1 as [|x l1]; cbn in Hh; injection Hh as ->;
      by apply elem_of_cons; left. }
  split; [|split; [|split]].
  - split; [done|]. split; [by destruct l1|]. split.
    + apply Forall_app. split; [by apply Hf1|]. constructor; [by rewrite Eq|].
      apply Forall_app. split; [done|by apply Hf2].
    + split; [|done]. rewrite Hsz, Hsize.
      rewrite !total_len_app, !total_len_cons, !total_len_app, Et1, Et2, Eq.
      lia.
  - rewrite splice_shape.
    apply Forall2_app; [|apply Forall2_app; [done|]].
    + apply (Forall2_piece_bytes_frame s s'); [|done|done].
      intros x Hx. apply Hcl.
      apply elem_of_app in Hx as [Hx|Hx%list_elem_of_singleton];
        [apply elem_of_app; by left|].
      subst x. apply elem_of_app. right. by apply elem_of_cons; left.
    + apply (Forall2_piece_bytes_frame s s'); [|done|done].
      intros x Hx. apply Hcl. apply elem_of_app. right. apply elem_of_cons.
      by right.
  - unfold len_of in Hb0 |- *.
    assert (p_len <$> hp_piece s' !! begin_ = p_len <$> hp_piece s !! begin_) as Hbl.
    { apply Hll. apply elem_of_app in Hbegin as [Hx|Hx%list_elem_of_singleton];
        [apply elem_of_app; by left|].
      rewrite Hx. apply elem_of_app. right. by apply elem_of_cons; left. }
    destruct (hp_piece s' !! begin_), (hp_piece s !! begin_); cbn in Hbl; congruence.
  - rewrite splice_shape. rewrite splice_shape in Hback.
    apply linked_back_app in Hback as [HbackA Hback].
    apply linked_back_app in Hback as [_ Hback].
    assert (last_or None (l1 ++ [q]) = Some q) as Elq.
    { unfold last_or. by rewrite last_snoc. }
    rewrite Elq in Hback.
    apply linked_back_app. split.
    { eapply linked_back_ext; [|exact HbackA].
      intros x Hx. assert (x ∈ l1 ++ q :: l2 ++ [e]) as Hx'.
      { apply elem_of_app in Hx as [Hx|Hx%list_elem_of_singleton];
          [apply elem_of_app; by left|].
        subst x. apply elem_of_app. right. by apply elem_of_cons; left. }
      apply elem_of_app in Hx as [Hx|Hx%list_elem_of_singleton].
      - by rewrite Hs1.
      - subst x. by rewrite Hq', HQ. }
    rewrite Elq. apply linked_back_app. split; [done|].
    destruct (l2 ++ [e]) as [|r' rest] eqn:El2; [done|].
    injection Hr as ->. destruct Hback as [_ Hrest].
    apply NoDup_cons in Hnd2e as [Hrrest _].
    split.
    + exists (set_p_prev (last (q :: nl)) R). split; [done|].
      cbn [p_prev set_p_prev]. unfold last_or. rewrite last_cons.
      by destruct (last nl).
    + eapply linked_back_ext; [|exact Hrest].
      intros x Hx. rewrite Hs2; [done|by apply elem_of_cons; right|].
      by intros ->.
Qed.

(** ** The document after an insert *)

Lemma strlen_le text : Z.of_nat (strlen text) ≤ Z.of_nat (length text).
Proof.
  induction text as [|ch text IH]; cbn; [done|].
  destruct (decide (ch = zero)); cbn; lia.
Qed.

(** Where [pos] lies, with the bytes before and behind the piece
    piece_get returns. *)
Lemma locate_split s l e bss pos :
  consistent s l e →
  Forall2 (piece_bytes s) (l ++ [e]) bss →
  len_of (hp_piece s) begin_ = 0 →
  0 ≤ pos ≤ size s →
  ∃ l1 q l2 Q k bss1 bq bss2,
    l = l1 ++ q :: l2 ∧ bss = bss1 ++ bq :: bss2
    ∧ piece_get pos s = Ok (mkLocation (Some q) k) s
    ∧ hp_piece s !! q = Some Q
    ∧ 0 ≤ k ≤ p_len Q
    ∧ (k < p_len Q → 0 < k ∧ l1 ≠ [])
    ∧ Forall2 (piece_bytes s) l1 bss1
    ∧ piece_bytes s q bq
    ∧ Forall2 (piece_bytes s) (l2 ++ [e]) bss2
    ∧ Z.to_nat pos = (length (concat bss1) + Z.to_nat k)%nat
    ∧ Z.of_nat (length bq) = p_len Q.
Proof.
  intros (Hch & Hne & Hlen & Hsize & Hmax) Hbss Hb0 Hpos.
  destruct (piece_get_loop_first_fit s pos l (S (base.size (hp_piece s)))
              (Some begin_) 0 e)
    as (l1 & q & l2 & El & Hget & Hq & Hfirst);
    [done|pose proof (chain_bounded _ _ _ _ Hch); lia|done|done|lia|lia|lia|].
  rewrite Z.add_0_l in Hget, Hq. subst l.
  rewrite <-app_assoc in Hbss.
  apply Forall2_app_inv_l in Hbss as (bss1 & bss' & Hb1 & Hb' & ->).
  cbn [app] in Hb'.
  apply Forall2_cons_inv_l in Hb' as (bq & bss2 & Hbq & Hb2 & ->).
  pose proof (piece_bytes_total _ _ _ Hb1) as Hlen1.
  apply Forall_app in Hlen as [Hl1 [Hq0 Hl2]%Forall_cons].
  pose proof (total_len_nonneg _ _ Hl1) as Hn1.
  destruct (chain_app _ _ _ _ _ Hch) as [p' Hch'].
  pose proof Hch' as (-> & Q & HQ & _).
  assert (len_of (hp_piece s) q = p_len Q) as Eq
    by (unfold len_of; by rewrite HQ).
  rewrite Eq in *.
  exists l1, q, l2, Q, (pos - total_len (hp_piece s) l1), bss1, bq, bss2.
  split_and!; try done; try lia.
  - intros Hk. destruct l1 as [|x l1 _] using rev_ind.
    + exfalso. destruct Hch as ([= <-] & _).
      unfold len_of in Hb0. rewrite HQ in Hb0.
      change (total_len (hp_piece s) []) with 0 in *. lia.
    + split; [|by destruct l1].
      specialize (Hfirst l1 x [] eq_refl).
      rewrite !Z.add_0_l in Hfirst.
      apply Forall_app in Hl1 as [Hl1 [Hx _]%Forall_cons].
      pose proof (total_len_nonneg _ _ Hl1).
      rewrite total_len_app, total_len_cons in *.
      change (total_len (hp_piece s) []) with 0 in *. lia.
  - destruct Hbq as (Q' & HQ' & Hl & _). rewrite HQ in HQ'. by injection HQ' as <-.
Qed.

(** The state change_alloc leaves is as good as the one before. *)
Lemma change_alloc_keeps_shape s :
  allocations_succeed s →
  current_action s = None → redo s = None →
  head_buffer_sound s → buffers_fresh s →
  (∀ i, is_Some (hp_piece s !! i) → (i ≤ piece_count s)%nat) →
  ∃ c s1 C0,
    change_alloc s = Ok (Some c) s1
    ∧ hp_change s1 !! c = Some C0
    ∧ hp_piece s1 = hp_piece s ∧ hp_buffer s1 = hp_buffer s
    ∧ size s1 = size s ∧ redo s1 = None
    ∧ oracle s1 = [] ∧ head_buffer_sound s1 ∧ buffers_fresh s1
    ∧ (∀ i, is_Some (hp_piece s1 !! i) → (i ≤ piece_count s1)%nat).
Proof.
  intros Ho Hcur Hredo Hhead Hbf Hnum.
  destruct (change_alloc_runs s Ho) as (c & s1 & C0 & Hca & Hc0 & Ehp & Ehb
    & Ebufs & Epc & Esz & Ho1 & Hbrk & Eredo & _); [by left|].
  exists c, s1, C0. split_and!; try done.
  - congruence.
  - intros b Hb. rewrite Ebufs in Hb. rewrite Ehb. by apply Hhead.
  - intros i Hi. rewrite Ehb in Hi. apply Hbf in Hi. lia.
  - intros i Hi. rewrite Ehp in Hi. rewrite Epc. by apply Hnum.
Qed.

Lemma chain_next h p l1 q l2 e Q :
  chain h p (l1 ++ q :: l2) e → h !! q = Some Q →
  p_next Q = head (l2 ++ [e])
  ∧ ∃ r R, head (l2 ++ [e]) = Some r ∧ h !! r = Some R ∧ q ≠ r.
Proof.
  intros Hch HQ.
  pose proof (chain_NoDup _ _ _ _ Hch) as Hnd.
  pose proof (chain_end_not_member _ _ _ _ Hch) as He.
  destruct (chain_app _ _ _ _ _ Hch) as [p' (-> & Q' & HQ' & _ & Hch')].
  rewrite HQ in HQ'. injection HQ' as <-.
  pose proof (chain_head _ _ _ _ Hch') as Hhd. split; [done|].
  destruct (l2 ++ [e]) as [|r rest] eqn:El2; [by destruct l2|].
  assert (r ∈ l2 ++ [e]) as Hr by (rewrite El2; by apply elem_of_cons; left).
  destruct (chain_allocated _ _ _ _ r Hch') as [R HR]; [done|].
  exists r, R. split; [done|]. split; [done|]. intros ->.
  apply NoDup_app in Hnd as (_ & _ & [Hq _]%NoDup_cons).
  apply elem_of_app in Hr as [Hr|Hr%list_elem_of_singleton]; [done|].
  subst e. apply He. apply elem_of_app. right. by apply elem_of_cons; left.
Qed.

Lemma insert_boundary_wf s l1 q l2 e Q bss1 bq bss2 pos text :
  let len := Z.of_nat (strlen text) in
  well_formed s (l1 ++ q :: l2) e (bss1 ++ bq :: bss2) →
  allocations_succeed s →
  current_action s = None → redo s = None →
  piece_get pos s = Ok (mkLocation (Some q) (p_len Q)) s →
  hp_piece s !! q = Some Q →
  Forall2 (piece_bytes s) l1 bss1 → piece_bytes s q bq →
  Forall2 (piece_bytes s) (l2 ++ [e]) bss2 →
  0 < len → size s + len < SIZE_MOD →
  ∃ s' n,
    editor_insert pos text s = Ok true s'
    ∧ well_formed s' (l1 ++ q :: n :: l2) e
        (bss1 ++ bq :: take (Z.to_nat len) text :: bss2)
    ∧ size s' = size s + len
    ∧ allocations_succeed s' ∧ redo s' = None.
Proof.
  intros len (Hc & Hb & Hb0 & Hback & Hnum & Hhead & Hbfresh) Ho Hcur Hredo
    Hget HQ Hb1 Hbq Hb2 Hlen Hsz.
  destruct (change_alloc_keeps_shape s Ho Hcur Hredo Hhead Hbfresh Hnum)
    as (c & s1 & C0 & Hca & Hc0 & Ehp & Ehb & Esz & Hredo1 & Ho1 & Hhead1
        & Hbf1 & Hnum1).
  pose proof Hc as (Hch & _ & Hlens & Hsize & Hmax).
  destruct (chain_next _ _ _ _ _ _ _ Hch HQ) as (Hqn & r & R & Hr & HR & Hqr).
  pose proof (total_len_nonneg _ _ Hlens) as Hs0.
  destruct (boundary_insert_run s pos text q Q r R c C0 s1)
    as (s' & t & B & Hrun & Hhp & Hsize' & Hpc' & Ho' & Hbufs' & Hofs & HB
        & Hbytes & Hcont & Hcap & Hold & Hbf' & Hredo' & _);
    [done|by apply cache_insert_no_action|done|done|done|done|done|done
    |by rewrite Ehp|by rewrite Hqn, Hr|by rewrite Ehp|done|done
    |rewrite Esz; lia|rewrite Esz; lia|].
  fold len in Hhp, Hsize', Hbytes.
  set (n := S (piece_count s1)) in *.
  assert (∀ x, is_Some (hp_piece s !! x) → x ≠ n) as Hfreshn.
  { intros x Hx. rewrite <-Ehp in Hx. apply Hnum1 in Hx. unfold n. lia. }
  assert (q ≠ n ∧ r ≠ n) as [Hqn' Hrn'] by (split; apply Hfreshn; by eexists).
  exists s', n. split; [done|].
  rewrite Ehp in Hhp. rewrite Ehb in Hold.
  destruct (splice_well_formed s s' l1 q Q [] [n] l2 e r R
              (bss1 ++ [bq]) [take (Z.to_nat len) text] bss2)
    as (Hc' & Hb' & Hb0' & Hback').
  - exact Hc.
  - apply Forall2_app; [done|by constructor].
  - done.
  - done.
  - exact Hback.
  - done.
  - done.
  - done.
  - intros x Hx Hxr. rewrite Hhp.
    assert (x ≠ q) as Hxq.
    { intros ->. pose proof (chain_NoDup _ _ _ _ Hch) as Hnd.
      pose proof (chain_end_not_member _ _ _ _ Hch) as He.
      apply NoDup_app in Hnd as (_ & Hnd & [Hq2 _]%NoDup_cons).
      apply elem_of_app in Hx as [Hx|[Hx|Hx%list_elem_of_singleton]%elem_of_app].
      - apply (Hnd q Hx). by apply elem_of_cons; left.
      - done.
      - subst e. apply He. apply elem_of_app. right. by apply elem_of_cons; left. }
    assert (x ≠ n) as Hxn.
    { apply Hfreshn. apply elem_of_app in Hx as [Hx|Hx].
      - apply elem_of_dom. apply (chain_dom _ _ _ _ _ Hch).
        apply elem_of_app. by left.
      - apply (chain_allocated _ _ _ _ x Hch). rewrite <-app_assoc.
        apply elem_of_app. right. by apply elem_of_cons; right. }
    by lk.
  - rewrite Hhp. by lk.
  - rewrite Hhp. by lk.
  - cbn. split; [done|]. eexists. split; [rewrite Hhp; by lk|done].
  - cbn. split; [|done]. eexists. split; [rewrite Hhp; by lk|done].
  - constructor; [|constructor]. eexists. split; [rewrite Hhp; by lk|].
    cbn [p_len p_content]. pose proof (strlen_le text).
    split; [rewrite length_take; fold len; lia|]. right.
    exists t, B. by split_and!.
  - done.
  - rewrite Hsize', Esz. cbn [total_len foldr]. unfold len_of.
    rewrite Hhp. lk. cbn [p_len]. lia.
  - rewrite Hsize', Esz. lia.
  - assert (bss1 ++ bq :: take (Z.to_nat len) text :: bss2
            = (bss1 ++ [bq]) ++ [take (Z.to_nat len) text] ++ bss2) as ->
      by (by rewrite <-app_assoc).
    split; [|split; [congruence|split; [done|congruence]]].
    split; [exact Hc'|]. split; [exact Hb'|]. split; [done|].
    split; [exact Hback'|]. split; [|split; [|done]].
    + intros i Hi. rewrite Hpc'. rewrite Hhp in Hi.
      destruct (decide (i = n)) as [->|Hin]; [done|].
      assert (is_Some (hp_piece s1 !! i)) as Hi1.
      { rewrite Ehp.
        destruct (decide (i = r)) as [->|?]; [by eexists|].
        destruct (decide (i = q)) as [->|?]; [by eexists|].
        by rewrite !lookup_insert_ne in Hi. }
      apply Hnum1 in Hi1. unfold n. lia.
    + intros b. rewrite Hbufs'. intros [= <-]. exists B.
      split; [done|]. split; [done|]. exact Hcap.
Qed.

Lemma insert_midway_wf s l1 q' p l2 e P bss1 bq bss2 pos text k :
  let len := Z.of_nat (strlen text) in
  well_formed s ((l1 ++ [q']) ++ p :: l2) e (bss1 ++ bq :: bss2) →
  allocations_succeed s →
  current_action s = None → redo s = None →
  piece_get pos s = Ok (mkLocation (Some p) k) s →
  hp_piece s !! p = Some P →
  0 < k < p_len P →
  Forall2 (piece_bytes s) (l1 ++ [q']) bss1 → piece_bytes s p bq →
  Forall2 (piece_bytes s) (l2 ++ [e]) bss2 →
  0 < len → size s + len < SIZE_MOD →
  ∃ s' b n a,
    editor_insert pos text s = Ok true s'
    ∧ well_formed s' (l1 ++ q' :: b :: n :: a :: l2) e
        (bss1 ++ take (Z.to_nat k) bq :: take (Z.to_nat len) text
           :: drop (Z.to_nat k) bq :: bss2)
    ∧ size s' = size s + len
    ∧ allocations_succeed s' ∧ redo s' = None.
Proof.
  intros len (Hc & Hb & Hb0 & Hback & Hnum & Hhead & Hbfresh) Ho Hcur Hredo
    Hget HP Hk Hb1 Hbq Hb2 Hlen Hsz.
  destruct (change_alloc_keeps_shape s Ho Hcur Hredo Hhead Hbfresh Hnum)
    as (c & s1 & C0 & Hca & Hc0 & Ehp & Ehb & Esz & Hredo1 & Ho1 & Hhead1
        & Hbf1 & Hnum1).
  pose proof Hc as (Hch & _ & Hlens & Hsize & Hmax).
  destruct (chain_next _ _ _ _ _ _ _ Hch HP) as (Hpn & r & R & Hr & HR & Hpr).
  pose proof (total_len_nonneg _ _ Hlens) as Hs0.
  pose proof (chain_NoDup _ _ _ _ Hch) as Hnd.
  pose proof (chain_end_not_member _ _ _ _ Hch) as He.
  (* the piece before p *)
  assert (p_prev P = Some q') as Hpq.
  { rewrite <-app_assoc in Hback.
    apply linked_back_app in Hback as [_ Hback].
    unfold last_or in Hback. rewrite last_snoc in Hback.
    destruct Hback as [(A & HA & Hprev) _]. rewrite HP in HA. by injection HA as <-. }
  assert (q' ∈ (l1 ++ [q']) ++ p :: l2) as Hq'in.
  { apply elem_of_app. left. apply elem_of_app. right.
    by apply list_elem_of_singleton. }
  destruct (proj1 (elem_of_dom _ _) (chain_dom _ _ _ _ _ Hch Hq'in)) as [Q' HQ'].
  assert (r ∈ l2 ++ [e]) as Hrin.
  { destruct (l2 ++ [e]); [done|]. injection Hr as ->. by apply elem_of_cons; left. }
  apply NoDup_app in Hnd as (Hnd1 & Hnd12 & [Hp2 Hnd2]%NoDup_cons).
  assert (q' ≠ p) as Hq'p.
  { intros ->. apply (Hnd12 p); [|by apply elem_of_cons; left].
    apply elem_of_app. right. by apply list_elem_of_singleton. }
  assert (∀ x, x ∈ l2 ++ [e] → x ≠ q' ∧ x ≠ p) as Hl2.
  { intros x [Hx|Hx%list_elem_of_singleton]%elem_of_app.
    - split.
      + intros ->. apply (Hnd12 q'); [|by apply elem_of_cons; right].
        apply elem_of_app. right. by apply list_elem_of_singleton.
      + by intros ->.
    - subst x. split; intros ->; apply He.
      + done.
      + apply elem_of_app. right. by apply elem_of_cons; left. }
  destruct (Hl2 r Hrin) as [Hrq' _].
  assert (len_of (hp_piece s) p = p_len P) as Elp
    by (unfold len_of; by rewrite HP).
  assert (p_len P ≤ size s) as Hpsz.
  { rewrite Hsize, total_len_app, total_len_cons, Elp.
    apply Forall_app in Hlens as [Hl1 [_ Hl2']%Forall_cons].
    pose proof (total_len_nonneg _ _ Hl1).
    pose proof (total_len_nonneg _ _ Hl2'). lia. }
  destruct (midway_insert_runs s pos text p k P q' Q' r R c C0 s1)
    as (s' & t & B & Hrun & Hhp & Hsize' & Hpc' & Ho' & Hbufs' & Hofs & HB
        & Hbytes & Hcont & Hcap & Hold & Hbf' & Hredo' & _);
    [done|by apply cache_insert_no_action|done|done|done|done|done|done
    |by rewrite Ehp|done|done|done|by rewrite Ehp|by rewrite Hpn, Hr
    |by rewrite Ehp|congruence|rewrite Esz; lia|by rewrite Esz
    |rewrite Esz; lia|].
  fold len in Hhp, Hsize', Hbytes.
  set (b := S (piece_count s1)) in *.
  set (n := S b) in *. set (a := S n) in *.
  assert (∀ x, is_Some (hp_piece s !! x) → x ≠ b ∧ x ≠ n ∧ x ≠ a) as Hfresh.
  { intros x Hx. rewrite <-Ehp in Hx. apply Hnum1 in Hx. unfold a, n, b. lia. }
  assert (b ≠ n ∧ b ≠ a ∧ n ≠ a) as (Hbn & Hba & Hna) by (unfold a, n; lia).
  destruct (Hfresh q' ltac:(by eexists)) as (?&?&?).
  destruct (Hfresh r ltac:(by eexists)) as (?&?&?).
  exists s', b, n, a. split; [done|].
  rewrite Ehp in Hhp. rewrite Ehb in Hold.
  pose proof Hbq as (P' & HP' & Hlq & Hdisj).
  rewrite HP in HP'. injection HP' as <-.
  assert (bytes_at s' (p_content P) (p_len P) bq) as Hat.
  { apply (bytes_at_ext s s'); [done|]. by split. }
  pose proof (strlen_le text) as Hsl.
  destruct (splice_well_formed s s' l1 q' Q' [p] [b; n; a] l2 e r R
              bss1 [take (Z.to_nat k) bq; take (Z.to_nat len) text;
                    drop (Z.to_nat k) bq] bss2)
    as (Hc' & Hb' & Hb0' & Hback').
  - by rewrite <-app_assoc in Hc.
  - done.
  - done.
  - done.
  - by rewrite <-(app_assoc l1 [q']) in Hback.
  - done.
  - done.
  - done.
  - intros x Hx Hxr. rewrite Hhp.
    assert (x ≠ q') as Hxq.
    { apply elem_of_app in Hx as [Hx|Hx]; [|by apply Hl2].
      intros ->. apply NoDup_app in Hnd1 as (_ & Hnd1 & _).
      apply (Hnd1 q' Hx). by apply list_elem_of_singleton. }
    assert (is_Some (hp_piece s !! x)) as Hxa.
    { apply elem_of_app in Hx as [Hx|Hx].
      - apply elem_of_dom. apply (chain_dom _ _ _ _ _ Hch).
        apply elem_of_app. left. apply elem_of_app. by left.
      - apply (chain_allocated _ _ _ _ x Hch). rewrite <-app_assoc.
        apply elem_of_app. right. by apply elem_of_cons; right. }
    destruct (Hfresh x Hxa) as (?&?&?). by lk.
  - rewrite Hhp. by lk.
  - rewrite Hhp. by lk.
  - cbn. split; [done|]. eexists. split; [rewrite Hhp; by lk|]. cbn.
    split; [done|]. eexists. split; [rewrite Hhp; by lk|]. cbn.
    split; [done|]. eexists. split; [rewrite Hhp; by lk|done].
  - cbn. split; [eexists; split; [rewrite Hhp; by lk|done]|].
    split; [eexists; split; [rewrite Hhp; by lk|done]|].
    split; [eexists; split; [rewrite Hhp; by lk|done]|done].
  - constructor; [|constructor; [|constructor; [|constructor]]].
    + eexists. split; [rewrite Hhp; by lk|]. cbn [p_len p_content].
      apply (bytes_at_take s' _ (p_len P)); [lia|done].
    + eexists. split; [rewrite Hhp; by lk|]. cbn [p_len p_content].
      split; [rewrite length_take; fold len; lia|]. right.
      exists t, B. by split_and!.
    + eexists. split; [rewrite Hhp; by lk|]. cbn [p_len p_content].
      apply (bytes_at_drop s' _ (p_len P)); [lia|done].
  - done.
  - rewrite Hsize', Esz. cbn [total_len foldr]. unfold len_of.
    rewrite HP, Hhp. lk. cbn [p_len]. lia.
  - rewrite Hsize', Esz. lia.
  - split; [|split; [congruence|split; [done|congruence]]].
    split; [exact Hc'|]. split; [exact Hb'|]. split; [done|].
    split; [exact Hback'|]. split; [|split; [|done]].
    + intros i Hi. rewrite Hpc'. rewrite Hhp in Hi.
      destruct (decide (i = a)) as [->|?]; [done|].
      destruct (decide (i = n)) as [->|?]; [unfold a; lia|].
      destruct (decide (i = b)) as [->|?]; [unfold a, n; lia|].
      assert (is_Some (hp_piece s1 !! i)) as Hi1.
      { rewrite Ehp.
        destruct (decide (i = r)) as [->|?]; [by eexists|].
        destruct (decide (i = q')) as [->|?]; [by eexists|].
        by rewrite !lookup_insert_ne in Hi. }
      apply Hnum1 in Hi1. unfold a, n, b. lia.
    + intros b0. rewrite Hbufs'. intros [= <-]. exists B.
      split; [done|]. split; [done|]. exact Hcap.
Qed.

Lemma take_drop_middle_app {A} (a b c : list A) (k : nat) :
  (k ≤ length b)%nat →
  take (length a + k) (a ++ b ++ c) = a ++ take k b
  ∧ drop (length a + k) (a ++ b ++ c) = drop k b ++ c.
Proof.
  intros Hk. split.
  - rewrite take_app_add'; [|done]. f_equal. by rewrite take_app_le.
  - rewrite drop_app_add'; [|done]. by rewrite drop_app_le.
Qed.

(** X17: on a well-formed editor, whose document is the concatenation of
    the bytes of its pieces, with no action open and nothing to redo,
    and while no allocation fails, editor_insert of a text with at
    least one byte at a position from 0 to size returns true and leaves
    a well-formed editor whose size has grown by the length of the
    text.  The document then reads: the bytes before the position, the
    text up to its first NUL, the bytes from the position on. *)
Theorem editor_insert_document s l e bss pos text :
  let len := Z.of_nat (strlen text) in
  well_formed s l e bss →
  allocations_succeed s →
  current_action s = None → redo s = None →
  0 ≤ pos ≤ size s →
  0 < len → size s + len < SIZE_MOD →
  editor_content s = Ok (concat bss) s
  ∧ ∃ s' l' bss',
      editor_insert pos text s = Ok true s'
      ∧ well_formed s' l' e bss'
      ∧ concat bss'
        = take (Z.to_nat pos) (concat bss) ++ take (Z.to_nat len) text
            ++ drop (Z.to_nat pos) (concat bss)
      ∧ editor_content s' = Ok (concat bss') s'
      ∧ size s' = size s + len
      ∧ allocations_succeed s' ∧ redo s' = None.
Proof.
  intros len Hwf Ho Hcur Hredo Hpos Hlen Hsz.
  pose proof Hwf as (Hc & Hb & Hb0 & _).
  split.
  { unfold editor_content.
    rewrite (iterate_copy_suffix s l e bss 0 Hc Hb); [done|].
    clear -Hpos. lia. }
  destruct (locate_split s l e bss pos Hc Hb Hb0 Hpos)
    as (l1 & q & l2 & Q & k & bss1 & bq & bss2 & -> & -> & Hget & HQ & Hk
        & Hmid & Hb1 & Hbq & Hb2 & Epos & Elq).
  assert (∀ s' l' bss',
    well_formed s' l' e bss' →
    concat bss' = concat bss1 ++ take (Z.to_nat k) bq
                    ++ take (Z.to_nat len) text
                    ++ drop (Z.to_nat k) bq ++ concat bss2 →
    concat bss'
      = take (Z.to_nat pos) (concat (bss1 ++ bq :: bss2))
          ++ take (Z.to_nat len) text
          ++ drop (Z.to_nat pos) (concat (bss1 ++ bq :: bss2))
    ∧ editor_content s' = Ok (concat bss') s') as Hfin.
  { intros s' l' bss' Hwf' Hcat.
    destruct (take_drop_middle_app (concat bss1) bq (concat bss2) (Z.to_nat k))
      as [Et Ed]; [clear -Hk Elq; lia|].
    rewrite concat_app, concat_cons, Epos, Et, Ed, <-app_assoc.
    split; [done|].
    destruct Hwf' as (Hc' & Hb' & _).
    pose proof Hc' as (_ & _ & _ & Hsize' & Hmax').
    unfold editor_content.
    rewrite (iterate_copy_suffix s' l' e bss' 0 Hc' Hb'); [done|].
    pose proof Hc' as (_ & _ & Hlens' & _).
    pose proof (total_len_nonneg _ _ Hlens'). clear -Hsize' H. lia. }
  destruct (decide (k = p_len Q)) as [->|Hne].
  - destruct (insert_boundary_wf s l1 q l2 e Q bss1 bq bss2 pos text)
      as (s' & n & Hrun & Hwf' & Hsize' & Ho' & Hredo'); try done.
    exists s', (l1 ++ q :: n :: l2),
      (bss1 ++ bq :: take (Z.to_nat len) text :: bss2).
    split; [done|]. split; [done|].
    destruct (Hfin s' _ _ Hwf') as [Hcat Hcont].
    { rewrite concat_app. cbn [concat].
      rewrite (take_ge bq), (drop_ge bq) by (clear -Elq; lia). done. }
    done.
  - assert (k < p_len Q) as Hlt. { clear -Hk Hne. lia. }
    destruct (Hmid Hlt) as [Hk0 Hl1].
    destruct (exists_last Hl1) as (l1' & q' & ->).
    destruct (insert_midway_wf s l1' q' q l2 e Q bss1 bq bss2 pos text k)
      as (s' & b & n & a & Hrun & Hwf' & Hsize' & Ho' & Hredo'); try done.
    exists s', (l1' ++ q' :: b :: n :: a :: l2),
      (bss1 ++ take (Z.to_nat k) bq :: take (Z.to_nat len) text
         :: drop (Z.to_nat k) bq :: bss2).
    split; [done|]. split; [done|].
    destruct (Hfin s' _ _ Hwf') as [Hcat Hcont].
    { rewrite concat_app. by cbn [concat]. }
    done.
Qed.

(** The editor editor_load returns for a file is well formed. *)
Lemma loaded_well_formed o bytes :
  Z.of_nat (length bytes) < SIZE_MOD →
  well_formed (loaded o bytes) [begin_; 3%nat] end_ [[]; bytes; []].
Proof.
  intros Hmax.
  destruct (loaded_pieces o bytes) as (H1 & H3 & H2 & H0).
  set (s := loaded o bytes) in *.
  split_and!.
  - split_and!; [|done| | |done].
    + cbn. split; [done|]. exists (mkPiece None (Some 3%nat) None 0).
      split; [done|]. split; [by eexists|]. split; [done|]. eexists.
      split; [exact H3|]. split; [by eexists|]. split; [done|]. by eexists.
    + repeat constructor; unfold len_of; rewrite ?H1, ?H3; cbn; lia.
    + unfold total_len. cbn [foldr]. unfold len_of. rewrite H1, H3.
      cbn [p_len]. subst s. cbn [size loaded]. lia.
  - repeat constructor.
    + eexists. split; [exact H1|]. split; [done|]. by left.
    + eexists. split; [exact H3|]. split; [done|]. right.
      do 2 eexists. split; [reflexivity|]. split; [done|].
      split; [exact H0|]. cbn. by rewrite Nat2Z.id, firstn_all.
    + eexists. split; [exact H2|]. split; [done|]. by left.
  - unfold len_of. by rewrite H1.
  - cbn. split_and!; try done; eexists; (split; [eassumption|done]).
  - intros i. subst s. cbn [hp_piece loaded piece_count].
    rewrite !lookup_insert_is_Some, lookup_empty.
    unfold begin_, end_. intros [?|[_ [?|[_ [?|[_ [? [=]]]]]]]]; lia.
  - intros b. subst s. by cbn.
  - intros i. subst s. cbn [hp_buffer loaded brk].
    rewrite lookup_insert_is_Some, lookup_empty. unfold file_buf.
    intros [?|[_ [? [=]]]]. lia.
Qed.

Lemma editor_insert_document_witness :
  editor_load [] (Some (list_ascii_of_string "abcdef"))
  = Some (loaded [] (list_ascii_of_string "abcdef"))
  ∧ well_formed (loaded [] (list_ascii_of_string "abcdef")) [1; 3]%nat 2%nat
      (list_ascii_of_string <$> [""; "abcdef"; ""]%string)
  ∧ editor_content (loaded [] (list_ascii_of_string "abcdef"))
    = Ok (concat (list_ascii_of_string <$> [""; "abcdef"; ""]%string))
        (loaded [] (list_ascii_of_string "abcdef"))
  ∧ ∃ s' l' bss',
      editor_insert 3 (list_ascii_of_string "XYZ")
        (loaded [] (list_ascii_of_string "abcdef")) = Ok true s'
      ∧ well_formed s' l' 2%nat bss'
      ∧ concat bss' = list_ascii_of_string "abcXYZdef"
      ∧ editor_content s' = Ok (concat bss') s'
      ∧ size s' = 9
      ∧ allocations_succeed s' ∧ redo s' = None.
Proof.
  split; [vm_compute; reflexivity|].
  assert (well_formed (loaded [] (list_ascii_of_string "abcdef"))
            [1; 3]%nat 2%nat
            (list_ascii_of_string <$> [""; "abcdef"; ""]%string)) as Hwf
    by (apply loaded_well_formed; vm_compute; reflexivity).
  split; [exact Hwf|].
  apply (editor_insert_document _ _ _ _ 3 (list_ascii_of_string "XYZ") Hwf);
    vm_compute; (reflexivity || split; congruence).
Defined.
